(** * meas_algorithms: cosmic-ray removal and the spatial PSF model

    A shallow embedding of [src/CR.cc] and [src/SpatialModelPsf.cc].

    Conventions of the embedding.
    - Pixel values, variances and every other [float]/[double] quantity are
      exact rationals ([Q]): rounding, infinities and NaN are not modelled.
      Comparisons are decided by [Qltb] and [Qeq_bool].
    - [int] quantities are [Z]; a conversion of a floating value to [int]
      truncates toward zero ([Qtrunc]).
    - A [MaskedImage] is its origin, its size and three planes; a plane is a
      total function of the pixel index, so that a read or a write outside
      the image (undefined in C++) touches no pixel of the image.
    - Code that throws, fails an assertion or may loop for ever returns a
      [Result].
    - What the sources take from elsewhere ([std::sqrt], [rand],
      [Interp.h], the afw Footprint helpers, Eigen, Minuit) is collected in
      records of collaborators that the embedded functions take as their
      first argument. *)

From Stdlib Require Import ZArith QArith List Bool Lia Lqa.
Import ListNotations.
Local Open Scope Z_scope.

(* ================================================================= *)
(** ** Numbers *)

Definition Qltb (a b : Q) : bool := negb (Qle_bool b a).

(** C++ conversion of a floating value to [int]. *)
Definition Qtrunc (q : Q) : Z := Z.quot (Qnum q) (Zpos (Qden q)).

Definition ZtoQ (z : Z) : Q := inject_Z z.

(** [lo, lo+1, ..., lo+n-1]: the index values of a counting loop. *)
Fixpoint zrange (lo : Z) (n : nat) : list Z :=
  match n with
  | O => []
  | S n' => lo :: zrange (lo + 1) n'
  end.

(** The values taken by [for (i = lo; i < hi; ++i)]. *)
Definition for_range (lo hi : Z) : list Z := zrange lo (Z.to_nat (hi - lo)).

(* ================================================================= *)
(** ** Results of code that can fail *)

Inductive Error : Type :=
| AssertionFailure
| OutOfRange
| NonTermination
| LogicErrorException
| RangeErrorException
| LengthErrorException.

Inductive Result (A : Type) : Type :=
| Ok (a : A)
| Err (e : Error).
Arguments Ok {A} a.
Arguments Err {A} e.

Definition bind {A B : Type} (c : Result A) (k : A -> Result B) : Result B :=
  match c with
  | Ok a => k a
  | Err e => Err e
  end.

Notation "'do' x <- c ; k" := (bind c (fun x => k))
  (at level 10, x pattern, c at level 100, k at level 200).

Definition is_ok {A : Type} (r : Result A) : bool :=
  match r with Ok _ => true | Err _ => false end.

(** Left fold of a fallible step, stopping at the first failure. *)
Fixpoint foldM {A S : Type} (f : S -> A -> Result S) (l : list A) (s : S)
  : Result S :=
  match l with
  | [] => Ok s
  | a :: l' => do s' <- f s a; foldM f l' s'
  end.

(* ================================================================= *)
(** ** Masked images *)

Record MaskedImage : Type := mkMaskedImage {
  getX0 : Z;
  getY0 : Z;
  getWidth : Z;
  getHeight : Z;
  image_at : Z -> Z -> Q;
  variance_at : Z -> Z -> Q;
  mask_at : Z -> Z -> Z
}.

Definition same_pixel (x y x' y' : Z) : bool := (x' =? x) && (y' =? y).

Definition plane_set {V : Type} (p : Z -> Z -> V) (x y : Z) (v : V)
  : Z -> Z -> V :=
  fun x' y' => if same_pixel x y x' y' then v else p x' y'.

Definition set_image (mi : MaskedImage) (x y : Z) (v : Q) : MaskedImage :=
  mkMaskedImage (getX0 mi) (getY0 mi) (getWidth mi) (getHeight mi)
    (plane_set (image_at mi) x y v) (variance_at mi) (mask_at mi).

Definition set_mask (mi : MaskedImage) (x y : Z) (m : Z) : MaskedImage :=
  mkMaskedImage (getX0 mi) (getY0 mi) (getWidth mi) (getHeight mi)
    (image_at mi) (variance_at mi) (plane_set (mask_at mi) x y m).

Definition in_image (mi : MaskedImage) (x y : Z) : bool :=
  (0 <=? x) && (x <? getWidth mi) && (0 <=? y) && (y <? getHeight mi).

(** A C++ integer used as a condition. *)
Definition nonzero (m : Z) : bool := negb (m =? 0).

(** [std::vector<int>] read at an [int] index. *)
Definition vec_at (v : list Z) (i : Z) : option Z :=
  if i <? 0 then None else nth_error v (Z.to_nat i).

Fixpoint list_set {A : Type} (l : list A) (n : nat) (a : A) : list A :=
  match l, n with
  | [], _ => []
  | _ :: t, O => a :: t
  | h :: t, S n' => h :: list_set t n' a
  end.

Definition vec_set (v : list Z) (i : Z) (a : Z) : Result (list Z) :=
  if (i <? 0) || (Z.of_nat (length v) <=? i) then Err OutOfRange
  else Ok (list_set v (Z.to_nat i) a).

(* ================================================================= *)
(** ** CR.cc *)

Module CR.

(** *** Collaborators *)

Record Span : Type := mkSpan { getY : Z; getSpanX0 : Z; getSpanX1 : Z }.

(** A Footprint is its list of spans, in the coordinates of the parent
    image.  The bounding box afw keeps beside them is read by no code of
    [CR.cc] but a trace message, and is left out. *)
Definition Footprint : Type := list Span.

Record Externals : Type := mkExternals {
  (** [std::sqrt] *)
  sqrt : Q -> Q;
  (** [std::numeric_limits<ImageT>::max()] and [::min()] *)
  numeric_max : Q;
  numeric_min : Q;
  (** the value of the n-th call of [rand()], and [(float)RAND_MAX] *)
  rand : nat -> Z;
  RAND_MAX : Z;
  (** [Interp.h]: the coefficients of the 4-point interpolators, the bias
      of the minimum of two Gaussians, and the long-range interpolator
      [singlePixel(x, y, image, horizontal, minval)] *)
  lpc_1_c1 : Q;
  lpc_1_c2 : Q;
  lpc_1s2_c1 : Q;
  lpc_1s2_c2 : Q;
  min_2Gaussian_bias : Q;
  singlePixel : Z -> Z -> MaskedImage -> bool -> Q -> Q;
  (** afw: [growFootprint(foot, ngrow)], [Footprint::normalize] and
      [footprintAndMask(foot, mask, bitmask)], whose result may be a null
      pointer *)
  growFootprint : Footprint -> Z -> Footprint;
  normalize : Footprint -> Footprint;
  footprintAndMask : Footprint -> MaskedImage -> Z -> option Footprint
}.

(** *** IdSpan, resolve_alias *)

Record IdSpan : Type := mkIdSpan {
  isp_id : Z;
  isp_y : Z;
  isp_x0 : Z;
  isp_x1 : Z
}.

(** [IdSpanCompar] (CR.cc:46-56): by id, then by row. *)
Definition IdSpanCompar (a b : IdSpan) : bool :=
  if isp_id a <? isp_id b then true
  else if isp_id a >? isp_id b then false
  else isp_y a <? isp_y b.

(** The [while] loop of [resolve_alias] (CR.cc:60-69), with the two
    variables it assigns.  It need not terminate (a table can hold a
    cycle), so it runs on fuel; an index outside the table is an
    error. *)
Fixpoint resolve_alias_loop (fuel : nat) (aliases : list Z)
  (resolved id : Z) : Result Z :=
  match fuel with
  | O => Err NonTermination
  | S fuel' =>
      match vec_at aliases id with
      | None => Err OutOfRange
      | Some a =>
          if negb (id =? a)
          then resolve_alias_loop fuel' aliases a a
          else Ok resolved
      end
  end.

Definition resolve_alias_fuel (fuel : nat) (aliases : list Z) (id : Z)
  : Result Z :=
  resolve_alias_loop fuel aliases id id.

(** A chain that ends visits no entry twice, so one more step than the
    table has entries is all the fuel it can use (see
    [resolve_alias_total]). *)
Definition resolve_alias (aliases : list Z) (id : Z) : Result Z :=
  resolve_alias_fuel (S (length aliases)) aliases id.

(** The chain of [id] in [aliases] ends in the fixed point [r]. *)
Inductive chain_ends (aliases : list Z) : Z -> Z -> Prop :=
| chain_fixed (id : Z) :
    vec_at aliases id = Some id -> chain_ends aliases id id
| chain_step (id a r : Z) :
    vec_at aliases id = Some a -> a <> id ->
    chain_ends aliases a r -> chain_ends aliases id r.

(** The chain of [id] ends in [r] after exactly [n] steps. *)
Inductive chain_steps (aliases : list Z) : Z -> nat -> Z -> Prop :=
| steps_fixed (id : Z) :
    vec_at aliases id = Some id -> chain_steps aliases id 0 id
| steps_step (id a r : Z) (n : nat) :
    vec_at aliases id = Some a -> a <> id ->
    chain_steps aliases a n r -> chain_steps aliases id (S n) r.

(** The bits of [b] are the same in the masks of [mi] and [mi']. *)
Definition same_bits (b : Z) (mi mi' : MaskedImage) : Prop :=
  forall x y, Z.land (mask_at mi' x y) b = Z.land (mask_at mi x y) b.

(** *** The pixel test *)

Section PixelTest.
Variable E : Externals.

(** [condition_3] (CR.cc:576-614): the result is the estimate when the
    condition holds. *)
Definition condition_3 (peak mean_ns mean_we mean_swne mean_nwse : Q)
  (dpeak dmean_ns dmean_we dmean_swne dmean_nwse : Q)
  (thres_h thres_v thres_d e_per_dn cond3_fac : Q) : option Q :=
  if Qltb (mean_ns + cond3_fac * dmean_ns)
          (thres_v * (peak - cond3_fac * dpeak))
  then Some mean_ns
  else if Qltb (mean_we + cond3_fac * dmean_we)
               (thres_h * (peak - cond3_fac * dpeak))
  then Some mean_we
  else if Qltb (mean_swne + cond3_fac * dmean_swne)
               (thres_d * (peak - cond3_fac * dpeak))
  then Some mean_swne
  else if Qltb (mean_nwse + cond3_fac * dmean_nwse)
               (thres_d * (peak - cond3_fac * dpeak))
  then Some mean_nwse
  else None.

Definition mean_we (mi : MaskedImage) (x y : Z) : Q :=
  (image_at mi (x - 1) y + image_at mi (x + 1) y) / 2.
Definition mean_ns (mi : MaskedImage) (x y : Z) : Q :=
  (image_at mi x (y + 1) + image_at mi x (y - 1)) / 2.
Definition mean_swne (mi : MaskedImage) (x y : Z) : Q :=
  (image_at mi (x - 1) (y - 1) + image_at mi (x + 1) (y + 1)) / 2.
Definition mean_nwse (mi : MaskedImage) (x y : Z) : Q :=
  (image_at mi (x - 1) (y + 1) + image_at mi (x + 1) (y - 1)) / 2.

Definition thres_sky_sigma (mi : MaskedImage) (x y : Z) (min_sigma : Z) : Q :=
  ZtoQ min_sigma * sqrt E (variance_at mi x y).

(** Condition #2 of [is_cr_pixel] (CR.cc:150-163): [true] when the
    pixel is rejected. *)
Definition condition_2_rejects (mi : MaskedImage) (x y : Z) (min_sigma : Z)
  : bool :=
  let v_00 := image_at mi x y in
  if min_sigma <? 0 then Qltb v_00 (ZtoQ (- min_sigma))
  else
    let s := thres_sky_sigma mi x y min_sigma in
    Qltb v_00 (mean_ns mi x y + s) &&
    Qltb v_00 (mean_we mi x y + s) &&
    Qltb v_00 (mean_swne mi x y + s) &&
    Qltb v_00 (mean_nwse mi x y + s).

(** [is_cr_pixel] (CR.cc:120-187) at the pixel [(x, y)] the locator
    points at: [Some corr] when it returns [true] with [*corr] set,
    [None] when it returns [false].  [min_sigma] is an [int]
    parameter. *)
Definition is_cr_pixel (mi : MaskedImage) (x y : Z) (min_sigma : Z)
  (thres_h thres_v thres_d bkgd e_per_dn cond3_fac : Q) : option Q :=
  let v_00 := image_at mi x y in
  if Qltb v_00 0 then None
  else if condition_2_rejects mi x y min_sigma then None
  else
    let dv_00 := sqrt E (variance_at mi x y) in
    let dmean_we :=
      (sqrt E (variance_at mi (x - 1) y + variance_at mi (x + 1) y) / 2)%Q in
    let dmean_ns :=
      (sqrt E (variance_at mi x (y + 1) + variance_at mi x (y - 1)) / 2)%Q in
    let dmean_swne :=
      (sqrt E (variance_at mi (x - 1) (y - 1)
               + variance_at mi (x + 1) (y + 1)) / 2)%Q in
    let dmean_nwse :=
      (sqrt E (variance_at mi (x - 1) (y + 1)
               + variance_at mi (x + 1) (y - 1)) / 2)%Q in
    match condition_3 (v_00 - bkgd)%Q (mean_ns mi x y - bkgd)%Q
            (mean_we mi x y - bkgd)%Q (mean_swne mi x y - bkgd)%Q
            (mean_nwse mi x y - bkgd)%Q
            dv_00 dmean_ns dmean_we dmean_swne dmean_nwse
            thres_h thres_v thres_d e_per_dn cond3_fac with
    | None => None
    | Some corr => Some (corr + bkgd)%Q
    end.

End PixelTest.


(** *** afw's Footprint interface

    Modelled from the spec: the Footprint helpers of afw that [CR.cc]
    calls (a Footprint is a list of row-spans with inclusive ends; a
    FootprintFunctor visits its pixels span by span). *)

Definition addSpan (fp : Footprint) (y x0 x1 : Z) : Footprint :=
  fp ++ [mkSpan y x0 x1].

Definition getNpix (fp : Footprint) : Z :=
  fold_left (fun n sp => n + (getSpanX1 sp - getSpanX0 sp + 1)) fp 0.

(** The pixels of a Footprint, as [(x, y)] in parent coordinates, in the
    order [FootprintFunctor::apply] visits them. *)
Definition span_pixels (sp : Span) : list (Z * Z) :=
  map (fun x => (x, getY sp)) (for_range (getSpanX0 sp) (getSpanX1 sp + 1)).

Definition footprint_pixels (fp : Footprint) : list (Z * Z) :=
  flat_map span_pixels fp.

(** [setMaskFromFootprint(mask, foot, bitmask)]. *)
Definition setMaskFromFootprint (mi : MaskedImage) (fp : Footprint)
  (bitmask : Z) : MaskedImage :=
  fold_left
    (fun m '(x, y) =>
       let lx := x - getX0 mi in
       let ly := y - getY0 mi in
       set_mask m lx ly (Z.lor (mask_at m lx ly) bitmask))
    (footprint_pixels fp) mi.

(** [setMaskFromFootprintList(mask, footprints, bitmask)]. *)
Definition setMaskFromFootprintList (mi : MaskedImage)
  (fps : list Footprint) (bitmask : Z) : MaskedImage :=
  fold_left (fun m fp => setMaskFromFootprint m fp bitmask) fps mi.

(** *** CRPixel *)

Record CRPixel : Type := mkCRPixel {
  crp_id : Z;
  crp_col : Z;
  crp_row : Z;
  crp_val : Q;
  crp_i : Z
}.

(** The state [findCosmicRays] works on: the image, the vector
    [crpixels], the static counter [CRPixel::i] and the number of calls
    of [rand()] made so far (by way of [gaussdev]). *)
Record State : Type := mkState {
  st_mimage : MaskedImage;
  st_crpixels : list CRPixel;
  st_i : Z;
  st_rand : nat
}.

Definition with_mimage (st : State) (mi : MaskedImage) : State :=
  mkState mi (st_crpixels st) (st_i st) (st_rand st).

(** [crpixels.push_back(CRPixel(col, row, val, id))]: the constructor
    (CR.cc:85-88) takes [val] as an [int], and stamps the pixel with
    [++i]. *)
Definition push_CRPixel (st : State) (col row : Z) (val : Q) (id : Z)
  : State :=
  let i' := st_i st + 1 in
  mkState (st_mimage st)
    (st_crpixels st ++ [mkCRPixel id col row (ZtoQ (Qtrunc val)) i'])
    i' (st_rand st).

Definition set_crp_id (c : CRPixel) (id : Z) : CRPixel :=
  mkCRPixel id (crp_col c) (crp_row c) (crp_val c) (crp_i c).

Section Engine.
Variable E : Externals.

(** [lsst::afw::math::gaussdev] (CR.cc:23). *)
Definition gaussdev (n : nat) : Q :=
  (ZtoQ (rand E n) / ZtoQ (RAND_MAX E))%Q.

(** [checkSpanForCRs] (CR.cc:194-224): the pixels of row [y] from
    [x0 - 1] to [x1 + 1]; the spans added to [extras] are returned with
    the state. *)
Definition checkSpanForCRs (extras : Footprint) (st : State)
  (y x0 x1 : Z) (min_sigma : Z) (thres_h thres_v thres_d : Q)
  (bkgd e_per_dn cond3_fac : Q) (keep : bool) : Footprint * State :=
  fold_left
    (fun '(extras, st) x =>
       let mi := st_mimage st in
       match is_cr_pixel E mi x y min_sigma thres_h thres_v thres_d
               bkgd e_per_dn cond3_fac with
       | Some corr =>
           let st1 :=
             if keep then push_CRPixel st x y (image_at mi x y) (-1)
             else st in
           let st2 := with_mimage st1 (set_image (st_mimage st1) x y corr) in
           (addSpan extras (y + getY0 mi) (x + getX0 mi) (x + getX0 mi), st2)
       | None => (extras, st)
       end)
    (for_range (x0 - 1) (x1 + 2)) (extras, st).

(** [CountsInCR] (CR.cc:231-255) applied to a Footprint: the sum of
    [image - bkgd]. *)
Definition CountsInCR (mi : MaskedImage) (bkgd : Q) (fp : Footprint) : Q :=
  fold_left
    (fun sum '(x, y) =>
       (sum + (image_at mi (x - getX0 mi) (y - getY0 mi) - bkgd))%Q)
    (footprint_pixels fp) 0%Q.

(** *** RemoveCR *)

(** What one of the four directional blocks of [RemoveCR::operator()]
    (CR.cc:637-776) does with its estimate: it is left out because its
    support pixels would fall outside the image, or because the mask
    test finds it contaminated, or it is computed. *)
Inductive Estimate : Type :=
| OutOfImage
| Contaminated
| Computed (tmp : Q).

(** The test [(loc.mask(dx, dy) | _badMask)] of the source, an integer
    read as a condition. *)
Definition mask_test (mi : MaskedImage) (badMask : Z) (lx ly : Z) : bool :=
  nonzero (Z.lor (mask_at mi lx ly) badMask).

(** "W-E row" (CR.cc:649-667). *)
Definition estimate_WE (mi : MaskedImage) (badMask : Z) (ncol nrow : Z)
  (lx ly x y : Z) : Estimate :=
  if (x - 2 >=? 0) && (x + 2 <? ncol) then
    if mask_test mi badMask (lx - 2) ly || mask_test mi badMask (lx - 1) ly ||
       mask_test mi badMask (lx + 1) ly || mask_test mi badMask (lx + 2) ly
    then Contaminated
    else
      let v_m2 := image_at mi (lx - 2) ly in
      let v_m1 := image_at mi (lx - 1) ly in
      let v_p1 := image_at mi (lx + 1) ly in
      let v_p2 := image_at mi (lx + 2) ly in
      Computed (lpc_1_c1 E * (v_m1 + v_p1) + lpc_1_c2 E * (v_m2 + v_p2))%Q
  else OutOfImage.

(** "N-S column" (CR.cc:671-689). *)
Definition estimate_NS (mi : MaskedImage) (badMask : Z) (ncol nrow : Z)
  (lx ly x y : Z) : Estimate :=
  if (y - 2 >=? 0) && (y + 2 <? nrow) then
    if mask_test mi badMask lx (ly - 2) || mask_test mi badMask lx (ly - 1) ||
       mask_test mi badMask lx (ly + 1) || mask_test mi badMask lx (ly + 2)
    then Contaminated
    else
      let v_m2 := image_at mi lx (ly - 2) in
      let v_m1 := image_at mi lx (ly - 1) in
      let v_p1 := image_at mi lx (ly + 1) in
      let v_p2 := image_at mi lx (ly + 2) in
      Computed (lpc_1_c1 E * (v_m1 + v_p1) + lpc_1_c2 E * (v_m2 + v_p2))%Q
  else OutOfImage.

(** "SW--NE diagonal" (CR.cc:693-711). *)
Definition estimate_SWNE (mi : MaskedImage) (badMask : Z) (ncol nrow : Z)
  (lx ly x y : Z) : Estimate :=
  if (x - 2 >=? 0) && (x + 2 <? ncol) && (y - 2 >=? 0) && (y + 2 <? nrow) then
    if mask_test mi badMask (lx - 2) (ly - 2) ||
       mask_test mi badMask (lx - 1) (ly - 1) ||
       mask_test mi badMask (lx + 1) (ly + 1) ||
       mask_test mi badMask (lx + 2) (ly + 2)
    then Contaminated
    else
      let v_m2 := image_at mi (lx - 2) (ly - 2) in
      let v_m1 := image_at mi (lx - 1) (ly - 1) in
      let v_p1 := image_at mi (lx + 1) (ly + 1) in
      let v_p2 := image_at mi (lx + 2) (ly + 2) in
      Computed (lpc_1s2_c1 E * (v_m1 + v_p1) + lpc_1s2_c2 E * (v_m2 + v_p2))%Q
  else OutOfImage.

(** "SE--NW diagonal" (CR.cc:715-733). *)
Definition estimate_SENW (mi : MaskedImage) (badMask : Z) (ncol nrow : Z)
  (lx ly x y : Z) : Estimate :=
  if (x - 2 >=? 0) && (x + 2 <? ncol) && (y - 2 >=? 0) && (y + 2 <? nrow) then
    if mask_test mi badMask (lx + 2) (ly - 2) ||
       mask_test mi badMask (lx + 1) (ly - 1) ||
       mask_test mi badMask (lx - 1) (ly + 1) ||
       mask_test mi badMask (lx - 2) (ly + 2)
    then Contaminated
    else
      let v_m2 := image_at mi (lx + 2) (ly - 2) in
      let v_m1 := image_at mi (lx + 1) (ly - 1) in
      let v_p1 := image_at mi (lx - 1) (ly + 1) in
      let v_p2 := image_at mi (lx - 2) (ly + 2) in
      Computed (lpc_1s2_c1 E * (v_m1 + v_p1) + lpc_1s2_c2 E * (v_m2 + v_p2))%Q
  else OutOfImage.

(** [if (tmp > minval && tmp < min) { min = tmp; ngood++; }] for an
    estimate that was computed; nothing for one that was skipped. *)
Definition consider (minval : Q) (acc : Q * Z) (e : Estimate) : Q * Z :=
  match e with
  | Computed tmp =>
      if Qltb minval tmp && Qltb tmp (fst acc)
      then (tmp, snd acc + 1)
      else acc
  | _ => acc
  end.

(** The four directional blocks: the running minimum and [ngood]. *)
Definition directional_min (mi : MaskedImage) (badMask : Z) (ncol nrow : Z)
  (minval : Q) (lx ly x y : Z) : Q * Z :=
  let acc0 := (numeric_max E, 0) in
  let acc1 := consider minval acc0 (estimate_WE mi badMask ncol nrow lx ly x y) in
  let acc2 := consider minval acc1 (estimate_NS mi badMask ncol nrow lx ly x y) in
  let acc3 := consider minval acc2 (estimate_SWNE mi badMask ncol nrow lx ly x y) in
  consider minval acc3 (estimate_SENW mi badMask ncol nrow lx ly x y).

(** [RemoveCR::operator()(loc, x, y)]: [(x, y)] is the pixel in the
    coordinates of the Footprint, and the locator points at the index
    [(x - X0, y - Y0)] of the image. *)
Definition RemoveCR_call (bkgd : Q) (badMask : Z) (debias : bool)
  (st : State) (x y : Z) : State :=
  let mi := st_mimage st in
  let ncol := getWidth mi in
  let nrow := getHeight mi in
  let lx := x - getX0 mi in
  let ly := y - getY0 mi in
  let sd := sqrt E (variance_at mi lx ly) in
  let minval := (bkgd - 2 * sd)%Q in
  let '(min, ngood) := directional_min mi badMask ncol nrow minval lx ly x y in
  let '(min, nrand) :=
    if ngood =? 0 then
      let val_h := singlePixel E x y mi true minval in
      let val_v := singlePixel E x y mi false minval in
      if Qeq_bool val_h (numeric_min E) then
        if Qeq_bool val_v (numeric_min E)
        then ((bkgd + sd * gaussdev (st_rand st))%Q, S (st_rand st))
        else (val_v, st_rand st)
      else
        if Qeq_bool val_v (numeric_min E)
        then (val_h, st_rand st)
        else (((val_v + val_h) / 2)%Q, st_rand st)
    else (min, st_rand st) in
  let min :=
    if debias && (ngood >? 1) then (min - min_2Gaussian_bias E * sd)%Q
    else min in
  mkState (set_image mi lx ly min) (st_crpixels st) (st_i st) nrand.

(** [RemoveCR::apply(foot)]. *)
Definition RemoveCR_apply (bkgd : Q) (badMask : Z) (debias : bool)
  (st : State) (fp : Footprint) : State :=
  fold_left (fun st '(x, y) => RemoveCR_call bkgd badMask debias st x y)
    (footprint_pixels fp) st.


(** [removeCR] (CR.cc:789-832): the CRs are visited from the last to
    the first.  A null [saturPixels] is dereferenced: an error. *)
Definition removeCR (st : State) (CRs : list Footprint) (bkgd : Q)
  (crBit saturBit badMask : Z) (debias grow : bool) : Result State :=
  foldM
    (fun st cr =>
       if grow && (getNpix cr <? 100) then
         let gcr := growFootprint E cr 1 in
         match footprintAndMask E gcr (st_mimage st) saturBit with
         | None => Err OutOfRange
         | Some saturPixels =>
             if getNpix saturPixels >? 0
             then Ok (with_mimage st
                        (setMaskFromFootprint (st_mimage st) saturPixels
                           saturBit))
             else Ok (RemoveCR_apply bkgd badMask debias st cr)
         end
       else Ok (RemoveCR_apply bkgd badMask debias st cr))
    (rev CRs) st.

(** *** findCosmicRays *)

Record Policy : Type := mkPolicy {
  CR_e_per_dn : Q;
  CR_min_sigma : Q;
  CR_min_e : Q;
  CR_cond3_fac : Q;
  CR_cond3_fac2 : Q;
  CR_niteration : Z
}.

(** [mimage.getMask()->getPlaneBitMask(name)] for the four planes used. *)
Record MaskPlanes : Type := mkMaskPlanes {
  plane_BAD : Z;
  plane_CR : Z;
  plane_INTRP : Z;
  plane_SAT : Z
}.

(** The sweep over the pixels that are not on the edge
    (CR.cc:310-334). *)
Definition initial_sweep (st : State) (min_sigma : Z)
  (thres_h thres_v thres_d bkgd e_per_dn cond3_fac : Q) (badMask : Z)
  : State :=
  let ncol := getWidth (st_mimage st) in
  let nrow := getHeight (st_mimage st) in
  fold_left
    (fun st j =>
       fold_left
         (fun st i =>
            let mi := st_mimage st in
            match is_cr_pixel E mi i j min_sigma thres_h thres_v thres_d
                    bkgd e_per_dn cond3_fac with
            | None => st
            | Some corr =>
                if nonzero (Z.land (mask_at mi i j) badMask) then st
                else
                  let st1 := push_CRPixel st i j (image_at mi i j) (-1) in
                  with_mimage st1 (set_image (st_mimage st1) i j corr)
            end)
         (for_range 1 (ncol - 1)) st)
    (for_range 1 (nrow - 1)) st.

(** The variables of the loop that cuts [crpixels] into spans
    (CR.cc:339-371). *)
Record SpanScan : Type := mkSpanScan {
  ss_ncr : Z;
  ss_aliases : list Z;
  ss_y : Z;
  ss_x0 : Z;
  ss_x1 : Z;
  ss_spans : list IdSpan;
  ss_seen : list CRPixel
}.

(** One iteration per pixel [crp] that has a successor [crp[1]] (the
    head of [rest]); the last pixel, the dummy, is only looked at. *)
Fixpoint span_scan (crp : CRPixel) (rest : list CRPixel) (ss : SpanScan)
  : Result SpanScan :=
  match rest with
  | [] =>
      Ok (mkSpanScan (ss_ncr ss) (ss_aliases ss) (ss_y ss) (ss_x0 ss)
            (ss_x1 ss) (ss_spans ss) (ss_seen ss ++ [crp]))
  | next :: rest' =>
      let '(crp, ncr, aliases, y, x0, x1) :=
        if crp_id crp <? 0 then
          let ncr := ss_ncr ss + 1 in
          (set_crp_id crp ncr, ncr, ss_aliases ss ++ [ncr],
           crp_row crp, crp_col crp, crp_col crp)
        else (crp, ss_ncr ss, ss_aliases ss, ss_y ss, ss_x0 ss, ss_x1 ss) in
      let id := crp_id crp in
      if (crp_row next =? crp_row crp) && (crp_col next =? crp_col crp + 1)
      then
        span_scan (set_crp_id next id) rest'
          (mkSpanScan ncr aliases y x0 (x1 + 1) (ss_spans ss)
             (ss_seen ss ++ [crp]))
      else
        if (y >=? 0) && (x0 >=? 0) && (x1 >=? 0) then
          span_scan next rest'
            (mkSpanScan ncr aliases y x0 x1
               (ss_spans ss ++ [mkIdSpan id y x0 x1])
               (ss_seen ss ++ [crp]))
        else Err AssertionFailure
  end.

(** The inner loop of "see if spans touch each other"
    (CR.cc:375-391). *)
Fixpoint touch_inner (sp : IdSpan) (tail : list IdSpan) (aliases : list Z)
  : Result (list Z) :=
  match tail with
  | [] => Ok aliases
  | sp2 :: tail' =>
      if isp_y sp2 =? isp_y sp then touch_inner sp tail' aliases
      else if negb (isp_y sp2 =? isp_y sp + 1) || (isp_x0 sp2 >? isp_x1 sp + 1)
      then Ok aliases
      else if isp_x1 sp2 >=? isp_x0 sp - 1 then
        do r1 <- resolve_alias aliases (isp_id sp);
        do r2 <- resolve_alias aliases (isp_id sp2);
        do aliases' <- vec_set aliases r1 r2;
        touch_inner sp tail' aliases'
      else touch_inner sp tail' aliases
  end.

Fixpoint touch_outer (spans : list IdSpan) (aliases : list Z)
  : Result (list Z) :=
  match spans with
  | [] => Ok aliases
  | sp :: tail =>
      do aliases' <- touch_inner sp tail aliases;
      touch_outer tail aliases'
  end.

(** [spans[i]->id = resolve_alias(aliases, spans[i]->id)] for every i
    (CR.cc:395-397). *)
Fixpoint resolve_spans (aliases : list Z) (spans : list IdSpan)
  : Result (list IdSpan) :=
  match spans with
  | [] => Ok []
  | sp :: tail =>
      do r <- resolve_alias aliases (isp_id sp);
      do tail' <- resolve_spans aliases tail;
      Ok (mkIdSpan r (isp_y sp) (isp_x0 sp) (isp_x1 sp) :: tail')
  end.

(** [std::sort] leaves the order of equivalent elements open; the
    embedding sorts by insertion, which keeps it. *)
Fixpoint insert_by {A : Type} (lt : A -> A -> bool) (a : A) (l : list A)
  : list A :=
  match l with
  | [] => [a]
  | b :: l' => if lt a b then a :: l else b :: insert_by lt a l'
  end.

Definition sort_by {A : Type} (lt : A -> A -> bool) (l : list A) : list A :=
  fold_left (fun sorted a => insert_by lt a sorted) l [].

(** "Build Footprints from spans" (CR.cc:407-431): [cur] holds the
    spans from [i0] on, which carry the id [id]. *)
Fixpoint build_footprints (X0 Y0 : Z) (id : Z) (cur : Footprint)
  (spans : list IdSpan) (CRs : list Footprint) : list Footprint :=
  match spans with
  | [] => CRs ++ [cur]
  | sp :: tail =>
      let s := mkSpan (isp_y sp + Y0) (isp_x0 sp + X0) (isp_x1 sp + X0) in
      if negb (isp_id sp =? id)
      then build_footprints X0 Y0 (isp_id sp) [s] tail (CRs ++ [cur])
      else build_footprints X0 Y0 id (cur ++ [s]) tail CRs
  end.

(** "reinstate CR pixels" (CR.cc:435-437): every element of
    [crpixels] but the last; on an empty vector the loop is taken not to
    run. *)
Definition reinstate (mi : MaskedImage) (crpixels : list CRPixel)
  : MaskedImage :=
  fold_left
    (fun m crp =>
       set_image m (crp_col crp - getX0 m) (crp_row crp - getY0 m)
         (crp_val crp))
    (removelast crpixels) mi.

(** Condition #1 (CR.cc:441-455): the CRs that are not erased. *)
Definition condition_1 (mi : MaskedImage) (bkgd : Q) (min_e : Z)
  (e_per_dn : Q) (CRs : list Footprint) : list Footprint :=
  filter
    (fun cr => negb (Qltb (CountsInCR mi bkgd cr) (ZtoQ min_e / e_per_dn)%Q))
    CRs.

(** The body of the loop over the CRs in one growth pass
    (CR.cc:479-534), for one CR: the CR as it is left, the state and
    [nextra]. *)
Definition grow_CR (interpBit : Z) (min_sigma : Z)
  (thres_h thres_v thres_d bkgd e_per_dn : Q) (keep : bool)
  (cr : Footprint) (st : State) (nextra : Z) : Footprint * State * Z :=
  let mi := st_mimage st in
  let ncol := getWidth mi in
  let nrow := getHeight mi in
  let npix :=
    match footprintAndMask E cr mi interpBit with
    | None => 0
    | Some om => getNpix om
    end in
  if npix =? getNpix cr then (cr, st, nextra)
  else
    let '(extra, st') :=
      fold_left
        (fun '(extra, st) span =>
           let y := getY span - getY0 mi in
           if (y <? 2) || (y >=? nrow - 2) then (extra, st)
           else
             let x0 := getSpanX0 span - getX0 mi in
             let x1 := getSpanX1 span - getX0 mi in
             let x0 := if x0 <? 2 then 2
                       else if x0 >? ncol - 3 then ncol - 3 else x0 in
             let x1 := if x1 <? 2 then 2
                       else if x1 >? ncol - 3 then ncol - 3 else x1 in
             let '(extra, st) :=
               checkSpanForCRs extra st (y - 1) x0 x1 min_sigma
                 thres_h thres_v thres_d bkgd e_per_dn 0 keep in
             let '(extra, st) :=
               checkSpanForCRs extra st y x0 x1 min_sigma
                 thres_h thres_v thres_d bkgd e_per_dn 0 keep in
             checkSpanForCRs extra st (y + 1) x0 x1 min_sigma
               thres_h thres_v thres_d bkgd e_per_dn 0 keep)
        cr ([], st) in
    if Z.of_nat (length extra) >? 0
    then (normalize E (cr ++ extra), st', nextra + getNpix extra)
    else (cr, st', nextra).

(** One pass of the growth loop over all the CRs (CR.cc:477-534). *)
Definition growth_pass (interpBit : Z) (min_sigma : Z)
  (thres_h thres_v thres_d bkgd e_per_dn : Q) (keep : bool)
  (s : list Footprint * State) (nextra : Z)
  : (list Footprint * State) * Z :=
  let '(CRs', st', nextra') :=
    fold_left
      (fun '(done, st, nextra) cr =>
         let '(cr', st', nextra') :=
           grow_CR interpBit min_sigma thres_h thres_v thres_d bkgd
             e_per_dn keep cr st nextra in
         (done ++ [cr'], st', nextra'))
      (fst s) ([], snd s, nextra) in
  ((CRs', st'), nextra').

End Engine.

(** The loop [for (i = 0; i != niteration; ++i) { pass; if (nextra == 0)
    break; }] (CR.cc:474-539); [nextra] is declared before the loop and
    handed from one pass to the next.  [log] is not in the source: it records, pass by pass, by
    how much the pass raised [nextra], so that the number of passes run
    and what each added can be spoken of. *)
Section Passes.
Context {S : Type}.
Variable pass : S -> Z -> S * Z.

Fixpoint iterate_passes (n : nat) (s : S) (nextra : Z) (log : list Z)
  : S * Z * list Z :=
  match n with
  | O => (s, nextra, log)
  | Datatypes.S n' =>
      let '(s', nextra') := pass s nextra in
      let log' := log ++ [nextra' - nextra] in
      if nextra' =? 0 then (s', nextra', log')
      else iterate_passes n' s' nextra' log'
  end.

(** A negative [niteration] is never equal to [i]: the loop ends only by
    the [break]. *)
Definition growth_iterations (niteration : Z) (s : S)
  : Result (S * Z * list Z) :=
  if niteration <? 0 then
    let '(s', nextra') := pass s 0 in
    if nextra' =? 0 then Ok (s', nextra', [0]) else Err NonTermination
  else Ok (iterate_passes (Z.to_nat niteration) s 0 []).

End Passes.

Section Find.
Variable E : Externals.

(** What a call of [findCosmicRays] (CR.cc:264-570) leaves behind: the
    Footprints returned, the state, and the log of the growth passes.

    In the branch [keep], [sort] and the loop that follows it work on
    [crpixels.end() - 1] and [crpixels.rbegin() + 1]; on an empty vector
    these are no iterators, and the call fails. *)
Record Outcome : Type := mkOutcome {
  out_CRs : list Footprint;
  out_state : State;
  out_nextra : Z;
  out_passes : list Z
}.

Definition findCosmicRays (st0 : State) (planes : MaskPlanes)
  (psf_getValue : Z -> Z -> Q) (bkgd : Q) (policy : Policy) (keep : bool)
  : Result Outcome :=
  let e_per_dn := CR_e_per_dn policy in
  let min_sigma := CR_min_sigma policy in
  let min_e := Qtrunc (CR_min_e policy) in
  let cond3_fac := CR_cond3_fac policy in
  let cond3_fac2 := CR_cond3_fac2 policy in
  let niteration := CR_niteration policy in
  if negb (Qltb 0 e_per_dn) then Err AssertionFailure else
  let thres_h := (cond3_fac2 * psf_getValue 0%Z 1%Z)%Q in
  let thres_v := (cond3_fac2 * psf_getValue 1%Z 0%Z)%Q in
  let thres_d := (cond3_fac2 * psf_getValue 1%Z 1%Z)%Q in
  let badBit := plane_BAD planes in
  let crBit := plane_CR planes in
  let interpBit := plane_INTRP planes in
  let saturBit := plane_SAT planes in
  let badMask := Z.lor (Z.lor badBit interpBit) saturBit in
  let X0 := getX0 (st_mimage st0) in
  let Y0 := getY0 (st_mimage st0) in
  (* the pixel-by-pixel sweep *)
  let st := initial_sweep E st0 (Qtrunc min_sigma) thres_h thres_v thres_d
              bkgd e_per_dn cond3_fac badMask in
  (* merge the pixels into spans *)
  do scanned <-
    match st_crpixels st with
    | [] => Ok (st, mkSpanScan 0 [0] (-1) (-1) (-1) [] [])
    | _ :: _ =>
        let st := push_CRPixel st 0 (-1) 0 (-1) in
        match st_crpixels st with
        | [] => Ok (st, mkSpanScan 0 [0] (-1) (-1) (-1) [] [])
        | crp :: rest =>
            do ss <- span_scan crp rest
                       (mkSpanScan 0 [0] (-1) (-1) (-1) [] []);
            Ok (mkState (st_mimage st) (ss_seen ss) (st_i st) (st_rand st),
                ss)
        end
    end;
  let '(st, ss) := scanned in
  do aliases <- touch_outer (ss_spans ss) (ss_aliases ss);
  do spans <- resolve_spans aliases (ss_spans ss);
  let spans := sort_by IdSpanCompar spans in
  let CRs :=
    match spans with
    | [] => []
    | sp :: _ => build_footprints X0 Y0 (isp_id sp) [] spans []
    end in
  (* reinstate the CR pixels, apply condition #1 *)
  let st := with_mimage st (reinstate (st_mimage st) (st_crpixels st)) in
  let CRs := condition_1 (st_mimage st) bkgd min_e e_per_dn CRs in
  (* remove the initial list of CRs *)
  let debias_values := true in
  do st <- removeCR E st CRs bkgd crBit saturBit badMask debias_values false;
  (* look around each CR for more *)
  do grown <-
    growth_iterations
      (growth_pass E interpBit (Qtrunc (min_sigma / 2)) thres_h thres_v
         thres_d bkgd e_per_dn keep)
      niteration (CRs, st);
  let '(CRs, st, nextra, passes) := grown in
  let st := with_mimage st (setMaskFromFootprintList (st_mimage st) CRs crBit) in
  if keep then
    match st_crpixels st with
    | [] => Err OutOfRange
    | _ :: _ =>
        let crpixels :=
          sort_by (fun a b => crp_i a <? crp_i b)
            (removelast (st_crpixels st))
          ++ [last (st_crpixels st) (mkCRPixel (-1) 0 (-1) 0 0)] in
        let mi :=
          fold_left
            (fun m crp => set_image m (crp_col crp) (crp_row crp) (crp_val crp))
            (rev (removelast crpixels)) (st_mimage st) in
        Ok (mkOutcome CRs (mkState mi crpixels (st_i st) (st_rand st))
              nextra passes)
    end
  else
    do st <- removeCR E st CRs bkgd crBit saturBit badMask debias_values true;
    let st :=
      with_mimage st (setMaskFromFootprintList (st_mimage st) CRs crBit) in
    Ok (mkOutcome CRs st nextra passes).

End Find.


(** *** Collaborators to run the code with

    A choice of collaborators with values that floats hold exactly on
    the inputs used below. *)

(** The square root rounded down to a multiple of 2^-24; exact on the
    squares of such multiples. *)
Definition sqrt_ref (q : Q) : Q :=
  Z.sqrt (Qnum q * Zpos (Qden q) * 2 ^ 48) # (Qden q * 2 ^ 24).

(** Growth by one pixel along the rows and the columns. *)
Definition growFootprint_ref (fp : Footprint) (ngrow : Z) : Footprint :=
  flat_map
    (fun sp =>
       [mkSpan (getY sp - ngrow) (getSpanX0 sp) (getSpanX1 sp);
        mkSpan (getY sp) (getSpanX0 sp - ngrow) (getSpanX1 sp + ngrow);
        mkSpan (getY sp + ngrow) (getSpanX0 sp) (getSpanX1 sp)])
    fp.

(** The pixels of the Footprint that lie in the image and have a bit of
    [bitmask] set, one span each. *)
Definition footprintAndMask_ref (fp : Footprint) (mi : MaskedImage)
  (bitmask : Z) : option Footprint :=
  Some
    (map (fun '(x, y) => mkSpan y x x)
       (filter
          (fun '(x, y) =>
             let lx := x - getX0 mi in
             let ly := y - getY0 mi in
             in_image mi lx ly && nonzero (Z.land (mask_at mi lx ly) bitmask))
          (footprint_pixels fp))).

(** [numeric_limits<float>]: [max()] is 2^128 - 2^104 and [min()] is
    2^-126; [singlePixel] finds no value (it returns [min()]); [rand()]
    returns 2^30 and [(float)RAND_MAX] is 2^31, so that [gaussdev()] is
    1/2; the coefficients are those of the spec. *)
Definition externals_ref : Externals :=
  mkExternals sqrt_ref
    (ZtoQ (2 ^ 128 - 2 ^ 104)) (1 # (2 ^ 126))
    (fun _ => 2 ^ 30) (2 ^ 31)
    (7737 # 10000) (- 2737 # 10000) (7874 # 10000) (- 2874 # 10000)
    (5642 # 10000)
    (fun _ _ _ _ _ => 1 # (2 ^ 126))
    growFootprint_ref (fun fp => fp) footprintAndMask_ref.

(** The mask planes, as afw numbers them. *)
Definition planes_ref : MaskPlanes := mkMaskPlanes 1 8 4 2.

(** *** Scenarios *)

(** A PSF with value(0,0) = 1, value(0,1) = value(1,0) = 1/2 and
    value(1,1) = 1/4. *)
Definition psf_S1 (dx dy : Z) : Q :=
  if (dx =? 0) && (dy =? 0) then 1
  else if (dx =? 1) && (dy =? 1) then 1 # 4
  else 1 # 2.

(** The policy of S1 with [niteration] left open. *)
Definition policy_S1 (niteration : Z) : Policy :=
  mkPolicy 1 5 100 2 (1 # 2) niteration.

(** A 7x7 image of zeros with variance 1 and no mask bit set, but for
    the values listed in [hot]. *)
Definition image_7x7 (hot : list (Z * Z * Q)) : MaskedImage :=
  mkMaskedImage 0 0 7 7
    (fold_left (fun p '(x, y, v) => plane_set p x y v) hot (fun _ _ => 0%Q))
    (fun _ _ => 1%Q) (fun _ _ => 0).

Definition state_of (mi : MaskedImage) : State := mkState mi [] 0 0%nat.

(** S1: [I(3,3) = 1000]. *)
Definition image_S1 : MaskedImage := image_7x7 [(3, 3, 1000%Q)].

Definition run_S1 (keep : bool) : Result Outcome :=
  findCosmicRays externals_ref (state_of image_S1) planes_ref psf_S1 0
    (policy_S1 0) keep.


(** The image, the mask and the growth log a call leaves behind. *)
Definition image_after (r : Result Outcome) (x y : Z) : option Q :=
  match r with
  | Ok o => Some (Qred (image_at (st_mimage (out_state o)) x y))
  | Err _ => None
  end.

Definition mask_after (r : Result Outcome) (x y : Z) : option Z :=
  match r with
  | Ok o => Some (mask_at (st_mimage (out_state o)) x y)
  | Err _ => None
  end.

Definition passes_of (r : Result Outcome) : list Z :=
  match r with
  | Ok o => out_passes o
  | Err _ => []
  end.

Definition footprints_of (r : Result Outcome) : list Footprint :=
  match r with
  | Ok o => out_CRs o
  | Err _ => []
  end.

Definition Zsum (l : list Z) : Z := fold_right Z.add 0 l.

(** A hot pixel with a faint neighbour: [I(3,3) = 1000], [I(4,3) = 4]. *)
Definition image_faint : MaskedImage :=
  image_7x7 [(3, 3, 1000%Q); (4, 3, 4%Q)].

Definition run_faint (niteration : Z) (keep : bool) : Result Outcome :=
  findCosmicRays externals_ref (state_of image_faint) planes_ref psf_S1 0
    (policy_S1 niteration) keep.

(** S4 with a pixel value that is not a whole number:
    [I(3,3) = 1000.5]. *)
Definition image_half : MaskedImage := image_7x7 [(3, 3, 2001 # 2)].

Definition run_half (keep : bool) : Result Outcome :=
  findCosmicRays externals_ref (state_of image_half) planes_ref psf_S1 0
    (policy_S1 0) keep.

(** A 3x3 image around a pixel of value 100: its neighbours to the N
    and to the S are 0, the six others are 200; the variance is 1 at
    the centre and 2 around it. *)
Definition image_ridge : MaskedImage :=
  mkMaskedImage 0 0 3 3
    (fun x y => if same_pixel 1 1 x y then 100%Q
                else if x =? 1 then 0%Q else 200%Q)
    (fun x y => if same_pixel 1 1 x y then 1%Q else 2%Q)
    (fun _ _ => 0).

(** The bad-pixel mask [findCosmicRays] hands to [removeCR]. *)
Definition badMask_ref : Z :=
  Z.lor (Z.lor (plane_BAD planes_ref) (plane_INTRP planes_ref))
    (plane_SAT planes_ref).

End CR.

(* ================================================================= *)
(** ** SpatialModelPsf.cc *)

Module SpatialModelPsf.

(** An afw [Image]: [imAt im x y] is the pixel [x] of [row_begin(y)]. *)
Record Image : Type := mkImage {
  imX0 : Z;
  imY0 : Z;
  imWidth : Z;
  imHeight : Z;
  imAt : Z -> Z -> Q
}.

(** [im -= c]. *)
Definition image_minus (im : Image) (c : Q) : Image :=
  mkImage (imX0 im) (imY0 im) (imWidth im) (imHeight im)
    (fun x y => (imAt im x y - c)%Q).

(** *** createKernelFromPsfCandidates: the background of an eigen-image *)

(** "Bottom and Top borders" (SpatialModelPsf.cc:233-240): the running
    [(sum, n)]. *)
Definition border_bottom_top (im : Image) (bkg_border : Z) (acc : Q * Z)
  : Q * Z :=
  fold_left
    (fun acc i =>
       fold_left
         (fun '(sum, n) j =>
            ((sum + (imAt im j i + imAt im j (imHeight im - i - 1)))%Q, n + 2))
         (for_range 0 (imWidth im)) acc)
    (for_range 0 bkg_border) acc.

(** "Left and Right borders" (SpatialModelPsf.cc:241-249): [ptrL] walks
    along row [i]; [ptrR] is [im.row_begin(im.getWidth() - i - 1)] and
    does not move. *)
Definition border_left_right (im : Image) (bkg_border : Z) (acc : Q * Z)
  : Q * Z :=
  fold_left
    (fun acc i =>
       fold_left
         (fun '(sum, n) j =>
            ((sum + (imAt im j i + imAt im 0 (imWidth im - i - 1)))%Q, n + 2))
         (for_range 0 bkg_border) acc)
    (for_range bkg_border (imHeight im - bkg_border)) acc.

(** [min(bkg_border, width, height)], as the two [if]s compute it
    (SpatialModelPsf.cc:223-228). *)
Definition clip_border (bkg_border : Z) (im : Image) : Z :=
  let b := if bkg_border >? imWidth im then imWidth im else bkg_border in
  if b >? imHeight im then imHeight im else b.

(** One turn of the loop over the kept eigen-images
    (SpatialModelPsf.cc:220-253): the border width it leaves in
    [bkg_border], and the value it subtracts from the image. *)
Definition background_level (bkg_border : Z) (im : Image) : Z * Q :=
  let b := clip_border bkg_border im in
  let acc := border_bottom_top im b (0%Q, 0) in
  let '(sum, n) := border_left_right im b acc in
  (b, (sum / ZtoQ (2 * (b * imWidth im + b * (imHeight im - 2 * b))))%Q).

(** The spec's reading of the same quantity: the pixels of the frame of
    width [b = min(2, width, height)] around the image (the bottom and
    top rows, and the left and right columns between them), and their
    arithmetic mean. *)
Definition in_frame (im : Image) (b : Z) (x y : Z) : bool :=
  (x <? b) || (imWidth im - b <=? x) || (y <? b) || (imHeight im - b <=? y).

Definition frame_pixels (im : Image) (b : Z) : list (Z * Z) :=
  filter (fun '(x, y) => in_frame im b x y)
    (flat_map (fun y => map (fun x => (x, y)) (for_range 0 (imWidth im)))
       (for_range 0 (imHeight im))).

Definition frame_mean (im : Image) : Q :=
  let b := Z.min 2 (Z.min (imWidth im) (imHeight im)) in
  let px := frame_pixels im b in
  (fold_left (fun sum '(x, y) => sum + imAt im x y) px 0
   / ZtoQ (Z.of_nat (length px)))%Q.

(** *** Kernels *)

(** The kernels of a [LinearCombinationKernel] made here are
    [FixedKernel]s; [kernelList] holds their images. *)
Inductive Kernel : Type :=
| FixedKernel (im : Image)
| LinearCombinationKernel (kernelList : list Image)
    (spatialParameters : list (list Q))
| AnyOtherKernel (nKernelParameters nSpatialParameters : Z)
    (spatialParameters : list (list Q)).

Definition getNKernelParameters (k : Kernel) : Z :=
  match k with
  | FixedKernel _ => 0
  | LinearCombinationKernel ks _ => Z.of_nat (length ks)
  | AnyOtherKernel n _ _ => n
  end.

Definition getNSpatialParameters (k : Kernel) : Z :=
  match k with
  | FixedKernel _ => 0
  | LinearCombinationKernel _ [] => 0
  | LinearCombinationKernel _ (p :: _) => Z.of_nat (length p)
  | AnyOtherKernel _ n _ => n
  end.

Definition getSpatialParameters (k : Kernel) : list (list Q) :=
  match k with
  | FixedKernel _ => []
  | LinearCombinationKernel _ ps => ps
  | AnyOtherKernel _ _ ps => ps
  end.

(** [Kernel::setSpatialParameters(kCoeffs)]. *)
Definition Kernel_setSpatialParameters (k : Kernel) (kCoeffs : list (list Q))
  : Kernel :=
  match k with
  | FixedKernel im => FixedKernel im
  | LinearCombinationKernel ks _ => LinearCombinationKernel ks kCoeffs
  | AnyOtherKernel n m _ => AnyOtherKernel n m kCoeffs
  end.

(** Modelled from the spec: afw's [PolynomialFunction2<double>(order)], a
    2-D polynomial whose number of coefficients is determined by the
    order, all of them 0 when it is made. *)
Definition PolynomialFunction2 (order : Z) : list Q :=
  repeat 0%Q (Z.to_nat ((order + 1) * (order + 2) / 2)).

(** [f->setParameter(ind, value)]. *)
Definition setParameter (f : list Q) (ind : Z) (value : Q) : list Q :=
  list_set f (Z.to_nat ind) value.

(** *** createKernelFromPsfCandidates

    The candidates are gathered and analysed by afw's [ImagePca]; the
    function is embedded from there on: [eigenImages] and [eigenValues]
    are what [imagePca.getEigenImages()] and [getEigenValues()] return. *)

Definition ncomp_of (nEigenComponents nEigen : Z) : Z :=
  if (nEigenComponents <=? 0) || (nEigen <? nEigenComponents)
  then nEigen else nEigenComponents.

(** The loop that sets the background of the first [ncomp] components
    to 0; [bkg_border] lives across its turns. *)
Fixpoint subtract_backgrounds (ncomp : nat) (bkg_border : Z)
  (eigenImages : list Image) : Result (list Image) :=
  match ncomp with
  | O => Ok eigenImages
  | S ncomp' =>
      match eigenImages with
      | [] => Err OutOfRange
      | im :: rest =>
          let '(b, sum) := background_level bkg_border im in
          do rest' <- subtract_backgrounds ncomp' b rest;
          Ok (image_minus im sum :: rest')
      end
  end.

(** The loop that builds [kernelList] and [spatialFunctionList]
    (SpatialModelPsf.cc:261-269). *)
Fixpoint build_lists (ncomp : nat) (spatialOrder : Z)
  (eigenImages : list Image) : Result (list Image * list (list Q)) :=
  match ncomp with
  | O => Ok ([], [])
  | S ncomp' =>
      match eigenImages with
      | [] => Err OutOfRange
      | im :: rest =>
          let spatialFunction :=
            setParameter (PolynomialFunction2 spatialOrder) 0 1 in
          do lists <- build_lists ncomp' spatialOrder rest;
          Ok (im :: fst lists, spatialFunction :: snd lists)
      end
  end.

Definition createKernelFromPsfCandidates (eigenImages : list Image)
  (eigenValues : list Q) (nEigenComponents spatialOrder : Z)
  : Result (Kernel * list Q) :=
  let nEigen := Z.of_nat (length eigenValues) in
  let ncomp := Z.to_nat (ncomp_of nEigenComponents nEigen) in
  do eigenImages <- subtract_backgrounds ncomp 2 eigenImages;
  do lists <- build_lists ncomp spatialOrder eigenImages;
  Ok (LinearCombinationKernel (fst lists) (snd lists), eigenValues).

(** The spatial functions of the kernel that was made. *)
Definition spatial_functions (r : Result (Kernel * list Q))
  : list (list Q) :=
  match r with
  | Ok (k, _) => getSpatialParameters k
  | Err _ => []
  end.

(** *** fitKernel *)

(** The three sums of [fitKernel] (SpatialModelPsf.cc:307-322), pixel
    by pixel. *)
Definition fitKernel_step (mImage : Image) (data : MaskedImage)
  (sums : Q * Q * Q) (xy : Z * Z) : Q * Q * Q :=
  let '(sumMM, sumMD, sumDD) := sums in
  let '(x, y) := xy in
  let m := imAt mImage x y in
  let d := image_at data x y in
  let var := variance_at data x y in
  if negb (Qeq_bool var 0) then
    let iVar := (1 / var)%Q in
    ((sumMM + m * m * iVar)%Q, (sumMD + m * d * iVar)%Q,
     (sumDD + d * d * iVar)%Q)
  else sums.

Definition fitKernel_sums (mImage : Image) (data : MaskedImage) : Q * Q * Q :=
  fold_left
    (fun sums y =>
       fold_left (fun sums x => fitKernel_step mImage data sums (x, y))
         (for_range 0 (getWidth data)) sums)
    (for_range 0 (getHeight data)) (0%Q, 0%Q, 0%Q).

Definition same_dimensions (mImage : Image) (data : MaskedImage) : bool :=
  (getWidth data =? imWidth mImage) && (getHeight data =? imHeight mImage).

(** [fitKernel(mImage, data, id)] (SpatialModelPsf.cc:298-355):
    [(chi2, amp)]. *)
Definition fitKernel (mImage : Image) (data : MaskedImage)
  : Result (Q * Q) :=
  if negb (same_dimensions mImage data) then Err AssertionFailure else
  let '(sumMM, sumMD, sumDD) := fitKernel_sums mImage data in
  if Qeq_bool sumMM 0 then Err RangeErrorException
  else
    let amp := (sumMD / sumMM)%Q in
    let chi2 := (sumDD - 2 * amp * sumMD + amp * amp * sumMM)%Q in
    Ok (chi2, amp).

(** The pixels of [data] in the order of the loops, and the sums taken
    over a list of pixels with no test of the variance: what "the pixels
    of variance 0 are skipped" is measured against. *)
Definition data_pixels (data : MaskedImage) : list (Z * Z) :=
  flat_map (fun y => map (fun x => (x, y)) (for_range 0 (getWidth data)))
    (for_range 0 (getHeight data)).

Definition weighted_sums (mImage : Image) (data : MaskedImage)
  (pixels : list (Z * Z)) : Q * Q * Q :=
  fold_left
    (fun '(sumMM, sumMD, sumDD) '(x, y) =>
       let m := imAt mImage x y in
       let d := image_at data x y in
       let iVar := (1 / variance_at data x y)%Q in
       ((sumMM + m * m * iVar)%Q, (sumMD + m * d * iVar)%Q,
        (sumDD + d * d * iVar)%Q))
    pixels (0%Q, 0%Q, 0%Q).

Definition has_variance (data : MaskedImage) (xy : Z * Z) : bool :=
  negb (Qeq_bool (variance_at data (fst xy) (snd xy)) 0).


(** *** PsfCandidate *)

Record PsfCandidate : Type := mkPsfCandidate {
  parentImage : MaskedImage;
  getXCenter : Q;
  getYCenter : Q;
  source_Id : Z;
  source_XAstrom : Q;
  source_YAstrom : Q;
  getVar : Q;
  getChi2 : Q;
  getAmplitude : Q
}.

Definition setChi2 (c : PsfCandidate) (chi2 : Q) : PsfCandidate :=
  mkPsfCandidate (parentImage c) (getXCenter c) (getYCenter c) (source_Id c)
    (source_XAstrom c) (source_YAstrom c) (getVar c) chi2 (getAmplitude c).

Definition setAmplitude (c : PsfCandidate) (amp : Q) : PsfCandidate :=
  mkPsfCandidate (parentImage c) (getXCenter c) (getYCenter c) (source_Id c)
    (source_XAstrom c) (source_YAstrom c) (getVar c) (getChi2 c) amp.

(** The static members of [PsfCandidate]. *)
Record Statics : Type := mkStatics {
  static_width : Z;
  static_height : Z;
  static_border : Z
}.

(** afw's [positionToIndex]: the index of the pixel a position lies in. *)
Definition positionToIndex (pos : Q) : Z :=
  let q := (pos + (1 # 2))%Q in
  Z.div (Qnum q) (Zpos (Qden q)).

(** [PsfCandidate::getImage()] (SpatialModelPsf.cc:67-94): a copy of
    the stamp around the centre; afw throws [LengthErrorException] when
    the stamp is not inside the parent. *)
Definition getImage (statics : Statics) (c : PsfCandidate)
  : Result MaskedImage :=
  let width := if static_width statics =? 0 then 15
               else static_width statics in
  let height := if static_height statics =? 0 then 15
                else static_height statics in
  let llc_x := positionToIndex (getXCenter c) - Z.quot width 2 in
  let llc_y := positionToIndex (getYCenter c) - Z.quot height 2 in
  let parent := parentImage c in
  let bx := llc_x - getX0 parent in
  let by_ := llc_y - getY0 parent in
  if (0 <=? bx) && (0 <=? by_) && (bx + width <=? getWidth parent) &&
     (by_ + height <=? getHeight parent)
  then
    Ok (mkMaskedImage llc_x llc_y width height
          (fun x y => image_at parent (x + bx) (y + by_))
          (fun x y => variance_at parent (x + bx) (y + by_))
          (fun x y => mask_at parent (x + bx) (y + by_)))
  else Err LengthErrorException.

Definition SpatialCellSet : Type := list (list PsfCandidate).

(** A visitor is its state [V], its [reset()] and its
    [processCandidate], which may change the candidate. *)
Record Visitor (V : Type) : Type := mkVisitor {
  reset : V -> V;
  processCandidate : V -> PsfCandidate -> Result (V * PsfCandidate)
}.
Arguments mkVisitor {V} reset processCandidate.
Arguments reset {V} v.
Arguments processCandidate {V} v.

(** A dense matrix and a dense vector of Eigen, by index. *)
Definition MatrixXd : Type := Z -> Z -> Q.
Definition VectorXd : Type := Z -> Q.

Record Externals : Type := mkExternals {
  (** [kernel.computeImage(image, doNormalize, x, y)] *)
  computeImage : Kernel -> bool -> Q -> Q -> Image;
  (** [afwImage::innerProduct(lhs, rhs, border)] *)
  innerProduct : Image -> Image -> Z -> Q;
  (** [kernel.getSpatialFunction(ic)->getDFuncDParameters(x, y)] *)
  getDFuncDParameters : Kernel -> Z -> Q -> Q -> list Q;
  (** [A.ldlt().solve(b, &x)] on a system of [n] equations: whether it
      succeeded, and what it left in [x] *)
  ldlt_solve : Z -> MatrixXd -> VectorXd -> bool * VectorXd;
  (** Minuit's [migrad(maxFnCalls, tolerance)] on a cost function, from
      the start values with the first parameter fixed: [IsValid()],
      [Fval()] when it is finite, and the values of the user state *)
  migrad : (list Q -> Result Q) -> list Q -> Q ->
           Result (bool * option Q * list Q);
  (** [SpatialCellSet::visitCandidates(visitor, nMaxPerCell,
      ignoreExceptions)] and [visitAllCandidates(visitor,
      ignoreExceptions)] *)
  visitCandidates :
    forall V : Type, Visitor V -> SpatialCellSet -> Z -> bool -> V ->
                     Result (V * SpatialCellSet);
  visitAllCandidates :
    forall V : Type, Visitor V -> SpatialCellSet -> bool -> V ->
                     Result (V * SpatialCellSet)
}.

Definition data_image (data : MaskedImage) : Image :=
  mkImage (getX0 data) (getY0 data) (getWidth data) (getHeight data)
    (image_at data).

Section Fit.
Variable E : Externals.
Variable statics : Statics.

(** *** evalChi2Visitor (SpatialModelPsf.cc:363-424): its state is
    [_chi2] *)

Definition evalChi2_processCandidate (kernel : Kernel) (chi2 : Q)
  (c : PsfCandidate) : Result (Q * PsfCandidate) :=
  let kImage :=
    computeImage E kernel true (source_XAstrom c) (source_YAstrom c) in
  match getImage statics c with
  | Err LengthErrorException => Ok (chi2, c)
  | Err e => Err e
  | Ok data =>
      do result <- fitKernel kImage data;
      let dchi2 := fst result in
      let amp := snd result in
      Ok ((chi2 + dchi2)%Q, setAmplitude (setChi2 c dchi2) amp)
  end.

Definition evalChi2Visitor (kernel : Kernel) : Visitor Q :=
  mkVisitor (fun _ => 0%Q) (evalChi2_processCandidate kernel).

(** *** setSpatialParameters (SpatialModelPsf.cc:431-475) *)

(** The coefficients [i*nSpatialParams .. (i+1)*nSpatialParams - 1]. *)
Definition chunk (coeffs : Z -> Q) (nSpatialParams : Z) (i : Z) : list Q :=
  map (fun j => coeffs (i * nSpatialParams + j)) (for_range 0 nSpatialParams).

(** From an [Eigen::VectorXd] of [size] coefficients. *)
Definition setSpatialParameters_vec (kernel : Kernel) (size : Z)
  (vec : VectorXd) : Result Kernel :=
  let nComponents := getNKernelParameters kernel in
  let nSpatialParams := getNSpatialParameters kernel in
  if negb (nComponents * nSpatialParams =? size) then Err AssertionFailure
  else
    Ok (Kernel_setSpatialParameters kernel
          (map (chunk vec nSpatialParams) (for_range 0 nComponents))).

(** From a [std::vector<double>]. *)
Definition setSpatialParameters (kernel : Kernel) (coeffs : list Q)
  : Result Kernel :=
  setSpatialParameters_vec kernel (Z.of_nat (length coeffs))
    (fun i => nth (Z.to_nat i) coeffs 0%Q).

(** *** FillABVisitor (SpatialModelPsf.cc:626-737): its state is [_A]
    and [_b] *)

Definition basisImgs (kernelList : list Image) : list Image :=
  map (fun k => computeImage E (FixedKernel k) true 0%Q 0%Q) kernelList.

Definition basisDotBasis (kernelList : list Image) (i j : Z) : Q :=
  let imgs := basisImgs kernelList in
  let dflt := mkImage 0 0 0 0 (fun _ _ => 0%Q) in
  innerProduct E (nth (Z.to_nat i) imgs dflt) (nth (Z.to_nat j) imgs dflt)
    (static_border statics).

Definition vec_add (b : VectorXd) (i : Z) (v : Q) : VectorXd :=
  fun i' => if i' =? i then (b i' + v)%Q else b i'.

(** [_A(i, j) += v; _A(j, i) = _A(i, j);] *)
Definition mat_add_sym (A : MatrixXd) (i j : Z) (v : Q) : MatrixXd :=
  let a := (A i j + v)%Q in
  fun i' j' =>
    if (i' =? j) && (j' =? i) then a
    else if (i' =? i) && (j' =? j) then a
    else A i' j'.

Definition FillAB_processCandidate (kernel : Kernel)
  (kernelList : list Image) (tau2 : Q) (Ab : MatrixXd * VectorXd)
  (c : PsfCandidate) : Result ((MatrixXd * VectorXd) * PsfCandidate) :=
  let nSpatialParams := getNSpatialParameters kernel in
  let nComponents := getNKernelParameters kernel in
  match getImage statics c with
  | Err LengthErrorException => Ok (Ab, c)
  | Err e => Err e
  | Ok data =>
      let amp := getAmplitude c in
      let var := getVar c in
      let ivar := (1 / (var + tau2))%Q in
      let params ic :=
        getDFuncDParameters E kernel ic (getXCenter c) (getYCenter c) in
      let param ic is_ := nth (Z.to_nat is_) (params ic) 0%Q in
      let imgs := basisImgs kernelList in
      let dflt := mkImage 0 0 0 0 (fun _ _ => 0%Q) in
      let '(A, b, _) :=
        fold_left
          (fun '(A, b, i) ic =>
             let basisDotData :=
               innerProduct E (nth (Z.to_nat ic) imgs dflt) (data_image data)
                 (static_border statics) in
             fold_left
               (fun '(A, b, i) is_ =>
                  let b :=
                    vec_add b i (ivar * param ic is_ * basisDotData / amp)%Q in
                  let '(A, _) :=
                    fold_left
                      (fun '(A, j) jc =>
                         fold_left
                           (fun '(A, j) js =>
                              (mat_add_sym A i j
                                 (ivar * param ic is_ * param jc js
                                  * basisDotBasis kernelList ic jc)%Q,
                               j + 1))
                           (for_range (if i =? j then is_ else 0)
                              nSpatialParams)
                           (A, j))
                      (for_range ic nComponents) (A, i) in
                  (A, b, i + 1))
               (for_range 0 nSpatialParams) (A, b, i))
          (for_range 0 nComponents) (fst Ab, snd Ab, 0) in
      Ok ((A, b), c)
  end.

Definition FillABVisitor (kernel : Kernel) (kernelList : list Image)
  (tau2 : Q) : Visitor (MatrixXd * VectorXd) :=
  mkVisitor (fun Ab => Ab) (FillAB_processCandidate kernel kernelList tau2).

(** *** fitSpatialKernelFromPsfCandidates, the non-linear fitter
    (SpatialModelPsf.cc:530-618)

    The result is [(isValid, minChi2)], with the kernel and the
    candidates as the call leaves them; [minChi2] is [None] when it is
    not finite. *)
Definition fitSpatialKernelFromPsfCandidates_nonlinear (kernel : Kernel)
  (psfCells : SpatialCellSet) (nStarPerCell : Z) (tolerance : Q)
  : Result ((bool * option Q) * Kernel * SpatialCellSet) :=
  let nComponents := getNKernelParameters kernel in
  let nSpatialParams := getNSpatialParameters kernel in
  let coeffs :=
    flat_map
      (fun c => map (fun s => if s =? 0 then 1%Q else 0%Q)
                  (for_range 0 nSpatialParams))
      (for_range 0 nComponents) in
  let minimizerFunc (coeffs : list Q) : Result Q :=
    do k <- setSpatialParameters kernel coeffs;
    do visited <-
      visitCandidates E Q (evalChi2Visitor k) psfCells nStarPerCell false 0%Q;
    Ok (fst visited) in
  let errorDef := 1%Q in
  do min <- migrad E minimizerFunc coeffs
              (tolerance / ((1 # 10000) * errorDef))%Q;
  let '(valid, fval, values) := min in
  let isValid :=
    valid && match fval with Some _ => true | None => false end in
  do kernel' <- setSpatialParameters kernel values;
  do visited <-
    visitAllCandidates E Q (evalChi2Visitor kernel') psfCells true 0%Q;
  Ok ((isValid, fval), kernel', snd visited).

(** *** fitSpatialKernelFromPsfCandidates (SpatialModelPsf.cc:758-816) *)
Definition fitSpatialKernelFromPsfCandidates (kernel : Kernel)
  (psfCells : SpatialCellSet) (doNonLinearFit : bool) (nStarPerCell : Z)
  (tolerance : Q) : Result ((bool * option Q) * Kernel * SpatialCellSet) :=
  if doNonLinearFit then
    fitSpatialKernelFromPsfCandidates_nonlinear kernel psfCells nStarPerCell
      tolerance
  else
    let tau := 0%Q in
    match kernel with
    | LinearCombinationKernel kernelList _ =>
        let size :=
          getNKernelParameters kernel * getNSpatialParameters kernel in
        do filled <-
          visitCandidates E (MatrixXd * VectorXd)
            (FillABVisitor kernel kernelList tau) psfCells nStarPerCell true
            (fun _ _ => 0%Q, fun _ => 0%Q);
        let '((A, b), psfCells) := filled in
        if negb (size >? 1) then Err AssertionFailure else
        let '(solved, x) := ldlt_solve E size A b in
        do kernel' <- setSpatialParameters_vec kernel size x;
        do visited <-
          visitAllCandidates E Q (evalChi2Visitor kernel') psfCells true 0%Q;
        Ok ((true, Some (fst visited)), kernel', snd visited)
    | _ => Err LogicErrorException
    end.

End Fit.


(** *** Collaborators to run the code with *)

Definition image_sum (im : Image) : Q :=
  fold_left
    (fun sum y =>
       fold_left (fun sum x => (sum + imAt im x y)%Q)
         (for_range 0 (imWidth im)) sum)
    (for_range 0 (imHeight im)) 0%Q.

Definition image_scale (im : Image) (c : Q) : Image :=
  mkImage (imX0 im) (imY0 im) (imWidth im) (imHeight im)
    (fun x y => (c * imAt im x y)%Q).

Definition image_add (a b : Image) : Image :=
  mkImage (imX0 a) (imY0 a) (imWidth a) (imHeight a)
    (fun x y => (imAt a x y + imAt b x y)%Q).

Definition normalized (doNormalize : bool) (im : Image) : Image :=
  if doNormalize then image_scale im (1 / image_sum im)%Q else im.

(** The monomials of a 2-D polynomial by rising degree:
    1, x, y, x^2, xy, y^2, ... *)
Definition monomials (n : nat) (x y : Q) : list Q :=
  firstn n
    (flat_map
       (fun d =>
          map (fun k => (x ^ (Z.of_nat d - Z.of_nat k) * y ^ Z.of_nat k)%Q)
            (seq 0 (S d)))
       (seq 0 n)).

Definition polynomial_value (params : list Q) (x y : Q) : Q :=
  fold_left Qplus
    (map (fun pm => (fst pm * snd pm)%Q)
       (combine params (monomials (length params) x y)))
    0%Q.

(** The image of a kernel: the basis images weighted by their spatial
    functions. *)
Definition computeImage_ref (kernel : Kernel) (doNormalize : bool) (x y : Q)
  : Image :=
  match kernel with
  | FixedKernel im => normalized doNormalize im
  | LinearCombinationKernel kernelList params =>
      match kernelList with
      | [] => mkImage 0 0 0 0 (fun _ _ => 0%Q)
      | k0 :: _ =>
          normalized doNormalize
            (fold_left
               (fun acc kp =>
                  image_add acc
                    (image_scale (fst kp) (polynomial_value (snd kp) x y)))
               (combine kernelList params)
               (image_scale k0 0))
      end
  | AnyOtherKernel _ _ _ => mkImage 0 0 0 0 (fun _ _ => 0%Q)
  end.

Definition innerProduct_ref (lhs rhs : Image) (border : Z) : Q :=
  fold_left
    (fun sum y =>
       fold_left (fun sum x => (sum + imAt lhs x y * imAt rhs x y)%Q)
         (for_range border (imWidth lhs - border)) sum)
    (for_range border (imHeight lhs - border)) 0%Q.

Definition getDFuncDParameters_ref (kernel : Kernel) (ic : Z) (x y : Q)
  : list Q :=
  monomials (Z.to_nat (getNSpatialParameters kernel)) x y.

(** A solver that reports failure and leaves the first unit vector in
    [x]. *)
Definition ldlt_failing (n : Z) (A : MatrixXd) (b : VectorXd)
  : bool * VectorXd :=
  (false, fun i => if i =? 0 then 1%Q else 0%Q).

(** A minimizer that stays at its start values. *)
Definition migrad_ref (cost : list Q -> Result Q) (start : list Q)
  (tolerance : Q) : Result (bool * option Q * list Q) :=
  do f <- cost start; Ok (true, Some f, start).

(** A cell visits its candidates in order, at most [limit] of them; an
    exception of a candidate is dropped when [ignoreExceptions] is set. *)
Fixpoint visit_cell {V : Type} (vis : Visitor V) (limit : option nat)
  (ignoreExceptions : bool) (cands : list PsfCandidate) (v : V)
  : Result (V * list PsfCandidate) :=
  match cands with
  | [] => Ok (v, [])
  | c :: rest =>
      match limit with
      | Some O => Ok (v, cands)
      | _ =>
          do vc <-
            match processCandidate vis v c with
            | Ok vc => Ok vc
            | Err AssertionFailure => Err AssertionFailure
            | Err e => if ignoreExceptions then Ok (v, c) else Err e
            end;
          do rest' <-
            visit_cell vis (option_map Nat.pred limit) ignoreExceptions rest
              (fst vc);
          Ok (fst rest', snd vc :: snd rest')
      end
  end.

Fixpoint visit_cells {V : Type} (vis : Visitor V) (limit : option nat)
  (ignoreExceptions : bool) (cells : SpatialCellSet) (v : V)
  : Result (V * SpatialCellSet) :=
  match cells with
  | [] => Ok (v, [])
  | cell :: rest =>
      do vc <- visit_cell vis limit ignoreExceptions cell v;
      do rest' <- visit_cells vis limit ignoreExceptions rest (fst vc);
      Ok (fst rest', snd vc :: snd rest')
  end.

Definition visitCandidates_ref (V : Type) (vis : Visitor V)
  (cells : SpatialCellSet) (nMaxPerCell : Z) (ignoreExceptions : bool)
  (v : V) : Result (V * SpatialCellSet) :=
  visit_cells vis
    (if nMaxPerCell <=? 0 then None else Some (Z.to_nat nMaxPerCell))
    ignoreExceptions cells (reset vis v).

Definition visitAllCandidates_ref (V : Type) (vis : Visitor V)
  (cells : SpatialCellSet) (ignoreExceptions : bool) (v : V)
  : Result (V * SpatialCellSet) :=
  visit_cells vis None ignoreExceptions cells (reset vis v).

Definition externals_ref : Externals :=
  mkExternals computeImage_ref innerProduct_ref getDFuncDParameters_ref
    ldlt_failing migrad_ref visitCandidates_ref visitAllCandidates_ref.

(** *** Scenarios *)

(** A [w] x [h] image of zeros but for the values listed in [hot]. *)
Definition image_of (w h : Z) (hot : list (Z * Z * Q)) : Image :=
  mkImage 0 0 w h
    (fold_left (fun p '(x, y, v) => plane_set p x y v) hot (fun _ _ => 0%Q)).

(** A 5x5 eigen-image whose only non-zero pixel, 1, is in the middle of
    its right-hand column. *)
Definition eigen_right : Image := image_of 5 5 [(4, 2, 1%Q)].

(** Two 3x3 basis images, and a star of amplitude 2 that is twice the
    first of them, with variance 1. *)
Definition basis_0 : Image := image_of 3 3 [(1, 1, 1%Q)].
Definition basis_1 : Image := image_of 3 3 [(0, 0, 1%Q)].

Definition kernel_2 : Kernel :=
  LinearCombinationKernel [basis_0; basis_1] [[1%Q]; [1%Q]].

Definition star : PsfCandidate :=
  mkPsfCandidate
    (mkMaskedImage 0 0 3 3 (plane_set (fun _ _ => 0%Q) 1 1 2%Q)
       (fun _ _ => 1%Q) (fun _ _ => 0))
    1 1 7 1 1 1 0 2.

Definition statics_3 : Statics := mkStatics 3 3 0.

(** The 3x3 stamp of the star with the variance 0 at its centre. *)
Definition stamp_blind : MaskedImage :=
  mkMaskedImage 0 0 3 3 (plane_set (fun _ _ => 0%Q) 1 1 2%Q)
    (plane_set (fun _ _ => 1%Q) 1 1 0%Q) (fun _ _ => 0).

Definition fit_outcome (r : Result ((bool * option Q) * Kernel * SpatialCellSet))
  : option (bool * option Q) :=
  match r with
  | Ok (res, _, _) => Some res
  | Err _ => None
  end.


(** The basis images of the kernel that was made. *)
Definition kernel_images (r : Result (Kernel * list Q)) : list Image :=
  match r with
  | Ok (LinearCombinationKernel ks _, _) => ks
  | _ => []
  end.

(** The collaborators [E] with the success flag of the solver replaced
    by [flag]. *)
Definition with_solver_flag (E : Externals) (flag : bool) : Externals :=
  mkExternals (computeImage E) (innerProduct E) (getDFuncDParameters E)
    (fun n A b => (flag, snd (ldlt_solve E n A b)))
    (migrad E) (visitCandidates E) (visitAllCandidates E).

End SpatialModelPsf.

From Stdlib Require Import Sorted.
From Stdlib Require String.

(* ================================================================= *)
(** ** More of CR.cc *)

Module CRMore.
Import CR.

(** The position of a CRPixel, row first: the order of the scan. *)
Definition scan_lt (a b : Z * Z) : Prop :=
  snd a < snd b \/ (snd a = snd b /\ fst a < fst b).

Definition crp_pos (c : CRPixel) : Z * Z := (crp_col c, crp_row c).

(** A span of an IdSpan as [build_footprints] adds it to a Footprint. *)
Definition shifted_span (X0 Y0 : Z) (sp : IdSpan) : Span :=
  mkSpan (isp_y sp + Y0) (isp_x0 sp + X0) (isp_x1 sp + X0).


(** Every index of the alias table starts a chain that ends. *)
Definition all_chains_end (aliases : list Z) : Prop :=
  forall i, 0 <= i < Z.of_nat (length aliases) ->
            exists r, chain_ends aliases i r.

(** The ids of the spans index the alias table. *)
Definition ids_in_table (aliases : list Z) (spans : list IdSpan) : Prop :=
  Forall (fun sp => 0 <= isp_id sp < Z.of_nat (length aliases)) spans.

(** The span without its id. *)
Definition span_extent (sp : IdSpan) : Z * Z * Z :=
  (isp_y sp, isp_x0 sp, isp_x1 sp).


(** The table [0; 1; ...; n], in which every id is its own alias. *)
Definition identity_table (n : nat) : list Z :=
  map Z.of_nat (seq 0 (S n)).

(** The number of pixels in a list of spans. *)
Definition spans_width (spans : list IdSpan) : Z :=
  fold_right (fun sp n => isp_x1 sp - isp_x0 sp + 1 + n) 0 spans.

(** A vector of pixels at non-negative positions closed by a pixel in a
    negative row, as [crpixels] is once the dummy is pushed. *)
Fixpoint nonneg_then_dummy (l : list CRPixel) : Prop :=
  match l with
  | [] => False
  | c :: l' =>
      match l' with
      | [] => crp_row c < 0
      | _ :: _ => 0 <= crp_row c /\ 0 <= crp_col c /\ nonneg_then_dummy l'
      end
  end.

(** What the span loop keeps true of its variables. *)
Definition scan_inv (ss : SpanScan) : Prop :=
  0 <= ss_ncr ss /\
  ss_aliases ss = identity_table (Z.to_nat (ss_ncr ss)) /\
  Forall (fun sp => 1 <= isp_id sp <= ss_ncr ss /\ 0 <= isp_y sp /\
                    0 <= isp_x0 sp <= isp_x1 sp) (ss_spans ss).

(** The pixel [crp] is the last one of the span being gathered. *)
Definition run_open (crp : CRPixel) (ss : SpanScan) : Prop :=
  crp_id crp = ss_ncr ss /\ 1 <= ss_ncr ss /\
  ss_y ss = crp_row crp /\ ss_x1 ss = crp_col crp /\
  0 <= ss_x0 ss <= ss_x1 ss /\ 0 <= ss_y ss.

(** A CRPixel without its id. *)
Definition crp_data (c : CRPixel) : Z * Z * Q * Z :=
  (crp_col c, crp_row c, crp_val c, crp_i c).


(** The variables of the span loop as [findCosmicRays] sets them. *)
Definition scan_start : SpanScan := mkSpanScan 0 [0] (-1) (-1) (-1) [] [].

(** The Footprints [findCosmicRays] builds from the sorted spans. *)
Definition footprints_of_spans (X0 Y0 : Z) (spans : list IdSpan)
  : list Footprint :=
  match spans with
  | [] => []
  | sp :: _ => build_footprints X0 Y0 (isp_id sp) [] spans []
  end.


(** Origin, size and variance plane are the same. *)
Definition same_frame (mi mi' : MaskedImage) : Prop :=
  getX0 mi' = getX0 mi /\ getY0 mi' = getY0 mi /\
  getWidth mi' = getWidth mi /\ getHeight mi' = getHeight mi /\
  forall x y, variance_at mi' x y = variance_at mi x y.

Definition same_mask (mi mi' : MaskedImage) : Prop :=
  forall x y, mask_at mi' x y = mask_at mi x y.

(** What the sweep records of a pixel of the image [mi0]: no id, a
    position off the edge, no bit of [badMask], and the value of the
    pixel as an [int]. *)
Definition recorded_from (badMask : Z) (mi0 : MaskedImage) (c : CRPixel)
  : Prop :=
  crp_id c = -1 /\
  1 <= crp_col c <= getWidth mi0 - 2 /\
  1 <= crp_row c <= getHeight mi0 - 2 /\
  Z.land (mask_at mi0 (crp_col c) (crp_row c)) badMask = 0 /\
  crp_val c = ZtoQ (Qtrunc (image_at mi0 (crp_col c) (crp_row c))).

Definition scan_ordered (crpixels : list CRPixel) : Prop :=
  StronglySorted (fun a b => scan_lt (crp_pos a) (crp_pos b)) crpixels.

(** The state of the sweep over [mi0] when it is about to look at the
    pixel [bound]. *)
Definition sweep_inv (badMask : Z) (mi0 : MaskedImage) (bound : Z * Z)
  (st : State) : Prop :=
  same_frame mi0 (st_mimage st) /\
  same_mask mi0 (st_mimage st) /\
  Forall (fun c => recorded_from badMask mi0 c /\ scan_lt (crp_pos c) bound)
    (st_crpixels st) /\
  scan_ordered (st_crpixels st) /\
  forall x y, ~ In (x, y) (map crp_pos (st_crpixels st)) ->
              image_at (st_mimage st) x y = image_at mi0 x y.

(** Every pixel value is a whole number. *)
Definition whole_valued (mi : MaskedImage) : Prop :=
  forall x y, (ZtoQ (Qtrunc (image_at mi x y)) == image_at mi x y)%Q.


(** [mi'] is [mi] with other values in its image plane. *)
Definition image_only (mi mi' : MaskedImage) : Prop :=
  same_frame mi mi' /\ same_mask mi mi'.

(** A pixel, in parent coordinates, of one of the Footprints. *)
Definition on_pixel (x y : Z) (p : Z * Z) : bool :=
  (fst p =? x) && (snd p =? y).

Definition covers (CRs : list Footprint) (x y : Z) : bool :=
  existsb (fun fp => existsb (on_pixel x y) (footprint_pixels fp)) CRs.

(** The mask [mi] with [bitmask] set on the pixels of [CRs]. *)
Definition marked (mi : MaskedImage) (CRs : list Footprint) (bitmask : Z)
  (x y : Z) : Z :=
  if covers CRs (x + getX0 mi) (y + getY0 mi)
  then Z.lor (mask_at mi x y) bitmask
  else mask_at mi x y.

Definition outcome_of (r : Result Outcome) (st : State) : Outcome :=
  match r with
  | Ok o => o
  | Err _ => mkOutcome [] st 0 []
  end.

(** A span of one pixel, in row [row] and a column from [lo] to [hi]. *)
Definition single_pixel_in (row lo hi : Z) (sp : Span) : Prop :=
  getY sp = row /\ getSpanX0 sp = getSpanX1 sp /\ lo <= getSpanX0 sp <= hi.

Definition state_after (r : Result State) (st : State) : State :=
  match r with
  | Ok st' => st'
  | Err _ => st
  end.

(** The sweep of S1, with the thresholds [findCosmicRays] derives from
    [psf_S1] and [policy_S1]. *)
Definition sweep_S1 : State :=
  initial_sweep externals_ref (state_of image_S1) 5 1 1 (1 # 2) 0 1 2
    badMask_ref.

End CRMore.

(* ================================================================= *)
(** ** More of SpatialModelPsf.cc *)

Module SpatialMore.
Import SpatialModelPsf.

(** The square of what is left of the pixel [xy] of [data] once [a]
    times the model is taken off, over the variance of the pixel. *)
Definition residual (mImage : Image) (data : MaskedImage) (a : Q)
  (xy : Z * Z) : Q :=
  let m := imAt mImage (fst xy) (snd xy) in
  let d := image_at data (fst xy) (snd xy) in
  ((d - a * m) * (d - a * m) / variance_at data (fst xy) (snd xy))%Q.

(** The sum of the residuals over the pixels whose variance is not 0. *)
Definition chi2_of (mImage : Image) (data : MaskedImage) (a : Q) : Q :=
  fold_left (fun s xy => (s + residual mImage data a xy)%Q)
    (filter (has_variance data) (data_pixels data)) 0%Q.

(** [k] is [im] with a constant taken off every pixel. *)
Definition shifted_by_constant (k im : Image) : Prop :=
  exists c, k = image_minus im c.

(** Every pixel of [im] has the value [c]. *)
Definition flat (im : Image) (c : Q) : Prop :=
  forall x y, (imAt im x y == c)%Q.

Definition symmetric (A : MatrixXd) : Prop := forall i j, A i j = A j i.

(** *** subtractPsf (SpatialModelPsf.cc:822-863)

    [kImage] is the image [psf.computeImage] returns.  The sub-image of
    [data] under it is a shallow copy: what is taken off it is taken off
    [data].  afw throws [LengthErrorException] when the sub-image is not
    inside [data].  The result is the chi^2 and [data] as it is left. *)
Definition in_box (bx by_ width height x y : Z) : bool :=
  (bx <=? x) && (x <? bx + width) && (by_ <=? y) && (y <? by_ + height).

Definition subtractPsf (kImage : Image) (data : MaskedImage)
  : Result (Q * MaskedImage) :=
  let width := imWidth kImage in
  let height := imHeight kImage in
  let bx := imX0 kImage - getX0 data in
  let by_ := imY0 kImage - getY0 data in
  if (0 <=? bx) && (0 <=? by_) && (bx + width <=? getWidth data) &&
     (by_ + height <=? getHeight data)
  then
    let subData :=
      mkMaskedImage (getX0 data + bx) (getY0 data + by_) width height
        (fun x y => image_at data (x + bx) (y + by_))
        (fun x y => variance_at data (x + bx) (y + by_))
        (fun x y => mask_at data (x + bx) (y + by_)) in
    do result <- fitKernel kImage subData;
    let amp := snd result in
    Ok (fst result,
        mkMaskedImage (getX0 data) (getY0 data) (getWidth data)
          (getHeight data)
          (fun x y =>
             if in_box bx by_ width height x y
             then (image_at data x y - amp * imAt kImage (x - bx) (y - by_))%Q
             else image_at data x y)
          (variance_at data) (mask_at data))
  else Err LengthErrorException.

(** [data] is [a] times the model on every pixel whose variance is not
    0. *)
Definition multiple_of_model (mImage : Image) (data : MaskedImage) (a : Q)
  : Prop :=
  forall xy, In xy (data_pixels data) -> has_variance data xy = true ->
             (image_at data (fst xy) (snd xy)
              == a * imAt mImage (fst xy) (snd xy))%Q.

Definition subtracted (r : Result (Q * MaskedImage)) (data : MaskedImage)
  : Q * MaskedImage :=
  match r with
  | Ok x => x
  | Err _ => (0%Q, data)
  end.

(** An image of 5x5 pixels, of variance 1, that holds 3 times [basis_0]
    in the 3x3 box whose corner is at (1, 1). *)
Definition field_5x5 : MaskedImage :=
  mkMaskedImage 0 0 5 5 (plane_set (fun _ _ => 0%Q) 2 2 3%Q)
    (fun _ _ => 1%Q) (fun _ _ => 0).

Definition basis_at_1_1 : Image :=
  mkImage 1 1 3 3 (imAt basis_0).

Definition filled (r : Result ((MatrixXd * VectorXd) * PsfCandidate))
  (c : PsfCandidate) : (MatrixXd * VectorXd) * PsfCandidate :=
  match r with
  | Ok x => x
  | Err _ => ((fun _ _ => 0%Q, fun _ => 0%Q), c)
  end.

(** The visit of [star] by a [FillABVisitor] that starts from zeros. *)
Definition fill_star : Result ((MatrixXd * VectorXd) * PsfCandidate) :=
  FillAB_processCandidate externals_ref statics_3 kernel_2
    [basis_0; basis_1] 0 (fun _ _ => 0%Q, fun _ => 0%Q) star.

Definition stamp_of (r : Result MaskedImage) (mi : MaskedImage)
  : MaskedImage :=
  match r with
  | Ok stamp => stamp
  | Err _ => mi
  end.

(** The size of the stamps: 15 where the static member is 0. *)
Definition stamp_width (statics : Statics) : Z :=
  if static_width statics =? 0 then 15 else static_width statics.

Definition stamp_height (statics : Statics) : Z :=
  if static_height statics =? 0 then 15 else static_height statics.

Definition flat_5x5 : Image := mkImage 0 0 5 5 (fun _ _ => 3%Q).

Definition kernel_of (r : Result Kernel) (k : Kernel) : Kernel :=
  match r with
  | Ok k' => k'
  | Err _ => k
  end.

Definition fit_result (r : Result (Q * Q)) : Q * Q :=
  match r with
  | Ok p => p
  | Err _ => (0%Q, 0%Q)
  end.

(** A 3x3 stamp with the value 2 at its centre and 1 in a corner, with
    the variance 1. *)
Definition stamp_corner : MaskedImage :=
  mkMaskedImage 0 0 3 3
    (plane_set (plane_set (fun _ _ => 0%Q) 1 1 2%Q) 0 0 1%Q)
    (fun _ _ => 1%Q) (fun _ _ => 0).

End SpatialMore.

(* ================================================================= *)
(** ** PSF.cc *)

Module PSF.
Import SpatialModelPsf.

(** The exceptions of [pex::exceptions] thrown in [PSF.cc] and
    [dgPSF.cc]. *)
Inductive Exception : Type :=
| NotFoundException
| InvalidParameterException
| DomainErrorException.

Inductive Try (A : Type) : Type :=
| Value (a : A)
| Throw (e : Exception).
Arguments Value {A} a.
Arguments Throw {A} e.

(** *** The registry of factories

    [psfRegistry], the static [std::map] of [PSF::_registry], from the
    names to the factories; a factory pointer that may be null is an
    [option]. *)
Section Registry.
Context {Factory : Type}.

Definition Registry : Type := String.string -> option Factory.

Definition empty_registry : Registry := fun _ => None.

(** [psfRegistry[name] = factory]. *)
Definition registry_set (reg : Registry) (name : String.string)
  (factory : Factory) : Registry :=
  fun name' => if String.eqb name' name then Some factory else reg name'.

(** [PSF::_registry(name, factory)] (PSF.cc:84-106): the registry as it
    is left, and the factory returned. *)
Definition _registry (reg : Registry) (name : String.string)
  (factory : option Factory) : Try (Registry * Factory) :=
  match reg name with
  | None =>
      match factory with
      | Some f => Value (registry_set reg name f, f)
      | None => Throw NotFoundException
      end
  | Some el =>
      match factory with
      | None => Value (reg, el)
      | Some _ => Throw InvalidParameterException
      end
  end.

(** [PSF::declare(name, factory)] (PSF.cc:113-117). *)
Definition declare (reg : Registry) (name : String.string)
  (factory : option Factory) : Try Registry :=
  match _registry reg name factory with
  | Value (reg', _) => Value reg'
  | Throw e => Throw e
  end.

(** [PSF::lookup(name)] (PSF.cc:124-127). *)
Definition lookup (reg : Registry) (name : String.string) : Try Factory :=
  match _registry reg name None with
  | Value (_, f) => Value f
  | Throw e => Throw e
  end.

End Registry.

(** *** PsfAttributes

    [_psfImage] is an [Image<double>]. *)

(** The two sums of [computeEffectiveArea] (PSF.cc:283-295). *)
Definition area_sums (psfImage : Image) : Q * Q :=
  fold_left
    (fun acc iY =>
       fold_left
         (fun '(sum, sumsqr) iX =>
            let v := imAt psfImage iX iY in
            ((sum + v)%Q, (sumsqr + v * v)%Q))
         (for_range 0 (imWidth psfImage)) acc)
    (for_range 0 (imHeight psfImage)) (0%Q, 0%Q).

(** [sum*sum/sumsqr]; a quotient by 0 is no finite number: [None]. *)
Definition computeEffectiveArea (psfImage : Image) : option Q :=
  let '(sum, sumsqr) := area_sums psfImage in
  if Qeq_bool sumsqr 0 then None else Some (sum * sum / sumsqr)%Q.

(** The two sums of [computeSecondMoment] (PSF.cc:243-261); [xCen] and
    [yCen] are quotients of [int]s. *)
Definition moment_sums (psfImage : Image) : Q * Q :=
  let xCen := ZtoQ (Z.quot (imWidth psfImage) 2) in
  let yCen := ZtoQ (Z.quot (imHeight psfImage) 2) in
  fold_left
    (fun acc iY =>
       fold_left
         (fun '(sum, norm) iX =>
            let x := (ZtoQ iX - xCen)%Q in
            let y := (ZtoQ iY - yCen)%Q in
            let r2 := (x * x + y * y)%Q in
            let m := (imAt psfImage iX iY * r2)%Q in
            ((sum + m)%Q, (norm + imAt psfImage iX iY)%Q))
         (for_range 0 (imWidth psfImage)) acc)
    (for_range 0 (imHeight psfImage)) (0%Q, 0%Q).

(** [computeSecondMoment] (PSF.cc:243-274). *)
Definition computeSecondMoment (psfImage : Image) : Try Q :=
  let '(sum, norm) := moment_sums psfImage in
  if Qltb sum 0 || Qle_bool norm 0 then Throw DomainErrorException
  else Value (sum / norm)%Q.

(** *** Scenarios *)

(** The name under which [dgPSF.cc] registers its type: the
    characters D, G, P, S, F. *)
Definition DGPSF : String.string :=
  String.string_of_list_ascii
    (map Ascii.ascii_of_nat [68; 71; 80; 83; 70]%nat).

(** Both are no number, or both are the same number. *)
Definition same_area (a a' : option Q) : Prop :=
  match a, a' with
  | Some q, Some q' => (q == q')%Q
  | None, None => True
  | _, _ => False
  end.

(** An image of 3x3 pixels with two pixels that are not 0. *)
Definition psf_3x3 : Image := image_of 3 3 [(1, 1, 2%Q); (2, 1, 1%Q)].

Definition area_of (r : option Q) : Q :=
  match r with
  | Some a => a
  | None => 0%Q
  end.

Definition moment_of (r : Try Q) : Q :=
  match r with
  | Value m => m
  | Throw _ => (-1)%Q
  end.

End PSF.

(* ================================================================= *)
(** ** dgPSF.cc *)

Module dgPSF.
Import PSF.

(** What the constructor leaves of a [dgPSF]: the width and height the
    base class [PSF] keeps (PSF.cc:25-29), the three parameters, and the
    size of the [AnalyticKernel] it sets, if it sets one. *)
Record dgPSF : Type := mkdgPSF {
  _width : Z;
  _height : Z;
  _sigma1 : Q;
  _sigma2 : Q;
  _b : Q;
  _kernel : option (Z * Z)
}.

(** [dgPSF::dgPSF(width, height, sigma1, sigma2, b)] (dgPSF.cc:20-48). *)
Definition new_dgPSF (width height : Z) (sigma1 sigma2 b : Q) : Try dgPSF :=
  let sigma2' :=
    if Qeq_bool b 0 && Qeq_bool sigma2 0 then 1%Q else sigma2 in
  if Qeq_bool sigma1 0 || Qeq_bool sigma2' 0
  then Throw DomainErrorException
  else
    Value
      (mkdgPSF width (if height =? 0 then width else height) sigma1 sigma2' b
         (if width >? 0 then Some (width, height) else None)).

Section Value.
(** [exp] of [<cmath>]. *)
Variable exp : Q -> Q.

(** [dgPSF::doGetValue(dx, dy)] (dgPSF.cc:51-63). *)
Definition doGetValue (psf : dgPSF) (dx dy : Q) : Q :=
  let r2 := (dx * dx + dy * dy)%Q in
  let psf1 := exp (- r2 / (2 * _sigma1 psf * _sigma1 psf))%Q in
  if Qeq_bool (_b psf) 0 then psf1
  else
    let psf2 := exp (- r2 / (2 * _sigma2 psf * _sigma2 psf))%Q in
    ((psf1 + _b psf * psf2) / (1 + _b psf))%Q.

End Value.

(** A stand-in for [exp] that is right at 0, for the runs below. *)
Definition exp_near_0 (q : Q) : Q := (1 + q)%Q.

Definition built (r : Try dgPSF) : dgPSF :=
  match r with
  | Value p => p
  | Throw _ => mkdgPSF 0 0 0 0 0 None
  end.

End dgPSF.

(* ================================================================= *)
(** ** Properties *)

(** *** Numbers and vectors *)

Lemma Qltb_lt (a b : Q) : Qltb a b = true <-> (a < b)%Q.
Proof.
  unfold Qltb. rewrite negb_true_iff. split.
  - intro H. apply Qnot_le_lt. intro Hle.
    apply Qle_bool_iff in Hle. congruence.
  - intro H. destruct (Qle_bool b a) eqn:Hb; [ | reflexivity ].
    apply Qle_bool_iff in Hb. exfalso. exact (Qlt_not_le _ _ H Hb).
Qed.

Lemma Qltb_ge (a b : Q) : Qltb a b = false <-> (b <= a)%Q.
Proof.
  unfold Qltb. rewrite negb_false_iff. apply Qle_bool_iff.
Qed.

Lemma vec_at_bounds (v : list Z) (i a : Z) :
  vec_at v i = Some a -> 0 <= i < Z.of_nat (length v).
Proof.
  unfold vec_at. destruct (i <? 0) eqn:Hi; [ discriminate | ].
  intro H. apply Z.ltb_ge in Hi.
  assert (Hn : (Z.to_nat i < length v)%nat)
    by (apply nth_error_Some; congruence).
  lia.
Qed.

Module CRFacts.
Import CR.

(** *** resolve_alias *)

Lemma chain_ends_steps (aliases : list Z) (id r : Z) :
  chain_ends aliases id r -> exists n, chain_steps aliases id n r.
Proof.
  induction 1 as [id H | id a r H Hne _ [n IH]].
  - exists 0%nat. now constructor.
  - exists (S n). econstructor; eassumption.
Qed.

Lemma chain_steps_det (aliases : list Z) (id r r' : Z) (n n' : nat) :
  chain_steps aliases id n r -> chain_steps aliases id n' r' ->
  n = n' /\ r = r'.
Proof.
  intro H. revert n' r'.
  induction H as [id H | id a r n H Hne _ IH]; intros n' r' H'.
  - inversion H' as [id' H1 | id' a' r1 n1 H1 Hne1 H2]; subst.
    + now split.
    + congruence.
  - inversion H' as [id' H1 | id' a' r1 n1 H1 Hne1 H2]; subst.
    + congruence.
    + assert (a' = a) by congruence. subst a'.
      destruct (IH _ _ H2) as [-> ->]. now split.
Qed.

Lemma chain_steps_end_fixed (aliases : list Z) (id r : Z) (n : nat) :
  chain_steps aliases id n r -> vec_at aliases r = Some r.
Proof. induction 1; assumption. Qed.

(** Ids that are pairwise different and all index the table are no more
    than the table has entries. *)
Lemma distinct_ids_bound (aliases : list Z) (ids : list Z) :
  NoDup ids ->
  (forall s, In s ids -> 0 <= s < Z.of_nat (length aliases)) ->
  (length ids <= length aliases)%nat.
Proof.
  intros Hnd Hin.
  assert (Hnd' : NoDup (map Z.to_nat ids)).
  { clear -Hnd Hin. induction Hnd as [ | s ids Hs Hnd IH ]; simpl.
    - constructor.
    - constructor.
      + intro Hmem. apply in_map_iff in Hmem.
        destruct Hmem as [t [Ht Hint]].
        assert (0 <= t < Z.of_nat (length aliases))
          by (apply Hin; now right).
        assert (0 <= s < Z.of_nat (length aliases))
          by (apply Hin; now left).
        assert (t = s) by lia. subst t. contradiction.
      + apply IH. intros t Ht. apply Hin. now right. }
  assert (Hincl : incl (map Z.to_nat ids) (seq 0 (length aliases))).
  { intros k Hk. apply in_map_iff in Hk. destruct Hk as [t [Ht Hint]].
    apply in_seq. specialize (Hin t Hint). lia. }
  pose proof (NoDup_incl_length Hnd' Hincl) as Hlen.
  rewrite length_map, length_seq in Hlen. exact Hlen.
Qed.

(** The ids in [before] lie further from the fixed point than [id]
    does: with them, the chain of [id] still fits in the table. *)
Lemma chain_steps_bound (aliases : list Z) (id r : Z) (n : nat) :
  chain_steps aliases id n r ->
  forall before : list Z,
    NoDup before ->
    (forall s, In s before ->
               exists m, (n < m)%nat /\ chain_steps aliases s m r) ->
    (length before + n < length aliases)%nat.
Proof.
  induction 1 as [id H | id a r n H Hne Hst IH]; intros before Hnd Hfar.
  - assert (Hlen : (length (id :: before) <= length aliases)%nat).
    { apply distinct_ids_bound.
      - constructor; [ | exact Hnd ].
        intro Hin. destruct (Hfar _ Hin) as [m [Hm Hs]].
        assert (Hid : chain_steps aliases id 0 id) by now constructor.
        destruct (chain_steps_det _ _ _ _ _ _ Hs Hid) as [-> _]. lia.
      - intros s [<- | Hin].
        + eapply vec_at_bounds; eassumption.
        + destruct (Hfar _ Hin) as [m [_ Hs]].
          inversion Hs; subst; eapply vec_at_bounds; eassumption. }
    simpl in Hlen. lia.
  - assert (Hid : chain_steps aliases id (S n) r)
      by (econstructor; eassumption).
    assert (Hb : (length (id :: before) + n < length aliases)%nat).
    { apply IH.
      - constructor; [ | exact Hnd ].
        intro Hin. destruct (Hfar _ Hin) as [m [Hm Hs]].
        destruct (chain_steps_det _ _ _ _ _ _ Hs Hid) as [-> _]. lia.
      - intros s [<- | Hin].
        + exists (S n). split; [ lia | exact Hid ].
        + destruct (Hfar _ Hin) as [m [Hm Hs]].
          exists m. split; [ lia | exact Hs ]. }
    simpl in Hb. lia.
Qed.

(** With more fuel than the chain has steps, the loop returns its end. *)
Lemma resolve_alias_fuel_steps (aliases : list Z) (id r : Z) (n : nat) :
  chain_steps aliases id n r ->
  forall fuel, (n < fuel)%nat -> resolve_alias_fuel fuel aliases id = Ok r.
Proof.
  unfold resolve_alias_fuel.
  induction 1 as [id H | id a r n H Hne _ IH]; intros fuel Hfuel.
  - destruct fuel as [ | fuel ]; [ lia | ]. simpl.
    rewrite H, Z.eqb_refl. reflexivity.
  - destruct fuel as [ | fuel ]; [ lia | ]. simpl. rewrite H.
    destruct (id =? a) eqn:Heq.
    + apply Z.eqb_eq in Heq. congruence.
    + simpl. apply IH. lia.
Qed.

(** [resolve_alias] is total on the chains that end. *)
Lemma resolve_alias_total (aliases : list Z) (id r : Z) :
  chain_ends aliases id r -> resolve_alias aliases id = Ok r.
Proof.
  intro H. destruct (chain_ends_steps _ _ _ H) as [n Hn].
  unfold resolve_alias. apply (resolve_alias_fuel_steps _ _ _ _ Hn).
  pose proof (chain_steps_bound _ _ _ _ Hn [] (NoDup_nil _)) as Hb.
  simpl in Hb. assert (n < length aliases)%nat; [ | lia ].
  apply Hb. intros s [].
Qed.

(** What the loop returns is the end of the chain. *)
Lemma resolve_alias_fuel_sound (fuel : nat) (aliases : list Z) (id r : Z) :
  resolve_alias_fuel fuel aliases id = Ok r -> chain_ends aliases id r.
Proof.
  unfold resolve_alias_fuel. revert id.
  induction fuel as [ | fuel IH ]; intros id; simpl; [ discriminate | ].
  destruct (vec_at aliases id) as [a | ] eqn:Ha; [ | discriminate ].
  destruct (id =? a) eqn:Heq; simpl.
  - apply Z.eqb_eq in Heq. subst a. intro H. injection H as <-.
    now constructor.
  - apply Z.eqb_neq in Heq. intro H.
    econstructor; [ exact Ha | congruence | apply IH; exact H ].
Qed.

(** C9: for every alias table whose chains all end in a fixed point and
    every id that indexes the table, [resolve_alias] returns an id, and
    resolving what it returns gives the same result again. *)
Theorem resolve_alias_idempotent (aliases : list Z) (id : Z) :
  (forall i, 0 <= i < Z.of_nat (length aliases) ->
             exists r, chain_ends aliases i r) ->
  0 <= id < Z.of_nat (length aliases) ->
  is_ok (resolve_alias aliases id) = true /\
  bind (resolve_alias aliases id) (resolve_alias aliases)
  = resolve_alias aliases id.
Proof.
  intros Hends Hid. destruct (Hends id Hid) as [r H].
  rewrite (resolve_alias_total _ _ _ H). cbn [is_ok bind].
  split; [ reflexivity | ].
  apply resolve_alias_total. constructor.
  destruct (chain_ends_steps _ _ _ H) as [n Hn].
  eapply chain_steps_end_fixed; eassumption.
Qed.

(** The table [0; 3; 2; 2], where 1 -> 3 -> 2 -> 2. *)
Lemma resolve_alias_idempotent_witness :
  is_ok (resolve_alias [0; 3; 2; 2] 1) = true /\
  bind (resolve_alias [0; 3; 2; 2] 1) (resolve_alias [0; 3; 2; 2])
  = resolve_alias [0; 3; 2; 2] 1.
Proof.
  apply (resolve_alias_idempotent [0; 3; 2; 2] 1).
  - intros i Hi. cbn [length Z.of_nat] in Hi.
    assert (Hcases : i = 0 \/ i = 1 \/ i = 2 \/ i = 3) by lia.
    destruct Hcases as [-> | [-> | [-> | ->]]].
    + exists 0. apply chain_fixed. reflexivity.
    + exists 2.
      apply (chain_step _ 1 3 2); [ reflexivity | lia | ].
      apply (chain_step _ 3 2 2); [ reflexivity | lia | ].
      apply chain_fixed. reflexivity.
    + exists 2. apply chain_fixed. reflexivity.
    + exists 2.
      apply (chain_step _ 3 2 2); [ reflexivity | lia | ].
      apply chain_fixed. reflexivity.
  - cbn [length Z.of_nat]. lia.
Defined.


(** *** The pixel test *)

Lemma andb4_false (a b c d : bool) :
  a && b && c && d = false -> a = false \/ b = false \/ c = false \/ d = false.
Proof. destruct a, b, c, d; simpl; auto. Qed.

(** C1 (as amended): with [min_sigma >= 0], Condition #2 rejects the
    pixel exactly when its value [v] is below [mean + s] for every one of
    the four neighbour means, [s = min_sigma * sqrt(variance)]; so a pixel
    that [is_cr_pixel] classifies as a CR reaches [mean + s] for at least
    one of the four means. *)
Theorem condition_2_rejects_below_all (E : Externals) (mi : MaskedImage)
  (x y min_sigma : Z) :
  0 <= min_sigma ->
  let v := image_at mi x y in
  let s := thres_sky_sigma E mi x y min_sigma in
  (condition_2_rejects E mi x y min_sigma = true <->
   (v < mean_ns mi x y + s /\ v < mean_we mi x y + s /\
    v < mean_swne mi x y + s /\ v < mean_nwse mi x y + s)%Q) /\
  (forall thres_h thres_v thres_d bkgd e_per_dn cond3_fac corr,
      is_cr_pixel E mi x y min_sigma thres_h thres_v thres_d bkgd e_per_dn
        cond3_fac = Some corr ->
      (mean_ns mi x y + s <= v \/ mean_we mi x y + s <= v \/
       mean_swne mi x y + s <= v \/ mean_nwse mi x y + s <= v)%Q).
Proof.
  intros Hsigma v s.
  assert (Hneg : (min_sigma <? 0) = false) by (apply Z.ltb_ge; lia).
  split.
  - unfold condition_2_rejects. rewrite Hneg. fold v. fold s.
    rewrite !andb_true_iff, !Qltb_lt. tauto.
  - intros thres_h thres_v thres_d bkgd e_per_dn cond3_fac corr.
    unfold is_cr_pixel. fold v.
    destruct (Qltb v 0); [ discriminate | ].
    destruct (condition_2_rejects E mi x y min_sigma) eqn:Hc2;
      [ discriminate | ].
    intros _. unfold condition_2_rejects in Hc2. rewrite Hneg in Hc2.
    fold v in Hc2. fold s in Hc2.
    apply andb4_false in Hc2. rewrite !Qltb_ge in Hc2. exact Hc2.
Qed.

Lemma condition_2_rejects_below_all_witness :
  (condition_2_rejects externals_ref image_ridge 1 1 5 = true <->
   (image_at image_ridge 1 1
      < mean_ns image_ridge 1 1 + thres_sky_sigma externals_ref image_ridge 1 1 5 /\
    image_at image_ridge 1 1
      < mean_we image_ridge 1 1 + thres_sky_sigma externals_ref image_ridge 1 1 5 /\
    image_at image_ridge 1 1
      < mean_swne image_ridge 1 1 + thres_sky_sigma externals_ref image_ridge 1 1 5 /\
    image_at image_ridge 1 1
      < mean_nwse image_ridge 1 1 + thres_sky_sigma externals_ref image_ridge 1 1 5)%Q) /\
  (forall thres_h thres_v thres_d bkgd e_per_dn cond3_fac corr,
      is_cr_pixel externals_ref image_ridge 1 1 5 thres_h thres_v thres_d
        bkgd e_per_dn cond3_fac = Some corr ->
      (mean_ns image_ridge 1 1 + thres_sky_sigma externals_ref image_ridge 1 1 5
         <= image_at image_ridge 1 1 \/
       mean_we image_ridge 1 1 + thres_sky_sigma externals_ref image_ridge 1 1 5
         <= image_at image_ridge 1 1 \/
       mean_swne image_ridge 1 1 + thres_sky_sigma externals_ref image_ridge 1 1 5
         <= image_at image_ridge 1 1 \/
       mean_nwse image_ridge 1 1 + thres_sky_sigma externals_ref image_ridge 1 1 5
         <= image_at image_ridge 1 1)%Q).
Proof.
  apply (condition_2_rejects_below_all externals_ref image_ridge 1 1 5).
  lia.
Defined.

(** C1 (as stated) fails: the pixel (1,1) of [image_ridge] exceeds the
    N-S mean by [s = 5] and none of the three other means, and
    [is_cr_pixel] classifies it as a CR. *)
Lemma ridge_pixel_is_cr :
  (exists corr,
      is_cr_pixel externals_ref image_ridge 1 1 5 (1 # 4) (1 # 4) (1 # 8)
        0 1 2 = Some corr) /\
  (thres_sky_sigma externals_ref image_ridge 1 1 5 == 5)%Q /\
  (mean_ns image_ridge 1 1 + 5 <= image_at image_ridge 1 1)%Q /\
  (image_at image_ridge 1 1 < mean_we image_ridge 1 1 + 5)%Q /\
  (image_at image_ridge 1 1 < mean_swne image_ridge 1 1 + 5)%Q /\
  (image_at image_ridge 1 1 < mean_nwse image_ridge 1 1 + 5)%Q.
Proof.
  split; [ eexists; vm_compute; reflexivity | ].
  repeat split; vm_compute; congruence.
Qed.


(** *** The repair step *)

Lemma mask_test_bad (mi : MaskedImage) (badMask lx ly : Z) :
  badMask <> 0 -> mask_test mi badMask lx ly = true.
Proof.
  intro Hbad. unfold mask_test, nonzero. apply negb_true_iff.
  apply Z.eqb_neq. intro H. apply Z.lor_eq_0_iff in H. tauto.
Qed.

(** With a bad-pixel mask that has a bit, no directional estimate is
    ever computed: [ngood] stays 0 at every pixel of every image. *)
Lemma directional_min_never_good (E : Externals) (mi : MaskedImage)
  (badMask ncol nrow : Z) (minval : Q) (lx ly x y : Z) :
  badMask <> 0 ->
  directional_min E mi badMask ncol nrow minval lx ly x y
  = (numeric_max E, 0).
Proof.
  intro Hbad. unfold directional_min.
  unfold estimate_WE, estimate_NS, estimate_SWNE, estimate_SENW.
  rewrite !(mask_test_bad mi badMask _ _ Hbad). simpl.
  repeat match goal with
         | |- context [if ?c then Contaminated else OutOfImage] =>
             destruct c; simpl
         end; reflexivity.
Qed.

(** C2, on the code: at the pixel (3,3) of the 7x7 image of S1, whose
    mask is 0 everywhere, with the bad-pixel mask BAD | INTRP | SAT, the
    support pixels of the four estimates are inside the image and carry
    no mask bit, and each of the four estimates is skipped as
    contaminated. *)
Theorem clean_support_is_skipped :
  estimate_WE externals_ref image_S1 badMask_ref 7 7 3 3 3 3 = Contaminated /\
  estimate_NS externals_ref image_S1 badMask_ref 7 7 3 3 3 3 = Contaminated /\
  estimate_SWNE externals_ref image_S1 badMask_ref 7 7 3 3 3 3
  = Contaminated /\
  estimate_SENW externals_ref image_S1 badMask_ref 7 7 3 3 3 3
  = Contaminated /\
  snd (directional_min externals_ref image_S1 badMask_ref 7 7 0 3 3 3 3) = 0 /\
  (forall x y, mask_at image_S1 x y = 0) /\
  in_image image_S1 (3 - 2) (3 - 2) = true /\
  in_image image_S1 (3 + 2) (3 + 2) = true.
Proof.
  repeat split; try (vm_compute; reflexivity).
Qed.

(** *** The mask bits findCosmicRays leaves alone *)

Section SameBits.
Variable b : Z.

Lemma same_bits_refl (mi : MaskedImage) : same_bits b mi mi.
Proof. intros x y. reflexivity. Qed.

Lemma same_bits_trans (mi1 mi2 mi3 : MaskedImage) :
  same_bits b mi1 mi2 -> same_bits b mi2 mi3 -> same_bits b mi1 mi3.
Proof. intros H12 H23 x y. now rewrite H23, H12. Qed.

Lemma same_bits_set_image (mi : MaskedImage) (x y : Z) (v : Q) :
  same_bits b mi (set_image mi x y v).
Proof. intros x' y'. reflexivity. Qed.

Lemma same_bits_or (mi : MaskedImage) (x y c : Z) :
  Z.land c b = 0 ->
  same_bits b mi (set_mask mi x y (Z.lor (mask_at mi x y) c)).
Proof.
  intros Hc x' y'. unfold set_mask, plane_set, same_pixel. cbn [mask_at].
  destruct (x' =? x) eqn:Hx; [ | reflexivity ].
  destruct (y' =? y) eqn:Hy; [ | reflexivity ].
  apply Z.eqb_eq in Hx, Hy. subst. cbn [andb].
  now rewrite Z.land_lor_distr_l, Hc, Z.lor_0_r.
Qed.

Lemma fold_left_same_bits {S A : Type} (img : S -> MaskedImage)
  (f : S -> A -> S) (l : list A) :
  (forall s a, same_bits b (img s) (img (f s a))) ->
  forall s, same_bits b (img s) (img (fold_left f l s)).
Proof.
  intro Hf. induction l as [ | a l IH ]; intro s; simpl.
  - apply same_bits_refl.
  - eapply same_bits_trans; [ apply Hf | apply IH ].
Qed.

Lemma foldM_same_bits {S A : Type} (img : S -> MaskedImage)
  (f : S -> A -> Result S) (l : list A) :
  (forall s a s', f s a = Ok s' -> same_bits b (img s) (img s')) ->
  forall s s', foldM f l s = Ok s' -> same_bits b (img s) (img s').
Proof.
  intro Hf. induction l as [ | a l IH ]; intros s s'; simpl.
  - intro H. injection H as <-. apply same_bits_refl.
  - destruct (f s a) as [s1 | ] eqn:H1; [ | discriminate ]. cbn [bind].
    intro H. eapply same_bits_trans; [ eapply Hf; exact H1 | now apply IH ].
Qed.

Lemma setMaskFromFootprint_same_bits (mi : MaskedImage) (fp : Footprint)
  (c : Z) :
  Z.land c b = 0 -> same_bits b mi (setMaskFromFootprint mi fp c).
Proof.
  intro Hc. unfold setMaskFromFootprint.
  generalize (getX0 mi) (getY0 mi). intros X0 Y0.
  apply (fold_left_same_bits (fun m => m)).
  intros m [x y]. now apply same_bits_or.
Qed.

Lemma setMaskFromFootprintList_same_bits (mi : MaskedImage)
  (fps : list Footprint) (c : Z) :
  Z.land c b = 0 -> same_bits b mi (setMaskFromFootprintList mi fps c).
Proof.
  intro Hc. unfold setMaskFromFootprintList.
  apply (fold_left_same_bits (fun m => m)).
  intros m fp. now apply setMaskFromFootprint_same_bits.
Qed.

Variable E : Externals.

Lemma initial_sweep_same_bits (st : State) (min_sigma : Z)
  (thres_h thres_v thres_d bkgd e_per_dn cond3_fac : Q) (badMask : Z) :
  same_bits b (st_mimage st)
    (st_mimage
       (initial_sweep E st min_sigma thres_h thres_v thres_d bkgd e_per_dn
          cond3_fac badMask)).
Proof.
  unfold initial_sweep.
  apply (fold_left_same_bits st_mimage). intros s j.
  apply (fold_left_same_bits st_mimage). intros s' i.
  destruct (is_cr_pixel _ _ _ _ _ _ _ _ _ _ _); [ | apply same_bits_refl ].
  destruct (nonzero _); [ apply same_bits_refl | ].
  apply same_bits_set_image.
Qed.

Lemma checkSpanForCRs_same_bits (extras : Footprint) (st : State)
  (y x0 x1 min_sigma : Z) (thres_h thres_v thres_d bkgd e_per_dn cond3_fac : Q)
  (keep : bool) :
  same_bits b (st_mimage st)
    (st_mimage
       (snd (checkSpanForCRs E extras st y x0 x1 min_sigma thres_h thres_v
               thres_d bkgd e_per_dn cond3_fac keep))).
Proof.
  unfold checkSpanForCRs.
  apply (fold_left_same_bits (fun p : Footprint * State => st_mimage (snd p))
           _ _) with (s := (extras, st)).
  intros [ex s] x. cbn [snd].
  destruct (is_cr_pixel _ _ _ _ _ _ _ _ _ _ _); [ | apply same_bits_refl ].
  cbn [snd]. destruct keep; apply same_bits_set_image.
Qed.

Lemma RemoveCR_call_same_bits (bkgd : Q) (badMask : Z) (debias : bool)
  (st : State) (x y : Z) :
  same_bits b (st_mimage st)
    (st_mimage (RemoveCR_call E bkgd badMask debias st x y)).
Proof.
  unfold RemoveCR_call.
  destruct (directional_min _ _ _ _ _ _ _ _ _ _) as [m g].
  match goal with
  | |- context [let '(_, _) := ?e in _] => destruct e as [m' r]
  end.
  apply same_bits_set_image.
Qed.

Lemma RemoveCR_apply_same_bits (bkgd : Q) (badMask : Z) (debias : bool)
  (st : State) (fp : Footprint) :
  same_bits b (st_mimage st)
    (st_mimage (RemoveCR_apply E bkgd badMask debias st fp)).
Proof.
  unfold RemoveCR_apply. apply (fold_left_same_bits st_mimage).
  intros s [x y]. apply RemoveCR_call_same_bits.
Qed.

Lemma removeCR_same_bits (st st' : State) (CRs : list Footprint) (bkgd : Q)
  (crBit saturBit badMask : Z) (debias grow : bool) :
  Z.land saturBit b = 0 ->
  removeCR E st CRs bkgd crBit saturBit badMask debias grow = Ok st' ->
  same_bits b (st_mimage st) (st_mimage st').
Proof.
  intro Hs. unfold removeCR. apply (foldM_same_bits st_mimage).
  intros s cr s'.
  destruct (grow && (getNpix cr <? 100)).
  - destruct (footprintAndMask _ _ _ _) as [sat | ]; [ | discriminate ].
    destruct (getNpix sat >? 0); intro H; injection H as <-.
    + now apply setMaskFromFootprint_same_bits.
    + apply RemoveCR_apply_same_bits.
  - intro H. injection H as <-. apply RemoveCR_apply_same_bits.
Qed.

Lemma reinstate_same_bits (mi : MaskedImage) (crpixels : list CRPixel) :
  same_bits b mi (reinstate mi crpixels).
Proof.
  unfold reinstate. apply (fold_left_same_bits (fun m => m)).
  intros m crp. apply same_bits_set_image.
Qed.


Lemma grow_CR_same_bits (interpBit min_sigma : Z)
  (thres_h thres_v thres_d bkgd e_per_dn : Q) (keep : bool)
  (cr : Footprint) (st : State) (nextra : Z) :
  same_bits b (st_mimage st)
    (st_mimage
       (snd (fst (grow_CR E interpBit min_sigma thres_h thres_v thres_d bkgd
                    e_per_dn keep cr st nextra)))).
Proof.
  unfold grow_CR.
  destruct (_ =? getNpix cr); [ apply same_bits_refl | ].
  match goal with
  | |- context [let '(_, _) := ?e in _] =>
      assert (Hfold : same_bits b (st_mimage st) (st_mimage (snd e)));
      [ | destruct e as [extra st'] ]
  end.
  - apply (fold_left_same_bits
             (fun p : Footprint * State => st_mimage (snd p)) _ _)
      with (s := ([] : Footprint, st)).
    intros [ex s] span. cbn [snd].
    destruct (_ || _); [ apply same_bits_refl | ].
    match goal with
    | |- context [checkSpanForCRs E ex s ?y ?x0 ?x1 ?ms ?h ?v ?d ?bk ?e ?f ?k] =>
        pose proof (checkSpanForCRs_same_bits ex s y x0 x1 ms h v d bk e f k)
          as H1;
        destruct (checkSpanForCRs E ex s y x0 x1 ms h v d bk e f k)
          as [ex1 s1]
    end.
    match goal with
    | |- context [checkSpanForCRs E ex1 s1 ?y ?x0 ?x1 ?ms ?h ?v ?d ?bk ?e ?f ?k] =>
        pose proof (checkSpanForCRs_same_bits ex1 s1 y x0 x1 ms h v d bk e f k)
          as H2;
        destruct (checkSpanForCRs E ex1 s1 y x0 x1 ms h v d bk e f k)
          as [ex2 s2]
    end.
    cbn [snd] in H1, H2.
    eapply same_bits_trans; [ exact H1 | ].
    eapply same_bits_trans; [ exact H2 | ].
    apply checkSpanForCRs_same_bits.
  - cbn [snd] in Hfold. destruct (_ >? 0); exact Hfold.
Qed.

Lemma growth_pass_same_bits (interpBit min_sigma : Z)
  (thres_h thres_v thres_d bkgd e_per_dn : Q) (keep : bool)
  (s : list Footprint * State) (nextra : Z) :
  same_bits b (st_mimage (snd s))
    (st_mimage
       (snd (fst (growth_pass E interpBit min_sigma thres_h thres_v thres_d
                    bkgd e_per_dn keep s nextra)))).
Proof.
  unfold growth_pass.
  set (e := fold_left _ (fst s) _).
  assert (Hfold : same_bits b (st_mimage (snd s)) (st_mimage (snd (fst e))));
    [ subst e | destruct e as [[CRs' st'] nextra'] ].
  - apply (fold_left_same_bits
             (fun p : list Footprint * State * Z => st_mimage (snd (fst p)))
             _ _)
      with (s := ([] : list Footprint, snd s, nextra)).
    intros [[done st1] n1] cr. cbn [fst snd].
    pose proof (grow_CR_same_bits interpBit min_sigma thres_h thres_v thres_d
                  bkgd e_per_dn keep cr st1 n1) as H.
    destruct (grow_CR _ _ _ _ _ _ _ _ _ _ _ _) as [[cr' st2] n2].
    exact H.
  - exact Hfold.
Qed.

Lemma iterate_passes_same_bits
  (pass : list Footprint * State -> Z -> list Footprint * State * Z) :
  (forall s nextra,
      same_bits b (st_mimage (snd s)) (st_mimage (snd (fst (pass s nextra))))) ->
  forall n s nextra log,
    same_bits b (st_mimage (snd s))
      (st_mimage (snd (fst (fst (iterate_passes pass n s nextra log))))).
Proof.
  intro Hpass. induction n as [ | n IH ]; intros s nextra log; simpl.
  - apply same_bits_refl.
  - specialize (Hpass s nextra).
    destruct (pass s nextra) as [s1 n1]. cbn [fst snd] in Hpass.
    destruct (n1 =? 0).
    + exact Hpass.
    + eapply same_bits_trans; [ exact Hpass | apply IH ].
Qed.

Lemma growth_iterations_same_bits
  (pass : list Footprint * State -> Z -> list Footprint * State * Z)
  (niteration : Z) (s s' : list Footprint * State) (nextra : Z)
  (log : list Z) :
  (forall s nextra,
      same_bits b (st_mimage (snd s)) (st_mimage (snd (fst (pass s nextra))))) ->
  growth_iterations pass niteration s = Ok (s', nextra, log) ->
  same_bits b (st_mimage (snd s)) (st_mimage (snd s')).
Proof.
  intros Hpass. unfold growth_iterations. destruct (niteration <? 0).
  - specialize (Hpass s 0). destruct (pass s 0) as [s1 n1].
    destruct (n1 =? 0); [ | discriminate ].
    intro H. injection H as <- _ _. exact Hpass.
  - intro H. injection H as H.
    pose proof (iterate_passes_same_bits pass Hpass (Z.to_nat niteration) s 0 [])
      as Hit.
    rewrite H in Hit. exact Hit.
Qed.

(** No call of [findCosmicRays] changes a mask bit that is neither the CR
    bit nor the SAT bit; in particular, none sets the INTRP bit. *)
Lemma findCosmicRays_keeps_other_bits (st : State) (planes : MaskPlanes)
  (psf : Z -> Z -> Q) (bkgd : Q) (policy : Policy) (keep : bool)
  (o : Outcome) :
  Z.land (plane_CR planes) b = 0 ->
  Z.land (plane_SAT planes) b = 0 ->
  findCosmicRays E st planes psf bkgd policy keep = Ok o ->
  same_bits b (st_mimage st) (st_mimage (out_state o)).
Proof.
  intros Hcr Hsat. unfold findCosmicRays.
  destruct (negb (Qltb 0 (CR_e_per_dn policy))); [ discriminate | ].
  match goal with
  | |- context [initial_sweep E st ?ms ?h ?v ?d ?bk ?e ?f ?bm] =>
      pose proof (initial_sweep_same_bits st ms h v d bk e f bm) as Hsweep;
      set (swept := initial_sweep E st ms h v d bk e f bm) in *
  end.
  match goal with
  | |- bind ?c _ = _ -> _ =>
      assert (Hscan : forall st1 ss, c = Ok (st1, ss) ->
                                     st_mimage st1 = st_mimage swept);
      [ | destruct c as [[st1 ss] | ]; [ | discriminate ] ]
  end.
  { intros st1 ss. destruct (st_crpixels swept) as [ | c0 cs ].
    - intro H. injection H as <- _. reflexivity.
    - destruct (st_crpixels (push_CRPixel swept 0 (-1) 0 (-1)))
        as [ | crp rest ].
      + intro H. injection H as <- _. reflexivity.
      + destruct (span_scan crp rest _); [ | discriminate ].
        cbn [bind]. intro H. injection H as <- _. reflexivity. }
  specialize (Hscan st1 ss eq_refl). cbn [bind].
  match goal with
  | |- bind ?c _ = _ -> _ => destruct c as [aliases | ]; [ | discriminate ]
  end. cbn [bind].
  match goal with
  | |- bind ?c _ = _ -> _ => destruct c as [spans | ]; [ | discriminate ]
  end. cbn [bind].
  match goal with
  | |- bind ?c _ = _ -> _ =>
      destruct c as [st2 | ] eqn:Hrm; [ | discriminate ]
  end. cbn [bind].
  apply (removeCR_same_bits _ _ _ _ _ _ _ _ _ Hsat) in Hrm.
  cbn [st_mimage with_mimage] in Hrm.
  match goal with
  | |- bind ?c _ = _ -> _ =>
      destruct c as [[[[CRs st3] nextra] passes] | ] eqn:Hgrow;
      [ | discriminate ]
  end. cbn [bind].
  apply growth_iterations_same_bits in Hgrow;
    [ | intros; apply growth_pass_same_bits ].
  cbn [snd] in Hgrow.
  assert (Hbefore : same_bits b (st_mimage st) (st_mimage st3)).
  { eapply same_bits_trans; [ exact Hsweep | ].
    eapply same_bits_trans; [ | exact Hgrow ].
    eapply same_bits_trans; [ | exact Hrm ].
    rewrite <- Hscan. apply reinstate_same_bits. }
  assert (Hmarked :
    same_bits b (st_mimage st)
      (setMaskFromFootprintList (st_mimage st3) CRs (plane_CR planes))).
  { eapply same_bits_trans; [ exact Hbefore | ].
    now apply setMaskFromFootprintList_same_bits. }
  destruct keep.
  - cbn [st_crpixels with_mimage].
    destruct (st_crpixels st3); [ discriminate | ].
    intro H. injection H as H. rewrite <- H. cbn [out_state st_mimage].
    eapply same_bits_trans; [ exact Hmarked | ].
    apply (fold_left_same_bits (fun m => m)).
    intros m crp. apply same_bits_set_image.
  - match goal with
    | |- bind ?c _ = _ -> _ =>
        destruct c as [st4 | ] eqn:Hrm2; [ | discriminate ]
    end. cbn [bind].
    apply (removeCR_same_bits _ _ _ _ _ _ _ _ _ Hsat) in Hrm2.
    cbn [st_mimage with_mimage] in Hrm2.
    intro H. injection H as H. rewrite <- H.
    cbn [out_state st_mimage with_mimage].
    eapply same_bits_trans; [ exact Hmarked | ].
    eapply same_bits_trans; [ exact Hrm2 | ].
    now apply setMaskFromFootprintList_same_bits.
Qed.

End SameBits.

(** *** findCosmicRays *)

(** C3, on the code: in S1 with [keep = false] the call returns one
    Footprint, the pixel (3,3); its value 1000 is replaced (by 1/2 with
    the collaborators chosen), and its mask is the CR bit alone: the
    INTRP bit is not set. *)
Theorem S1_interpolated_pixel_lacks_INTRP :
  footprints_of (run_S1 false) = [[mkSpan 3 3 3]] /\
  image_after (run_S1 false) 3 3 = Some (1 # 2) /\
  mask_after (run_S1 false) 3 3 = Some (plane_CR planes_ref) /\
  option_map (fun m => Z.land m (plane_INTRP planes_ref))
    (mask_after (run_S1 false) 3 3) = Some 0.
Proof.
  repeat split; vm_compute; reflexivity.
Qed.

(** C5, on the code: with [keep = true] a CR pixel whose value is not a
    whole number is not given its value back: 1000.5 at (3,3) before the
    call, 1000 after it. *)
Theorem keep_truncates_restored_value :
  Qred (image_at image_half 3 3) = 2001 # 2 /\
  footprints_of (run_half true) = [[mkSpan 3 3 3]] /\
  image_after (run_half true) 3 3 = Some 1000%Q.
Proof.
  repeat split; vm_compute; reflexivity.
Qed.

(** With [keep = true] the pixel added last by the growth passes is not
    given its value back either: 4 at (4,3) before the call, 0 after
    it. *)
Lemma keep_forgets_last_grown_pixel :
  Qred (image_at image_faint 4 3) = 4%Q /\
  footprints_of (run_faint 1 true) = [[mkSpan 3 3 3; mkSpan 3 4 4]] /\
  passes_of (run_faint 1 true) = [1] /\
  image_after (run_faint 1 true) 4 3 = Some 0%Q /\
  image_after (run_faint 1 true) 3 3 = Some 1000%Q.
Proof.
  repeat split; vm_compute; reflexivity.
Qed.

(** *** The growth passes *)

Lemma Zsum_cons (a : Z) (l : list Z) : Zsum (a :: l) = a + Zsum l.
Proof. reflexivity. Qed.

Lemma iterate_passes_log {S : Type} (pass : S -> Z -> S * Z) (n : nat) :
  forall (s : S) (nextra : Z) (log : list Z) s' nextra' log',
    iterate_passes pass n s nextra log = (s', nextra', log') ->
    exists added,
      log' = log ++ added /\
      forall k, (k < length added)%nat ->
                nextra + Zsum (firstn (Datatypes.S k) added) = 0 ->
                length added = Datatypes.S k.
Proof.
  induction n as [ | n IH ]; intros s nextra log s' nextra' log' H.
  - simpl in H. injection H as _ _ <-. exists []. split.
    + now rewrite app_nil_r.
    + simpl. intros k Hk. lia.
  - simpl in H. destruct (pass s nextra) as [s1 n1].
    destruct (n1 =? 0) eqn:Hz.
    + injection H as _ _ <-. exists [n1 - nextra]. split; [ reflexivity | ].
      simpl. intros k Hk _. lia.
    + apply Z.eqb_neq in Hz. apply IH in H.
      destruct H as [added [-> Hstop]].
      exists ((n1 - nextra) :: added). split.
      * now rewrite <- app_assoc.
      * intros [ | k ] Hk Hsum.
        -- simpl in Hsum. lia.
        -- rewrite firstn_cons, Zsum_cons in Hsum.
           cbn [length] in Hk |- *. f_equal.
           apply Hstop; [ lia | lia ].
Qed.

Lemma growth_iterations_log {S : Type} (pass : S -> Z -> S * Z)
  (niteration : Z) (s s' : S) (nextra : Z) (log : list Z) :
  growth_iterations pass niteration s = Ok (s', nextra, log) ->
  forall k, (k < length log)%nat ->
            Zsum (firstn (Datatypes.S k) log) = 0 ->
            length log = Datatypes.S k.
Proof.
  unfold growth_iterations. destruct (niteration <? 0).
  - destruct (pass s 0) as [s1 n1]. destruct (n1 =? 0); [ | discriminate ].
    intro H. injection H as _ _ <-. simpl. intros k Hk _. lia.
  - intro H. injection H as H.
    apply iterate_passes_log in H. destruct H as [added [-> Hstop]].
    cbn [app]. intros k Hk Hsum. apply Hstop; [ exact Hk | lia ].
Qed.

(** The growth log of a call is the log of its growth loop. *)
Lemma findCosmicRays_passes (E : Externals) (st : State)
  (planes : MaskPlanes) (psf : Z -> Z -> Q) (bkgd : Q) (policy : Policy)
  (keep : bool) (o : Outcome) :
  findCosmicRays E st planes psf bkgd policy keep = Ok o ->
  exists (pass : list Footprint * State -> Z -> list Footprint * State * Z)
         s s' nextra,
    growth_iterations pass (CR_niteration policy) s
    = Ok (s', nextra, out_passes o).
Proof.
  unfold findCosmicRays.
  destruct (negb (Qltb 0 (CR_e_per_dn policy))); [ discriminate | ].
  match goal with
  | |- bind ?c _ = _ -> _ => destruct c as [[st1 ss] | ]; [ | discriminate ]
  end. cbn [bind].
  match goal with
  | |- bind ?c _ = _ -> _ => destruct c as [aliases | ]; [ | discriminate ]
  end. cbn [bind].
  match goal with
  | |- bind ?c _ = _ -> _ => destruct c as [spans | ]; [ | discriminate ]
  end. cbn [bind].
  match goal with
  | |- bind ?c _ = _ -> _ => destruct c as [st2 | ]; [ | discriminate ]
  end. cbn [bind].
  match goal with
  | |- bind ?c _ = _ -> _ =>
      destruct c as [[[[CRs st3] nextra] passes] | ] eqn:Hgrow;
      [ | discriminate ]
  end. cbn [bind].
  intro H. do 4 eexists.
  assert (Hp : out_passes o = passes).
  { destruct keep.
    - match type of H with
      | match ?c with _ => _ end = _ => destruct c; [ discriminate | ]
      end.
      injection H as H. rewrite <- H. reflexivity.
    - match type of H with
      | bind ?c _ = _ => destruct c; [ | discriminate ]
      end.
      cbn [bind] in H. injection H as H. rewrite <- H. reflexivity. }
  rewrite Hp. exact Hgrow.
Qed.

(** C4 (as amended): the growth loop stops after a pass when the passes
    run so far have added no pixel between them: if the passes 0 to k
    add none, the pass k is the last one run. *)
Theorem growth_stops_while_nothing_added (E : Externals) (st : State)
  (planes : MaskPlanes) (psf : Z -> Z -> Q) (bkgd : Q) (policy : Policy)
  (keep : bool) (k : nat) :
  let passes :=
    passes_of (findCosmicRays E st planes psf bkgd policy keep) in
  (k < length passes)%nat ->
  Zsum (firstn (S k) passes) = 0 ->
  length passes = S k.
Proof.
  intros passes. subst passes.
  destruct (findCosmicRays E st planes psf bkgd policy keep) as [o | e]
    eqn:Hrun; simpl.
  - destruct (findCosmicRays_passes _ _ _ _ _ _ _ _ Hrun)
      as [pass [s [s' [nextra Hgrow]]]].
    exact (growth_iterations_log _ _ _ _ _ _ Hgrow k).
  - intro Hk. lia.
Qed.

(** In S1 with [niteration = 3] the first growth pass adds nothing, and
    is the only one run. *)
Lemma growth_stops_while_nothing_added_witness :
  length
    (passes_of
       (findCosmicRays externals_ref (state_of image_S1) planes_ref psf_S1 0
          (policy_S1 3) false)) = 1%nat.
Proof.
  apply (growth_stops_while_nothing_added externals_ref (state_of image_S1)
           planes_ref psf_S1 0 (policy_S1 3) false 0).
  - vm_compute. lia.
  - vm_compute. reflexivity.
Defined.

(** C4 (as stated) fails: with [niteration = 3] on [image_faint] the
    pass 0 adds one pixel, the pass 1 adds none, and the pass 2 is run
    all the same. *)
Lemma growth_runs_on_after_empty_pass :
  passes_of (run_faint 3 false) = [1; 0; 0] /\
  nth 1 (passes_of (run_faint 3 false)) 1 = 0 /\
  (1 + 1 < length (passes_of (run_faint 3 false)))%nat.
Proof.
  repeat split; vm_compute; reflexivity || lia.
Qed.

End CRFacts.

Module SpatialModelPsfFacts.
Import SpatialModelPsf.

(** *** The background of the eigen-images *)

(** C6, on the code: for the 5x5 eigen-image whose only non-zero pixel,
    1, is the pixel (4,2) of the border frame of width 2, the mean of the
    24 pixels of the frame is 1/24, and the value subtracted is 0: the
    pixel (4,2) of the kernel image is still 1. *)
Theorem right_border_is_not_averaged :
  clip_border 2 eigen_right = Z.min 2 (Z.min 5 5) /\
  in_frame eigen_right 2 4 2 = true /\
  length (frame_pixels eigen_right 2) = 24%nat /\
  Qred (frame_mean eigen_right) = 1 # 24 /\
  Qred (snd (background_level 2 eigen_right)) = 0%Q /\
  map (fun im => Qred (imAt im 4 2))
    (kernel_images (createKernelFromPsfCandidates [eigen_right] [1%Q] 1 0))
  = [1%Q].
Proof.
  repeat split; vm_compute; reflexivity.
Qed.

(** *** The initial spatial coefficients *)

Lemma build_lists_spatial (spatialOrder : Z) (ncomp : nat) :
  forall (eigenImages : list Image) ks fs,
    build_lists ncomp spatialOrder eigenImages = Ok (ks, fs) ->
    fs = repeat (setParameter (PolynomialFunction2 spatialOrder) 0 1) ncomp.
Proof.
  induction ncomp as [ | ncomp IH ]; intros eigenImages ks fs; simpl.
  - intro H. injection H as _ <-. reflexivity.
  - destruct eigenImages as [ | im rest ]; [ discriminate | ].
    destruct (build_lists ncomp spatialOrder rest) as [[ks' fs'] | ] eqn:Hb;
      [ | discriminate ].
    simpl. intro H. injection H as _ <-. f_equal. eapply IH. exact Hb.
Qed.

Lemma polynomial_starts_at_one (spatialOrder : Z) :
  0 <= spatialOrder ->
  setParameter (PolynomialFunction2 spatialOrder) 0 1
  = 1%Q :: repeat 0%Q (Z.to_nat ((spatialOrder + 1) * (spatialOrder + 2) / 2) - 1).
Proof.
  intro H. unfold setParameter, PolynomialFunction2.
  assert (Hn : 1 <= (spatialOrder + 1) * (spatialOrder + 2) / 2).
  { apply Z.div_le_lower_bound; nia. }
  destruct (Z.to_nat ((spatialOrder + 1) * (spatialOrder + 2) / 2))
    as [ | n ] eqn:Hnat; [ lia | ].
  simpl. now rewrite Nat.sub_0_r.
Qed.

(** C7 (as amended): in the kernel returned for a spatial order that is
    not negative, every one of the [ncomp] spatial functions has the
    constant term 1 and all its other coefficients 0. *)
Theorem every_spatial_function_starts_at_one (eigenImages : list Image)
  (eigenValues : list Q) (nEigenComponents spatialOrder : Z) :
  0 <= spatialOrder ->
  let made :=
    createKernelFromPsfCandidates eigenImages eigenValues nEigenComponents
      spatialOrder in
  (is_ok made = true ->
   length (spatial_functions made)
   = Z.to_nat (ncomp_of nEigenComponents (Z.of_nat (length eigenValues)))) /\
  (forall k, (k < length (spatial_functions made))%nat ->
             nth k (spatial_functions made) []
             = 1%Q :: repeat 0%Q
                        (Z.to_nat
                           ((spatialOrder + 1) * (spatialOrder + 2) / 2) - 1)).
Proof.
  intros Horder made. subst made. unfold createKernelFromPsfCandidates.
  destruct (subtract_backgrounds _ 2 eigenImages) as [ims | ];
    [ | split; [ discriminate | simpl; intros k Hk; lia ] ].
  cbn [bind].
  destruct (build_lists _ spatialOrder ims) as [[ks fs] | ] eqn:Hb;
    [ | split; [ discriminate | simpl; intros k Hk; lia ] ].
  cbn [bind fst snd spatial_functions getSpatialParameters].
  apply build_lists_spatial in Hb. subst fs.
  split.
  - intros _. apply repeat_length.
  - intros k Hk. rewrite repeat_length in Hk.
    rewrite nth_repeat_lt by exact Hk.
    now apply polynomial_starts_at_one.
Qed.

Lemma every_spatial_function_starts_at_one_witness :
  (is_ok (createKernelFromPsfCandidates [basis_0; basis_1] [2%Q; 1%Q] 0 1)
   = true ->
   length
     (spatial_functions
        (createKernelFromPsfCandidates [basis_0; basis_1] [2%Q; 1%Q] 0 1))
   = Z.to_nat (ncomp_of 0 (Z.of_nat (length [2%Q; 1%Q])))) /\
  (forall k,
      (k < length
             (spatial_functions
                (createKernelFromPsfCandidates [basis_0; basis_1]
                   [2%Q; 1%Q] 0 1)))%nat ->
      nth k
        (spatial_functions
           (createKernelFromPsfCandidates [basis_0; basis_1] [2%Q; 1%Q] 0 1))
        []
      = 1%Q :: repeat 0%Q (Z.to_nat ((1 + 1) * (1 + 2) / 2) - 1)).
Proof.
  apply (every_spatial_function_starts_at_one [basis_0; basis_1]
           [2%Q; 1%Q] 0 1).
  lia.
Defined.

(** C7 (as stated) fails: with two eigen-images and spatial order 1
    the spatial function #1 has the constant term 1, not 0. *)
Lemma second_spatial_function_starts_at_one :
  spatial_functions
    (createKernelFromPsfCandidates [basis_0; basis_1] [2%Q; 1%Q] 0 1)
  = [[1%Q; 0%Q; 0%Q]; [1%Q; 0%Q; 0%Q]] /\
  nth 0
    (nth 1
       (spatial_functions
          (createKernelFromPsfCandidates [basis_0; basis_1] [2%Q; 1%Q] 0 1))
       [])
    0%Q = 1%Q.
Proof.
  split; vm_compute; reflexivity.
Qed.


(** *** fitKernel *)

Lemma fold_left_rows {A : Type} (g : A -> Z * Z -> A) (xs ys : list Z) :
  forall a,
    fold_left (fun a y => fold_left (fun a x => g a (x, y)) xs a) ys a
    = fold_left g (flat_map (fun y => map (fun x => (x, y)) xs) ys) a.
Proof.
  induction ys as [ | y ys IH ]; intro a; simpl; [ reflexivity | ].
  rewrite fold_left_app, IH. f_equal.
  clear. revert a. induction xs as [ | x xs IHx ]; intro a; simpl;
    [ reflexivity | apply IHx ].
Qed.

Lemma fold_left_filter {A B : Type} (keep : B -> bool) (f g : A -> B -> A)
  (l : list B) :
  (forall a b, f a b = if keep b then g a b else a) ->
  forall a, fold_left f l a = fold_left g (filter keep l) a.
Proof.
  intro Hf. induction l as [ | b l IH ]; intro a; simpl; [ reflexivity | ].
  rewrite Hf. destruct (keep b); simpl; apply IH.
Qed.

Lemma fitKernel_sums_pixels (mImage : Image) (data : MaskedImage) :
  fitKernel_sums mImage data
  = fold_left (fitKernel_step mImage data) (data_pixels data)
      (0%Q, 0%Q, 0%Q).
Proof.
  unfold fitKernel_sums, data_pixels.
  apply (fold_left_rows (fitKernel_step mImage data)).
Qed.

(** C8: for a model and data of the same dimensions, the sums of
    [fitKernel] are the sums over the pixels whose variance is not 0,
    and [fitKernel] throws the range error exactly when the sum of
    model^2 / variance over those pixels is 0. *)
Theorem fitKernel_skips_zero_variance (mImage : Image) (data : MaskedImage) :
  same_dimensions mImage data = true ->
  fitKernel_sums mImage data
  = weighted_sums mImage data (filter (has_variance data) (data_pixels data))
  /\
  (fitKernel mImage data = Err RangeErrorException <->
   (fst (fst (weighted_sums mImage data
                (filter (has_variance data) (data_pixels data)))) == 0)%Q)
  /\
  (forall xy, In xy (data_pixels data) ->
              (variance_at data (fst xy) (snd xy) == 0)%Q ->
              ~ In xy (filter (has_variance data) (data_pixels data))).
Proof.
  intro Hdim.
  assert (Hsums :
    fitKernel_sums mImage data
    = weighted_sums mImage data
        (filter (has_variance data) (data_pixels data))).
  { rewrite fitKernel_sums_pixels. unfold weighted_sums.
    apply fold_left_filter.
    intros [[sumMM sumMD] sumDD] [x y].
    unfold fitKernel_step, has_variance. cbn [fst snd].
    destruct (negb (Qeq_bool (variance_at data x y) 0)); reflexivity. }
  split; [ exact Hsums | ]. split.
  - unfold fitKernel. rewrite <- Hsums, Hdim. cbn [negb].
    destruct (fitKernel_sums mImage data) as [[sumMM sumMD] sumDD].
    cbn [fst]. destruct (Qeq_bool sumMM 0) eqn:Hz.
    + apply Qeq_bool_iff in Hz. tauto.
    + split; [ discriminate | ].
      intro H. apply Qeq_bool_iff in H. congruence.
  - intros xy _ Hvar Hin. apply filter_In in Hin. destruct Hin as [_ Hkeep].
    unfold has_variance in Hkeep. apply negb_true_iff in Hkeep.
    apply Qeq_bool_iff in Hvar. congruence.
Qed.

(** The first basis image against the stamp of the star, but with the
    variance 0 at its centre: nothing is left to sum, and the range
    error is thrown. *)
Lemma fitKernel_skips_zero_variance_witness :
  fitKernel_sums basis_0 stamp_blind
  = weighted_sums basis_0 stamp_blind
      (filter (has_variance stamp_blind) (data_pixels stamp_blind))
  /\
  (fitKernel basis_0 stamp_blind = Err RangeErrorException <->
   (fst (fst (weighted_sums basis_0 stamp_blind
                (filter (has_variance stamp_blind)
                   (data_pixels stamp_blind)))) == 0)%Q)
  /\
  (forall xy, In xy (data_pixels stamp_blind) ->
              (variance_at stamp_blind (fst xy) (snd xy) == 0)%Q ->
              ~ In xy (filter (has_variance stamp_blind)
                         (data_pixels stamp_blind))).
Proof.
  apply (fitKernel_skips_zero_variance basis_0 stamp_blind).
  reflexivity.
Defined.

(** *** fitSpatialKernelFromPsfCandidates *)

(** The linear fit does not read the success flag of the solver. *)
Lemma linear_fit_ignores_solver_flag (E : Externals) (statics : Statics)
  (kernel : Kernel) (psfCells : SpatialCellSet) (nStarPerCell : Z)
  (tolerance : Q) (flag : bool) :
  fitSpatialKernelFromPsfCandidates (with_solver_flag E flag) statics kernel
    psfCells false nStarPerCell tolerance
  = fitSpatialKernelFromPsfCandidates E statics kernel psfCells false
      nStarPerCell tolerance.
Proof.
  unfold fitSpatialKernelFromPsfCandidates, with_solver_flag.
  destruct kernel as [ im | ks ps | n m ps ]; try reflexivity.
  cbn [visitCandidates visitAllCandidates ldlt_solve].
  unfold FillABVisitor, FillAB_processCandidate, basisDotBasis, basisImgs.
  cbn [computeImage innerProduct getDFuncDParameters].
  match goal with
  | |- bind ?c _ = bind ?c _ => destruct c as [[[A b] cells] | ]
  end; [ | reflexivity ].
  cbn [bind].
  destruct (negb _); [ reflexivity | ].
  destruct (ldlt_solve E _ A b) as [solved x]. cbn [snd].
  reflexivity.
Qed.

(** C10: when the call with [doNonLinearFit = false] returns, the flag
    it returns is [true], whatever the solver reported. *)
Theorem linear_fit_reports_valid (E : Externals) (statics : Statics)
  (kernel : Kernel) (psfCells : SpatialCellSet) (nStarPerCell : Z)
  (tolerance : Q) (solved isValid : bool) (chi2 : option Q) :
  fit_outcome
    (fitSpatialKernelFromPsfCandidates (with_solver_flag E solved) statics
       kernel psfCells false nStarPerCell tolerance)
  = Some (isValid, chi2) ->
  isValid = true.
Proof.
  rewrite linear_fit_ignores_solver_flag.
  unfold fitSpatialKernelFromPsfCandidates.
  destruct kernel as [ im | ks ps | n m ps ]; try discriminate.
  match goal with
  | |- fit_outcome (bind ?c _) = _ -> _ => destruct c as [[[A b] cells] | ]
  end; [ | discriminate ].
  cbn [bind].
  destruct (negb _); [ discriminate | ].
  destruct (ldlt_solve E _ A b) as [flag x].
  match goal with
  | |- fit_outcome (bind ?c _) = _ -> _ => destruct c as [kernel' | ]
  end; [ | discriminate ].
  cbn [bind].
  match goal with
  | |- fit_outcome (bind ?c _) = _ -> _ => destruct c as [[chi2' cells'] | ]
  end; [ | discriminate ].
  cbn [bind fit_outcome]. intro H. injection H as <- _. reflexivity.
Qed.

(** A fit of two basis images to one star, with a solver that reports
    failure: the call returns, and the flag is [true]. *)
Lemma linear_fit_reports_valid_witness :
  fit_outcome
    (fitSpatialKernelFromPsfCandidates (with_solver_flag externals_ref false)
       statics_3 kernel_2 [[star]] false 0 1)
  = Some (true, Some 0%Q) /\ true = true.
Proof.
  split; [ vm_compute; reflexivity | ].
  apply (linear_fit_reports_valid externals_ref statics_3 kernel_2 [[star]]
           0 1 false true (Some 0%Q)).
  vm_compute. reflexivity.
Defined.

End SpatialModelPsfFacts.

Module CRMoreFacts.
Import CR CRMore CRFacts.




(** *** Footprints from spans *)

Lemma build_footprints_concat (X0 Y0 : Z) (spans : list IdSpan) :
  forall id cur CRs,
    concat (build_footprints X0 Y0 id cur spans CRs)
    = concat CRs ++ cur ++ map (shifted_span X0 Y0) spans.
Proof.
  induction spans as [ | sp tail IH ]; intros id cur CRs; simpl.
  - now rewrite concat_app, app_nil_r; simpl; rewrite app_nil_r.
  - destruct (negb (isp_id sp =? id)); rewrite IH.
    + rewrite concat_app. simpl. rewrite app_nil_r, <- app_assoc.
      reflexivity.
    + rewrite <- app_assoc. reflexivity.
Qed.

Lemma build_footprints_nonempty (X0 Y0 : Z) (spans : list IdSpan) :
  forall id cur CRs,
    cur <> [] -> Forall (fun fp => fp <> []) CRs ->
    Forall (fun fp : Footprint => fp <> [])
      (build_footprints X0 Y0 id cur spans CRs).
Proof.
  induction spans as [ | sp tail IH ]; intros id cur CRs Hcur HCRs; simpl.
  - apply Forall_app. split; [ exact HCRs | now constructor ].
  - destruct (negb (isp_id sp =? id)); apply IH.
    + discriminate.
    + apply Forall_app. split; [ exact HCRs | now constructor ].
    + destruct cur; discriminate.
    + exact HCRs.
Qed.

(** X2: the Footprints built from a list of spans hold every span once
    and in the order of the list (shifted by the origin of the image),
    and none of them is empty. *)
Theorem footprints_partition_spans (X0 Y0 : Z) (sp : IdSpan)
  (tail : list IdSpan) :
  concat (build_footprints X0 Y0 (isp_id sp) [] (sp :: tail) [])
  = map (shifted_span X0 Y0) (sp :: tail) /\
  Forall (fun fp : Footprint => fp <> [])
    (build_footprints X0 Y0 (isp_id sp) [] (sp :: tail) []).
Proof.
  split.
  - now rewrite build_footprints_concat.
  - cbn [build_footprints]. rewrite Z.eqb_refl. cbn [negb].
    apply build_footprints_nonempty; [ discriminate | constructor ].
Qed.

(** *** The alias table *)

Lemma nth_error_list_set_eq {A : Type} (l : list A) (n : nat) (a : A) :
  (n < length l)%nat -> nth_error (list_set l n a) n = Some a.
Proof.
  revert n. induction l as [ | h t IH ]; intros [ | n ] H; simpl in *;
    try lia; [ reflexivity | apply IH; lia ].
Qed.

Lemma nth_error_list_set_neq {A : Type} (l : list A) (n m : nat) (a : A) :
  n <> m -> nth_error (list_set l n a) m = nth_error l m.
Proof.
  revert n m. induction l as [ | h t IH ]; intros [ | n ] [ | m ] H; simpl;
    try reflexivity; try congruence.
  apply IH. congruence.
Qed.

Lemma length_list_set {A : Type} (l : list A) (n : nat) (a : A) :
  length (list_set l n a) = length l.
Proof.
  revert n. induction l as [ | h t IH ]; intros [ | n ]; simpl;
    try reflexivity. now rewrite IH.
Qed.

Lemma vec_set_ok (v : list Z) (i a : Z) :
  0 <= i < Z.of_nat (length v) ->
  vec_set v i a = Ok (list_set v (Z.to_nat i) a).
Proof.
  intro H. unfold vec_set.
  destruct (i <? 0) eqn:H1; [ apply Z.ltb_lt in H1; lia | ].
  destruct (Z.of_nat (length v) <=? i) eqn:H2;
    [ apply Z.leb_le in H2; lia | reflexivity ].
Qed.

Lemma vec_at_set_eq (v : list Z) (i a : Z) :
  0 <= i < Z.of_nat (length v) ->
  vec_at (list_set v (Z.to_nat i) a) i = Some a.
Proof.
  intro H. unfold vec_at.
  destruct (i <? 0) eqn:H1; [ apply Z.ltb_lt in H1; lia | ].
  apply nth_error_list_set_eq. lia.
Qed.

Lemma vec_at_set_neq (v : list Z) (i j a : Z) :
  0 <= i -> i <> j ->
  vec_at (list_set v (Z.to_nat i) a) j = vec_at v j.
Proof.
  intros Hi Hne. unfold vec_at.
  destruct (j <? 0) eqn:H1; [ reflexivity | ].
  apply Z.ltb_ge in H1. apply nth_error_list_set_neq. lia.
Qed.

(** Hanging one root under another keeps every chain finite. *)
Lemma union_keeps_chains (aliases : list Z) (r1 r2 : Z) :
  vec_at aliases r1 = Some r1 -> vec_at aliases r2 = Some r2 ->
  forall i r, chain_ends aliases i r ->
              exists r', chain_ends (list_set aliases (Z.to_nat r1) r2) i r'.
Proof.
  intros H1 H2.
  assert (Hr1 : 0 <= r1 < Z.of_nat (length aliases))
    by (eapply vec_at_bounds; eassumption).
  induction 1 as [id Hid | id a r Hid Hne _ [r' IH]].
  - destruct (Z.eq_dec id r1) as [-> | Hneq].
    + destruct (Z.eq_dec r2 r1) as [-> | Hneq2].
      * exists r1. apply chain_fixed. now apply vec_at_set_eq.
      * exists r2. apply (chain_step _ r1 r2 r2).
        -- now apply vec_at_set_eq.
        -- exact Hneq2.
        -- apply chain_fixed. rewrite vec_at_set_neq; [ exact H2 | lia | ].
           congruence.
    + exists id. apply chain_fixed.
      rewrite vec_at_set_neq; [ exact Hid | lia | congruence ].
  - exists r'. apply (chain_step _ id a r'); [ | exact Hne | exact IH ].
    rewrite vec_at_set_neq; [ exact Hid | lia | ].
    intros ->. congruence.
Qed.

Lemma union_keeps_all_chains (aliases : list Z) (r1 r2 : Z) :
  vec_at aliases r1 = Some r1 -> vec_at aliases r2 = Some r2 ->
  all_chains_end aliases ->
  all_chains_end (list_set aliases (Z.to_nat r1) r2).
Proof.
  intros H1 H2 Hall i Hi. rewrite length_list_set in Hi.
  destruct (Hall i Hi) as [r Hr].
  eapply union_keeps_chains; eassumption.
Qed.

Lemma chain_ends_fixed (aliases : list Z) (i r : Z) :
  chain_ends aliases i r -> vec_at aliases r = Some r.
Proof. induction 1; assumption. Qed.

Lemma touch_inner_keeps_chains (sp : IdSpan) (tail : list IdSpan) :
  forall aliases,
    all_chains_end aliases ->
    0 <= isp_id sp < Z.of_nat (length aliases) ->
    ids_in_table aliases tail ->
    exists aliases',
      touch_inner sp tail aliases = Ok aliases' /\
      length aliases' = length aliases /\ all_chains_end aliases'.
Proof.
  induction tail as [ | sp2 tail IH ]; intros aliases Hall Hsp Htail; simpl.
  - exists aliases. auto.
  - inversion Htail as [ | ? ? Hsp2 Htail' ]; subst.
    destruct (isp_y sp2 =? isp_y sp); [ now apply IH | ].
    destruct (_ || _); [ exists aliases; auto | ].
    destruct (isp_x1 sp2 >=? isp_x0 sp - 1); [ | now apply IH ].
    destruct (Hall _ Hsp) as [r1 Hr1]. destruct (Hall _ Hsp2) as [r2 Hr2].
    rewrite (resolve_alias_total _ _ _ Hr1). cbn [bind].
    rewrite (resolve_alias_total _ _ _ Hr2). cbn [bind].
    apply chain_ends_fixed in Hr1, Hr2.
    rewrite vec_set_ok by (eapply vec_at_bounds; eassumption). cbn [bind].
    destruct (IH (list_set aliases (Z.to_nat r1) r2)) as [a' [Ha' [Hlen Hch]]].
    + now apply union_keeps_all_chains.
    + now rewrite length_list_set.
    + unfold ids_in_table. rewrite length_list_set. exact Htail'.
    + exists a'. rewrite length_list_set in Hlen. auto.
Qed.

Lemma touch_outer_keeps_chains (spans : list IdSpan) :
  forall aliases,
    all_chains_end aliases -> ids_in_table aliases spans ->
    exists aliases',
      touch_outer spans aliases = Ok aliases' /\
      length aliases' = length aliases /\ all_chains_end aliases'.
Proof.
  induction spans as [ | sp tail IH ]; intros aliases Hall Hids; simpl.
  - exists aliases. auto.
  - inversion Hids as [ | ? ? Hsp Htail ]; subst.
    destruct (touch_inner_keeps_chains sp tail aliases Hall Hsp Htail)
      as [a1 [H1 [Hlen1 Hch1]]].
    rewrite H1. cbn [bind].
    destruct (IH a1 Hch1) as [a2 [H2 [Hlen2 Hch2]]].
    + unfold ids_in_table. rewrite Hlen1. exact Htail.
    + exists a2. split; [ exact H2 | ]. split; [ congruence | exact Hch2 ].
Qed.

Lemma resolve_spans_roots (aliases : list Z) (spans : list IdSpan) :
  all_chains_end aliases -> ids_in_table aliases spans ->
  exists spans',
    resolve_spans aliases spans = Ok spans' /\
    map span_extent spans' = map span_extent spans /\
    Forall (fun sp => vec_at aliases (isp_id sp) = Some (isp_id sp)) spans'.
Proof.
  intros Hall. induction spans as [ | sp tail IH ]; intro Hids; simpl.
  - exists []. auto.
  - inversion Hids as [ | ? ? Hsp Htail ]; subst.
    destruct (Hall _ Hsp) as [r Hr].
    rewrite (resolve_alias_total _ _ _ Hr). cbn [bind].
    destruct (IH Htail) as [tail' [Ht [Hext Hroots]]].
    rewrite Ht. cbn [bind]. eexists. split; [ reflexivity | ]. split.
    + cbn [map]. f_equal. exact Hext.
    + constructor; [ | exact Hroots ]. cbn [isp_id].
      eapply chain_ends_fixed. exact Hr.
Qed.

(** X3: on an alias table whose chains all end, and spans whose ids
    index it, merging the touching spans never fails and leaves a table
    of the same length whose chains all end; resolving the spans through
    it then succeeds, keeps rows and columns, and gives every span an id
    that is its own alias. *)
Theorem alias_merging_never_fails (aliases : list Z) (spans : list IdSpan) :
  all_chains_end aliases -> ids_in_table aliases spans ->
  exists aliases' spans',
    touch_outer spans aliases = Ok aliases' /\
    length aliases' = length aliases /\
    all_chains_end aliases' /\
    resolve_spans aliases' spans = Ok spans' /\
    map span_extent spans' = map span_extent spans /\
    Forall (fun sp => vec_at aliases' (isp_id sp) = Some (isp_id sp)) spans'.
Proof.
  intros Hall Hids.
  destruct (touch_outer_keeps_chains spans aliases Hall Hids)
    as [a' [Ha [Hlen Hch]]].
  destruct (resolve_spans_roots a' spans Hch) as [s' [Hs [Hext Hroots]]].
  - unfold ids_in_table. rewrite Hlen. exact Hids.
  - exists a', s'. auto 10.
Qed.

Lemma identity_table_chains_end :
  all_chains_end [0; 1; 2].
Proof.
  intros i Hi. cbn [length Z.of_nat] in Hi. exists i.
  apply chain_fixed.
  assert (Hc : i = 0 \/ i = 1 \/ i = 2) by lia.
  destruct Hc as [-> | [-> | ->]]; reflexivity.
Defined.

(** Two spans that touch at a corner, in the table [0; 1; 2]. *)
Lemma alias_merging_never_fails_witness :
  exists aliases' spans',
    touch_outer [mkIdSpan 1 3 3 3; mkIdSpan 2 4 4 4] [0; 1; 2]
    = Ok aliases' /\
    length aliases' = length [0; 1; 2] /\
    all_chains_end aliases' /\
    resolve_spans aliases' [mkIdSpan 1 3 3 3; mkIdSpan 2 4 4 4]
    = Ok spans' /\
    map span_extent spans'
    = map span_extent [mkIdSpan 1 3 3 3; mkIdSpan 2 4 4 4] /\
    Forall (fun sp => vec_at aliases' (isp_id sp) = Some (isp_id sp)) spans'.
Proof.
  apply (alias_merging_never_fails [0; 1; 2]
           [mkIdSpan 1 3 3 3; mkIdSpan 2 4 4 4]).
  - exact identity_table_chains_end.
  - repeat constructor; cbn; lia.
Defined.


(** *** The span loop *)

Lemma identity_table_snoc (n : nat) :
  identity_table (S n) = identity_table n ++ [Z.of_nat (S n)].
Proof.
  unfold identity_table. rewrite (seq_S (S n) 0), map_app. reflexivity.
Qed.

Lemma spans_width_snoc (spans : list IdSpan) (sp : IdSpan) :
  spans_width (spans ++ [sp])
  = spans_width spans + (isp_x1 sp - isp_x0 sp + 1).
Proof.
  induction spans as [ | s spans IH ]; simpl; [ lia | ].
  unfold spans_width in IH |- *. simpl. rewrite IH. lia.
Qed.

Lemma span_scan_invariant (rest : list CRPixel) :
  forall (crp : CRPixel) (ss : SpanScan),
    Forall (fun c => crp_id c < 0) rest ->
    nonneg_then_dummy (crp :: rest) ->
    scan_inv ss ->
    (crp_id crp < 0 /\
     spans_width (ss_spans ss) = Z.of_nat (length (ss_seen ss))) \/
    (run_open crp ss /\
     spans_width (ss_spans ss) + (ss_x1 ss - ss_x0 ss)
     = Z.of_nat (length (ss_seen ss))) ->
    (rest = [] -> crp_id crp < 0) ->
    exists ss',
      span_scan crp rest ss = Ok ss' /\
      scan_inv ss' /\
      spans_width (ss_spans ss') + 1 = Z.of_nat (length (ss_seen ss')) /\
      map crp_data (ss_seen ss')
      = map crp_data (ss_seen ss) ++ map crp_data (crp :: rest).
Proof.
  induction rest as [ | next rest' IH ];
    intros crp ss Hfresh Hpos Hinv Hrun Hlast.
  - cbn [span_scan]. eexists. split; [ reflexivity | ].
    cbn [ss_ncr ss_aliases ss_spans ss_seen].
    specialize (Hlast eq_refl).
    destruct Hrun as [[_ Hcount] | [[Hid _] _]].
    + split; [ exact Hinv | ]. split.
      * rewrite length_app. cbn [length]. lia.
      * now rewrite map_app.
    + destruct Hinv as [Hncr _]. lia.
  - cbn [nonneg_then_dummy] in Hpos.
    destruct Hpos as [Hrow [Hcol Hpos']].
    inversion Hfresh as [ | ? ? Hnext Hfresh' ]; subst.
    (* after the first [if]: the run of [crp] is open *)
    assert (Hopen : exists crp1 ss1,
      (let '(c, ncr, aliases, y, x0, x1) :=
         if crp_id crp <? 0 then
           (set_crp_id crp (ss_ncr ss + 1), ss_ncr ss + 1,
            ss_aliases ss ++ [ss_ncr ss + 1],
            crp_row crp, crp_col crp, crp_col crp)
         else (crp, ss_ncr ss, ss_aliases ss, ss_y ss, ss_x0 ss, ss_x1 ss) in
       (c, mkSpanScan ncr aliases y x0 x1 (ss_spans ss) (ss_seen ss)))
      = (crp1, ss1) /\
      crp_data crp1 = crp_data crp /\ scan_inv ss1 /\ run_open crp1 ss1 /\
      ss_spans ss1 = ss_spans ss /\ ss_seen ss1 = ss_seen ss /\
      spans_width (ss_spans ss) + (ss_x1 ss1 - ss_x0 ss1)
      = Z.of_nat (length (ss_seen ss))).
    { destruct Hinv as [Hncr [Hal Hsp]].
      destruct (crp_id crp <? 0) eqn:Hf.
      - do 2 eexists. split; [ reflexivity | ].
        destruct Hrun as [[_ Hcount] | [[Hid _] _]];
          [ | apply Z.ltb_lt in Hf; lia ].
        split; [ reflexivity | ]. split.
        + unfold scan_inv. cbn [ss_ncr ss_aliases ss_spans].
          split; [ lia | ]. split.
          * replace (Z.to_nat (ss_ncr ss + 1)) with (S (Z.to_nat (ss_ncr ss)))
              by lia.
            rewrite identity_table_snoc, Hal. do 2 f_equal. lia.
          * eapply Forall_impl; [ | exact Hsp ]. cbn beta. intros sp. lia.
        + split; [ | split; [ reflexivity | split; [ reflexivity | ] ] ].
          * unfold run_open.
            cbn [crp_id set_crp_id ss_ncr ss_y ss_x0 ss_x1 crp_row crp_col].
            lia.
          * cbn [ss_x0 ss_x1]. lia.
      - do 2 eexists. split; [ reflexivity | ].
        apply Z.ltb_ge in Hf.
        destruct Hrun as [[Hid _] | [Hop Hcount]]; [ lia | ].
        split; [ reflexivity | ]. split; [ exact (conj Hncr (conj Hal Hsp)) | ].
        split; [ exact Hop | ].
        split; [ reflexivity | split; [ reflexivity | exact Hcount ] ]. }
    destruct Hopen as [crp1 [ss1 [Heq [Hdata [Hinv1 [Hop1 [Hsp1 [Hseen1 Hcount1]]]]]]]].
    cbn [span_scan].
    destruct (if crp_id crp <? 0 then _ else _)
      as [[[[[c ncr] aliases] y] x0] x1] eqn:Hif.
    injection Heq as -> Hss1.
    assert (Hncr1 : ss_ncr ss1 = ncr) by (rewrite <- Hss1; reflexivity).
    assert (Hal1 : ss_aliases ss1 = aliases) by (rewrite <- Hss1; reflexivity).
    assert (Hy1 : ss_y ss1 = y) by (rewrite <- Hss1; reflexivity).
    assert (Hx01 : ss_x0 ss1 = x0) by (rewrite <- Hss1; reflexivity).
    assert (Hx11 : ss_x1 ss1 = x1) by (rewrite <- Hss1; reflexivity).
    assert (Hrc : crp_row crp1 = crp_row crp /\ crp_col crp1 = crp_col crp).
    { unfold crp_data in Hdata. injection Hdata as -> -> _ _. auto. }
    destruct Hrc as [Hr1 Hc1].
    destruct Hop1 as [Hid1 [Hge1 [Hyr [Hxc [Hx0x1 Hy0]]]]].
    destruct Hinv1 as [Hncr0 [Halias Hspans]].
    destruct ((crp_row next =? crp_row crp1) && (crp_col next =? crp_col crp1 + 1))
      eqn:Hadj.
    + (* the next pixel continues the span *)
      apply andb_true_iff in Hadj. destruct Hadj as [Hrow' Hcol'].
      apply Z.eqb_eq in Hrow', Hcol'.
      assert (Hrest' : rest' <> []).
      { intros ->. cbn [nonneg_then_dummy] in Hpos'. lia. }
      destruct (IH (set_crp_id next (crp_id crp1))
                  (mkSpanScan ncr aliases y x0 (x1 + 1) (ss_spans ss)
                     (ss_seen ss ++ [crp1])))
        as [ss' [Hok [Hinv' [Hcount' Hdata']]]].
      * exact Hfresh'.
      * destruct rest' as [ | r rest'' ]; [ congruence | ].
        cbn [nonneg_then_dummy] in Hpos' |- *. exact Hpos'.
      * unfold scan_inv. cbn [ss_ncr ss_aliases ss_spans].
        rewrite <- Hncr1, <- Hal1, <- Hsp1. auto.
      * right. split.
        -- unfold run_open.
           cbn [crp_id set_crp_id ss_ncr ss_y ss_x0 ss_x1 crp_row crp_col].
           lia.
        -- cbn [ss_spans ss_seen ss_x0 ss_x1]. rewrite length_app.
           cbn [length]. lia.
      * intro. contradiction.
      * exists ss'. split; [ exact Hok | ]. split; [ exact Hinv' | ].
        split; [ exact Hcount' | ].
        rewrite Hdata'. cbn [ss_seen]. rewrite map_app, <- app_assoc.
        cbn [map app]. rewrite Hdata. reflexivity.
    + (* the span ends here *)
      assert (Hassert : (y >=? 0) && (x0 >=? 0) && (x1 >=? 0) = true).
      { rewrite !andb_true_iff. repeat split; apply Z.geb_le; lia. }
      rewrite Hassert.
      destruct (IH next
                  (mkSpanScan ncr aliases y x0 x1
                     (ss_spans ss ++ [mkIdSpan (crp_id crp1) y x0 x1])
                     (ss_seen ss ++ [crp1])))
        as [ss' [Hok [Hinv' [Hcount' Hdata']]]].
      * exact Hfresh'.
      * exact Hpos'.
      * unfold scan_inv. cbn [ss_ncr ss_aliases ss_spans].
        split; [ lia | ]. split; [ congruence | ].
        apply Forall_app. split.
        -- rewrite <- Hsp1, <- Hncr1. exact Hspans.
        -- constructor; [ | constructor ].
           cbn [isp_id isp_y isp_x0 isp_x1]. lia.
      * left. split; [ exact Hnext | ].
        cbn [ss_spans ss_seen]. rewrite spans_width_snoc, length_app.
        cbn [length isp_x0 isp_x1]. lia.
      * intro. exact Hnext.
      * exists ss'. split; [ exact Hok | ]. split; [ exact Hinv' | ].
        split; [ exact Hcount' | ].
        rewrite Hdata'. cbn [ss_seen]. rewrite map_app, <- app_assoc.
        cbn [map app]. rewrite Hdata. reflexivity.
Qed.


Lemma span_scan_from_start (crp : CRPixel) (rest : list CRPixel) :
  Forall (fun c => crp_id c < 0) (crp :: rest) ->
  nonneg_then_dummy (crp :: rest) ->
  exists ss,
    span_scan crp rest scan_start = Ok ss /\
    scan_inv ss /\
    spans_width (ss_spans ss) = Z.of_nat (length rest) /\
    map crp_data (ss_seen ss) = map crp_data (crp :: rest).
Proof.
  intros Hfresh Hpos.
  inversion Hfresh as [ | ? ? Hcrp Hrest ]; subst.
  destruct (span_scan_invariant rest crp scan_start Hrest Hpos)
    as [ss [Hok [Hinv [Hcount Hdata]]]].
  - unfold scan_inv, scan_start. cbn. repeat split; try lia. constructor.
  - left. split; [ exact Hcrp | reflexivity ].
  - intros _. exact Hcrp.
  - exists ss. split; [ exact Hok | ]. split; [ exact Hinv | ].
    split; [ | exact Hdata ].
    apply (f_equal (@length _)) in Hdata.
    rewrite length_app, !length_map in Hdata.
    cbn [scan_start ss_seen length] in Hdata. lia.
Qed.

(** X4: on a vector of pixels that carry no id yet, at non-negative
    positions and closed by the dummy, the span loop does not fail; it
    leaves the alias table [0; 1; ...; ncr], spans with ids from 1 to
    [ncr] and [x0 <= x1] that hold as many pixels as the vector has
    before the dummy, and changes nothing of the pixels but their ids. *)
Theorem span_scan_labels_every_pixel (crp : CRPixel) (rest : list CRPixel) :
  Forall (fun c => crp_id c < 0) (crp :: rest) ->
  nonneg_then_dummy (crp :: rest) ->
  exists ss,
    span_scan crp rest scan_start = Ok ss /\
    scan_inv ss /\
    spans_width (ss_spans ss) = Z.of_nat (length rest) /\
    map crp_data (ss_seen ss) = map crp_data (crp :: rest).
Proof. exact (span_scan_from_start crp rest). Qed.

Lemma span_scan_labels_every_pixel_witness :
  exists ss,
    span_scan (mkCRPixel (-1) 3 3 1000 1)
      [mkCRPixel (-1) 4 3 7 2; mkCRPixel (-1) 0 (-1) 0 3] scan_start = Ok ss /\
    scan_inv ss /\
    spans_width (ss_spans ss)
    = Z.of_nat (length [mkCRPixel (-1) 4 3 7 2; mkCRPixel (-1) 0 (-1) 0 3]) /\
    map crp_data (ss_seen ss)
    = map crp_data
        [mkCRPixel (-1) 3 3 1000 1; mkCRPixel (-1) 4 3 7 2;
         mkCRPixel (-1) 0 (-1) 0 3].
Proof.
  apply (span_scan_labels_every_pixel (mkCRPixel (-1) 3 3 1000 1)
           [mkCRPixel (-1) 4 3 7 2; mkCRPixel (-1) 0 (-1) 0 3]).
  - repeat constructor; cbn; lia.
  - cbn. lia.
Defined.

(** *** From the pixels to the Footprints *)

Lemma identity_table_chains (n : nat) : all_chains_end (identity_table n).
Proof.
  intros i Hi. exists i. apply chain_fixed.
  unfold identity_table in *. rewrite length_map, length_seq in Hi.
  unfold vec_at. destruct (i <? 0) eqn:Hneg; [ apply Z.ltb_lt in Hneg; lia | ].
  rewrite nth_error_map, nth_error_seq.
  destruct (Z.to_nat i <? S n)%nat eqn:Hlt.
  - cbn. f_equal. lia.
  - apply Nat.ltb_ge in Hlt. lia.
Qed.

Lemma scan_inv_ids (ss : SpanScan) :
  scan_inv ss -> ids_in_table (ss_aliases ss) (ss_spans ss).
Proof.
  intros [Hncr [Hal Hsp]]. unfold ids_in_table.
  eapply Forall_impl; [ | exact Hsp ]. cbn beta. intros sp H.
  rewrite Hal. unfold identity_table. rewrite length_map, length_seq. lia.
Qed.

Lemma spans_width_extent (a b : list IdSpan) :
  map span_extent a = map span_extent b -> spans_width a = spans_width b.
Proof.
  revert b. induction a as [ | x a IH ]; intros [ | y b ] H;
    try discriminate; [ reflexivity | ].
  cbn [map] in H. unfold span_extent at 1 3 in H.
  injection H as _ Hx0 Hx1 Ha. unfold spans_width. cbn [fold_right].
  fold (spans_width a). fold (spans_width b).
  rewrite (IH _ Ha), Hx0, Hx1. reflexivity.
Qed.

Lemma spans_width_insert (a : IdSpan) (l : list IdSpan) :
  spans_width (insert_by IdSpanCompar a l)
  = isp_x1 a - isp_x0 a + 1 + spans_width l.
Proof.
  induction l as [ | b l IH ]; cbn [insert_by]; [ reflexivity | ].
  destruct (IdSpanCompar a b); [ reflexivity | ].
  unfold spans_width in *. cbn [fold_right]. rewrite IH. lia.
Qed.

Lemma spans_width_sort (l : list IdSpan) :
  spans_width (sort_by IdSpanCompar l) = spans_width l.
Proof.
  unfold sort_by.
  assert (H : forall acc,
             spans_width (fold_left (fun s a => insert_by IdSpanCompar a s) l acc)
             = spans_width acc + spans_width l).
  { induction l as [ | a l IH ]; intro acc; cbn [fold_left].
    - unfold spans_width at 3. cbn. lia.
    - rewrite IH, spans_width_insert. unfold spans_width at 4.
      cbn [fold_right]. fold (spans_width l). lia. }
  rewrite H. reflexivity.
Qed.

Lemma getNpix_from (fp : Footprint) :
  forall n, fold_left (fun n sp => n + (getSpanX1 sp - getSpanX0 sp + 1)) fp n
            = n + getNpix fp.
Proof.
  unfold getNpix. induction fp as [ | sp fp IH ]; intro n; cbn [fold_left].
  - lia.
  - rewrite IH, (IH (0 + _)). lia.
Qed.

Lemma getNpix_shifted (X0 Y0 : Z) (spans : list IdSpan) :
  getNpix (map (shifted_span X0 Y0) spans) = spans_width spans.
Proof.
  induction spans as [ | sp spans IH ]; [ reflexivity | ].
  unfold getNpix. cbn [map fold_left]. rewrite getNpix_from, IH.
  unfold spans_width. cbn [fold_right shifted_span getSpanX0 getSpanX1]. lia.
Qed.

Lemma footprints_of_spans_npix (X0 Y0 : Z) (spans : list IdSpan) :
  getNpix (concat (footprints_of_spans X0 Y0 spans)) = spans_width spans.
Proof.
  destruct spans as [ | sp tail ]; [ reflexivity | ].
  unfold footprints_of_spans.
  rewrite build_footprints_concat. apply getNpix_shifted.
Qed.

(** X5: from such a vector of pixels, the span loop, the merging of the
    touching spans and the resolution of the ids all succeed, and the
    Footprints built from the sorted spans hold, between them, exactly
    as many pixels as the vector has before the dummy. *)
Theorem labelling_never_fails (X0 Y0 : Z) (crp : CRPixel)
  (rest : list CRPixel) :
  Forall (fun c => crp_id c < 0) (crp :: rest) ->
  nonneg_then_dummy (crp :: rest) ->
  exists ss aliases spans,
    span_scan crp rest scan_start = Ok ss /\
    touch_outer (ss_spans ss) (ss_aliases ss) = Ok aliases /\
    resolve_spans aliases (ss_spans ss) = Ok spans /\
    getNpix (concat (footprints_of_spans X0 Y0 (sort_by IdSpanCompar spans)))
    = Z.of_nat (length rest).
Proof.
  intros Hfresh Hpos.
  destruct (span_scan_from_start crp rest Hfresh Hpos)
    as [ss [Hok [Hinv [Hcount _]]]].
  assert (Hch : all_chains_end (ss_aliases ss)).
  { destruct Hinv as [_ [-> _]]. apply identity_table_chains. }
  pose proof (scan_inv_ids ss Hinv) as Hids.
  destruct (touch_outer_keeps_chains (ss_spans ss) (ss_aliases ss) Hch Hids)
    as [aliases [Ht [Hlen Hch']]].
  destruct (resolve_spans_roots aliases (ss_spans ss) Hch')
    as [spans [Hr [Hext _]]].
  - unfold ids_in_table. rewrite Hlen. exact Hids.
  - exists ss, aliases, spans. repeat split; try assumption.
    rewrite footprints_of_spans_npix, spans_width_sort.
    rewrite (spans_width_extent _ _ Hext). exact Hcount.
Qed.

Lemma labelling_never_fails_witness :
  exists ss aliases spans,
    span_scan (mkCRPixel (-1) 3 3 1000 1)
      [mkCRPixel (-1) 4 4 7 2; mkCRPixel (-1) 0 (-1) 0 3] scan_start = Ok ss /\
    touch_outer (ss_spans ss) (ss_aliases ss) = Ok aliases /\
    resolve_spans aliases (ss_spans ss) = Ok spans /\
    getNpix (concat (footprints_of_spans 0 0 (sort_by IdSpanCompar spans)))
    = Z.of_nat (length [mkCRPixel (-1) 4 4 7 2; mkCRPixel (-1) 0 (-1) 0 3]).
Proof.
  apply (labelling_never_fails 0 0 (mkCRPixel (-1) 3 3 1000 1)
           [mkCRPixel (-1) 4 4 7 2; mkCRPixel (-1) 0 (-1) 0 3]).
  - repeat constructor; cbn; lia.
  - cbn. lia.
Defined.


(** *** The sweep *)

Lemma fold_zrange_inv {T : Type} (f : T -> Z -> T) (P : Z -> T -> Prop)
  (n : nat) :
  forall lo s,
    P lo s ->
    (forall z s, lo <= z < lo + Z.of_nat n -> P z s -> P (z + 1) (f s z)) ->
    P (lo + Z.of_nat n) (fold_left f (zrange lo n) s).
Proof.
  induction n as [ | n IH ]; intros lo s H0 Hstep.
  - cbn [zrange fold_left]. now replace (lo + Z.of_nat 0) with lo by lia.
  - cbn [zrange fold_left].
    replace (lo + Z.of_nat (S n)) with (lo + 1 + Z.of_nat n) by lia.
    apply IH.
    + apply Hstep; [ lia | exact H0 ].
    + intros z s' Hz. apply Hstep. lia.
Qed.

Lemma StronglySorted_snoc {A : Type} (R : A -> A -> Prop) (l : list A)
  (c : A) :
  StronglySorted R l -> Forall (fun a => R a c) l ->
  StronglySorted R (l ++ [c]).
Proof.
  induction 1 as [ | a l Hs IH Ha ]; intro Hall; cbn [app].
  - constructor; constructor.
  - inversion Hall as [ | ? ? Hac Hall' ]; subst.
    constructor; [ now apply IH | ].
    apply Forall_app. split; [ exact Ha | now constructor ].
Qed.

Lemma sweep_inv_later (badMask : Z) (mi0 : MaskedImage) (b b' : Z * Z)
  (st : State) :
  (forall p, scan_lt p b -> scan_lt p b') ->
  sweep_inv badMask mi0 b st -> sweep_inv badMask mi0 b' st.
Proof.
  intros Hlt [Hf [Hm [Hrec [Hord Himg]]]].
  repeat split; try assumption; try apply Hf.
  eapply Forall_impl; [ | exact Hrec ]. cbn beta. intros c [H1 H2]. auto.
Qed.

Lemma sweep_step (E : Externals) (badMask : Z) (mi0 : MaskedImage)
  (min_sigma : Z) (thres_h thres_v thres_d bkgd e_per_dn cond3_fac : Q)
  (i j : Z) (st : State) :
  1 <= i <= getWidth mi0 - 2 -> 1 <= j <= getHeight mi0 - 2 ->
  sweep_inv badMask mi0 (i, j) st ->
  sweep_inv badMask mi0 (i + 1, j)
    (let mi := st_mimage st in
     match is_cr_pixel E mi i j min_sigma thres_h thres_v thres_d
             bkgd e_per_dn cond3_fac with
     | None => st
     | Some corr =>
         if nonzero (Z.land (mask_at mi i j) badMask) then st
         else
           let st1 := push_CRPixel st i j (image_at mi i j) (-1) in
           with_mimage st1 (set_image (st_mimage st1) i j corr)
     end).
Proof.
  intros Hi Hj Hinv.
  assert (Hweak : sweep_inv badMask mi0 (i + 1, j) st).
  { eapply sweep_inv_later; [ | exact Hinv ].
    unfold scan_lt. cbn [fst snd]. intros p. lia. }
  cbn zeta.
  destruct (is_cr_pixel _ _ _ _ _ _ _ _ _ _ _) as [corr | ];
    [ | exact Hweak ].
  destruct (nonzero _) eqn:Hbad; [ exact Hweak | ].
  clear Hweak. destruct Hinv as [Hf [Hm [Hrec [Hord Himg]]]].
  assert (Hnew : ~ In (i, j) (map crp_pos (st_crpixels st))).
  { intro Hin. apply in_map_iff in Hin. destruct Hin as [c [Hc Hin]].
    rewrite Forall_forall in Hrec. destruct (Hrec c Hin) as [_ Hlt].
    rewrite Hc in Hlt. unfold scan_lt in Hlt. cbn [fst snd] in Hlt. lia. }
  unfold sweep_inv, push_CRPixel, with_mimage.
  cbn [st_mimage st_crpixels st_i st_rand].
  split; [ exact Hf | ]. split; [ exact Hm | ]. split; [ | split ].
  - apply Forall_app. split.
    + eapply Forall_impl; [ | exact Hrec ]. cbn beta. intros c [H1 H2].
      split; [ exact H1 | ]. unfold scan_lt in *. cbn [fst snd] in *. lia.
    + constructor; [ | constructor ]. split.
      * unfold recorded_from. cbn [crp_id crp_col crp_row crp_val].
        repeat split; try lia.
        -- unfold nonzero in Hbad. apply negb_false_iff in Hbad.
           apply Z.eqb_eq in Hbad. now rewrite <- (Hm i j).
        -- now rewrite (Himg i j Hnew).
      * unfold scan_lt, crp_pos. cbn [fst snd crp_col crp_row]. lia.
  - apply StronglySorted_snoc; [ exact Hord | ].
    eapply Forall_impl; [ | exact Hrec ]. cbn beta. intros c [_ H2].
    exact H2.
  - intros x y Hnot. rewrite map_app, in_app_iff in Hnot.
    cbn [map In crp_pos crp_col crp_row] in Hnot.
    unfold set_image, plane_set, same_pixel. cbn [image_at].
    destruct ((x =? i) && (y =? j)) eqn:Hsame.
    + apply andb_true_iff in Hsame. destruct Hsame as [Hx Hy].
      apply Z.eqb_eq in Hx, Hy. subst. tauto.
    + apply Himg. tauto.
Qed.

Lemma initial_sweep_inv (E : Externals) (st0 : State) (min_sigma : Z)
  (thres_h thres_v thres_d bkgd e_per_dn cond3_fac : Q) (badMask : Z) :
  st_crpixels st0 = [] ->
  exists bound,
    sweep_inv badMask (st_mimage st0) bound
      (initial_sweep E st0 min_sigma thres_h thres_v thres_d bkgd e_per_dn
         cond3_fac badMask).
Proof.
  intro Hempty. unfold initial_sweep, for_range.
  set (mi0 := st_mimage st0).
  set (ncol := getWidth mi0). set (nrow := getHeight mi0).
  eexists.
  apply (fold_zrange_inv _ (fun j st => sweep_inv badMask mi0 (1, j) st)).
  - unfold sweep_inv. rewrite Hempty.
    repeat split; solve [ constructor | intros; reflexivity ].
  - intros j st Hj Hinv.
    assert (Hrow : 1 <= j <= nrow - 2) by lia.
    eapply sweep_inv_later;
      [ | apply (fold_zrange_inv _
                   (fun i st => sweep_inv badMask mi0 (i, j) st));
          [ exact Hinv | ] ].
    + unfold scan_lt. cbn [fst snd]. intros p. lia.
    + intros i st' Hi Hinv'.
      apply sweep_step; [ fold ncol; lia | fold nrow; lia | exact Hinv' ].
Qed.

(** X6: the sweep changes nothing of the image but the values of the
    pixels it records, leaves the origin, the size, the variance and the
    mask as they are, and records no pixel of the edge. *)
Theorem initial_sweep_frame (E : Externals) (st0 : State) (min_sigma : Z)
  (thres_h thres_v thres_d bkgd e_per_dn cond3_fac : Q) (badMask : Z) :
  st_crpixels st0 = [] ->
  let st := initial_sweep E st0 min_sigma thres_h thres_v thres_d bkgd
              e_per_dn cond3_fac badMask in
  same_frame (st_mimage st0) (st_mimage st) /\
  same_mask (st_mimage st0) (st_mimage st) /\
  (forall x y, ~ In (x, y) (map crp_pos (st_crpixels st)) ->
               image_at (st_mimage st) x y = image_at (st_mimage st0) x y) /\
  (forall x y, In (x, y) (map crp_pos (st_crpixels st)) ->
               1 <= x <= getWidth (st_mimage st0) - 2 /\
               1 <= y <= getHeight (st_mimage st0) - 2).
Proof.
  intros Hempty st.
  destruct (initial_sweep_inv E st0 min_sigma thres_h thres_v thres_d bkgd
              e_per_dn cond3_fac badMask Hempty)
    as [bound [Hf [Hm [Hrec [Hord Himg]]]]].
  fold st in Hf, Hm, Hrec, Hord, Himg.
  repeat split; try assumption; try apply Hf.
  - apply in_map_iff in H. destruct H as [c [Hc Hin]].
    rewrite Forall_forall in Hrec. destruct (Hrec c Hin) as [Hr _].
    unfold crp_pos in Hc. injection Hc as <- <-. apply Hr.
  - apply in_map_iff in H. destruct H as [c [Hc Hin]].
    rewrite Forall_forall in Hrec. destruct (Hrec c Hin) as [Hr _].
    unfold crp_pos in Hc. injection Hc as <- <-. apply Hr.
  - apply in_map_iff in H. destruct H as [c [Hc Hin]].
    rewrite Forall_forall in Hrec. destruct (Hrec c Hin) as [Hr _].
    unfold crp_pos in Hc. injection Hc as <- <-. apply Hr.
  - apply in_map_iff in H. destruct H as [c [Hc Hin]].
    rewrite Forall_forall in Hrec. destruct (Hrec c Hin) as [Hr _].
    unfold crp_pos in Hc. injection Hc as <- <-. apply Hr.
Qed.


Lemma initial_sweep_frame_witness :
  same_frame image_S1 (st_mimage sweep_S1) /\
  same_mask image_S1 (st_mimage sweep_S1) /\
  (forall x y, ~ In (x, y) (map crp_pos (st_crpixels sweep_S1)) ->
               image_at (st_mimage sweep_S1) x y = image_at image_S1 x y) /\
  (forall x y, In (x, y) (map crp_pos (st_crpixels sweep_S1)) ->
               1 <= x <= getWidth image_S1 - 2 /\
               1 <= y <= getHeight image_S1 - 2).
Proof.
  apply (initial_sweep_frame externals_ref (state_of image_S1) 5 1 1 (1 # 2)
           0 1 2 badMask_ref).
  reflexivity.
Defined.



(** *** Putting the pixels back *)

Lemma reinstate_fold (mi0 : MaskedImage) (l : list CRPixel) :
  Forall (fun c => (crp_val c == image_at mi0 (crp_col c) (crp_row c))%Q) l ->
  forall m x y,
    getX0 m = 0 -> getY0 m = 0 ->
    let m' := fold_left
                (fun m crp =>
                   set_image m (crp_col crp - getX0 m) (crp_row crp - getY0 m)
                     (crp_val crp)) l m in
    (In (x, y) (map crp_pos l) -> (image_at m' x y == image_at mi0 x y)%Q) /\
    (~ In (x, y) (map crp_pos l) -> image_at m' x y = image_at m x y).
Proof.
  induction 1 as [ | c l Hc Hl IH ]; intros m x y HX HY; cbn zeta.
  - cbn [fold_left map In]. tauto.
  - cbn [fold_left map]. rewrite HX, HY, !Z.sub_0_r.
    specialize (IH (set_image m (crp_col c) (crp_row c) (crp_val c)) x y
                  HX HY).
    cbn zeta in IH. destruct IH as [IHin IHout].
    assert (Hdec : In (x, y) (map crp_pos l) \/ ~ In (x, y) (map crp_pos l)).
    { destruct (in_dec (fun a b : Z * Z =>
                          ltac:(decide equality; apply Z.eq_dec)
                          : {a = b} + {a <> b})
                  (x, y) (map crp_pos l)); tauto. }
    split.
    + intros [Hhere | Hin]; [ | now apply IHin ].
      destruct Hdec as [Hin | Hout]; [ now apply IHin | ].
      rewrite (IHout Hout). unfold crp_pos in Hhere. injection Hhere as <- <-.
      unfold set_image, plane_set, same_pixel. cbn [image_at].
      rewrite !Z.eqb_refl. exact Hc.
    + intro Hnot. cbn [In] in Hnot.
      rewrite IHout by tauto.
      unfold set_image, plane_set, same_pixel. cbn [image_at].
      destruct ((x =? crp_col c) && (y =? crp_row c)) eqn:Hsame;
        [ | reflexivity ].
      apply andb_true_iff in Hsame. destruct Hsame as [Hx Hy].
      apply Z.eqb_eq in Hx, Hy. subst. unfold crp_pos in Hnot. tauto.
Qed.



Lemma image_S1_whole_valued : whole_valued image_S1.
Proof.
  intros x y. unfold image_S1, image_7x7. cbn [fold_left image_at].
  unfold plane_set. destruct (same_pixel 3 3 x y); reflexivity.
Defined.



(** *** What a call writes to *)

Lemma same_frame_refl (mi : MaskedImage) : same_frame mi mi.
Proof. unfold same_frame. auto. Qed.

Lemma same_frame_trans (a b c : MaskedImage) :
  same_frame a b -> same_frame b c -> same_frame a c.
Proof.
  unfold same_frame. intros [H1 [H2 [H3 [H4 H5]]]] [K1 [K2 [K3 [K4 K5]]]].
  repeat split; try congruence.
Qed.

Lemma same_frame_set_image (mi : MaskedImage) (x y : Z) (v : Q) :
  same_frame mi (set_image mi x y v).
Proof. unfold same_frame. cbn. auto. Qed.

Lemma same_frame_set_mask (mi : MaskedImage) (x y m : Z) :
  same_frame mi (set_mask mi x y m).
Proof. unfold same_frame. cbn. auto. Qed.

Lemma image_only_refl (mi : MaskedImage) : image_only mi mi.
Proof. split; [ apply same_frame_refl | intros x y; reflexivity ]. Qed.

Lemma image_only_trans (a b c : MaskedImage) :
  image_only a b -> image_only b c -> image_only a c.
Proof.
  intros [F1 M1] [F2 M2]. split.
  - eapply same_frame_trans; eassumption.
  - intros x y. now rewrite M2.
Qed.

Lemma image_only_set_image (mi : MaskedImage) (x y : Z) (v : Q) :
  image_only mi (set_image mi x y v).
Proof. split; [ apply same_frame_set_image | intros x' y'; reflexivity ]. Qed.

Section ImageWrites.
Variable R : MaskedImage -> MaskedImage -> Prop.
Hypothesis R_refl : forall mi, R mi mi.
Hypothesis R_trans : forall a b c, R a b -> R b c -> R a c.
Hypothesis R_set_image : forall mi x y v, R mi (set_image mi x y v).
Variable E : Externals.

Lemma fold_left_writes {T A : Type} (img : T -> MaskedImage)
  (f : T -> A -> T) (l : list A) :
  (forall s a, R (img s) (img (f s a))) ->
  forall s, R (img s) (img (fold_left f l s)).
Proof.
  intro Hf. induction l as [ | a l IH ]; intro s; simpl.
  - apply R_refl.
  - eapply R_trans; [ apply Hf | apply IH ].
Qed.

Lemma initial_sweep_writes (st : State) (min_sigma : Z)
  (thres_h thres_v thres_d bkgd e_per_dn cond3_fac : Q) (badMask : Z) :
  R (st_mimage st)
    (st_mimage
       (initial_sweep E st min_sigma thres_h thres_v thres_d bkgd e_per_dn
          cond3_fac badMask)).
Proof.
  unfold initial_sweep.
  apply (fold_left_writes st_mimage). intros s j.
  apply (fold_left_writes st_mimage). intros s' i.
  destruct (is_cr_pixel _ _ _ _ _ _ _ _ _ _ _); [ | apply R_refl ].
  destruct (nonzero _); [ apply R_refl | ].
  apply R_set_image.
Qed.

Lemma checkSpanForCRs_writes (extras : Footprint) (st : State)
  (y x0 x1 min_sigma : Z) (thres_h thres_v thres_d bkgd e_per_dn cond3_fac : Q)
  (keep : bool) :
  R (st_mimage st)
    (st_mimage
       (snd (checkSpanForCRs E extras st y x0 x1 min_sigma thres_h thres_v
               thres_d bkgd e_per_dn cond3_fac keep))).
Proof.
  unfold checkSpanForCRs.
  apply (fold_left_writes (fun p : Footprint * State => st_mimage (snd p))
           _ _) with (s := (extras, st)).
  intros [ex s] x. cbn [snd].
  destruct (is_cr_pixel _ _ _ _ _ _ _ _ _ _ _); [ | apply R_refl ].
  cbn [snd]. destruct keep; apply R_set_image.
Qed.

Lemma RemoveCR_call_writes (bkgd : Q) (badMask : Z) (debias : bool)
  (st : State) (x y : Z) :
  R (st_mimage st) (st_mimage (RemoveCR_call E bkgd badMask debias st x y)).
Proof.
  unfold RemoveCR_call.
  destruct (directional_min _ _ _ _ _ _ _ _ _ _) as [m g].
  match goal with
  | |- context [let '(_, _) := ?e in _] => destruct e as [m' r]
  end.
  apply R_set_image.
Qed.

Lemma RemoveCR_apply_writes (bkgd : Q) (badMask : Z) (debias : bool)
  (st : State) (fp : Footprint) :
  R (st_mimage st) (st_mimage (RemoveCR_apply E bkgd badMask debias st fp)).
Proof.
  unfold RemoveCR_apply. apply (fold_left_writes st_mimage).
  intros s [x y]. apply RemoveCR_call_writes.
Qed.

(** Without [grow], [removeCR] interpolates over every CR and cannot
    fail. *)
Lemma removeCR_nogrow_writes (st : State) (CRs : list Footprint) (bkgd : Q)
  (crBit saturBit badMask : Z) (debias : bool) :
  exists st',
    removeCR E st CRs bkgd crBit saturBit badMask debias false = Ok st' /\
    R (st_mimage st) (st_mimage st').
Proof.
  unfold removeCR. cbn [andb]. revert st.
  induction (rev CRs) as [ | cr l IH ]; intro st; cbn [foldM].
  - exists st. split; [ reflexivity | apply R_refl ].
  - cbn [bind].
    destruct (IH (RemoveCR_apply E bkgd badMask debias st cr))
      as [st' [Hok HR]].
    exists st'. split; [ exact Hok | ].
    eapply R_trans; [ apply RemoveCR_apply_writes | exact HR ].
Qed.

Lemma reinstate_writes (mi : MaskedImage) (crpixels : list CRPixel) :
  R mi (reinstate mi crpixels).
Proof.
  unfold reinstate. apply (fold_left_writes (fun m => m)).
  intros m crp. apply R_set_image.
Qed.

Lemma grow_CR_writes (interpBit min_sigma : Z)
  (thres_h thres_v thres_d bkgd e_per_dn : Q) (keep : bool)
  (cr : Footprint) (st : State) (nextra : Z) :
  R (st_mimage st)
    (st_mimage
       (snd (fst (grow_CR E interpBit min_sigma thres_h thres_v thres_d bkgd
                    e_per_dn keep cr st nextra)))).
Proof.
  unfold grow_CR.
  destruct (_ =? getNpix cr); [ apply R_refl | ].
  match goal with
  | |- context [let '(_, _) := ?e in _] =>
      assert (Hfold : R (st_mimage st) (st_mimage (snd e)));
      [ | destruct e as [extra st'] ]
  end.
  - apply (fold_left_writes
             (fun p : Footprint * State => st_mimage (snd p)) _ _)
      with (s := ([] : Footprint, st)).
    intros [ex s] span. cbn [snd].
    destruct (_ || _); [ apply R_refl | ].
    match goal with
    | |- context [checkSpanForCRs E ex s ?y ?x0 ?x1 ?ms ?h ?v ?d ?bk ?e ?f ?k] =>
        pose proof (checkSpanForCRs_writes ex s y x0 x1 ms h v d bk e f k)
          as H1;
        destruct (checkSpanForCRs E ex s y x0 x1 ms h v d bk e f k)
          as [ex1 s1]
    end.
    match goal with
    | |- context [checkSpanForCRs E ex1 s1 ?y ?x0 ?x1 ?ms ?h ?v ?d ?bk ?e ?f ?k] =>
        pose proof (checkSpanForCRs_writes ex1 s1 y x0 x1 ms h v d bk e f k)
          as H2;
        destruct (checkSpanForCRs E ex1 s1 y x0 x1 ms h v d bk e f k)
          as [ex2 s2]
    end.
    cbn [snd] in H1, H2.
    eapply R_trans; [ exact H1 | ].
    eapply R_trans; [ exact H2 | ].
    apply checkSpanForCRs_writes.
  - cbn [snd] in Hfold. destruct (_ >? 0); exact Hfold.
Qed.

Lemma growth_pass_writes (interpBit min_sigma : Z)
  (thres_h thres_v thres_d bkgd e_per_dn : Q) (keep : bool)
  (s : list Footprint * State) (nextra : Z) :
  R (st_mimage (snd s))
    (st_mimage
       (snd (fst (growth_pass E interpBit min_sigma thres_h thres_v thres_d
                    bkgd e_per_dn keep s nextra)))).
Proof.
  unfold growth_pass.
  set (e := fold_left _ (fst s) _).
  assert (Hfold : R (st_mimage (snd s)) (st_mimage (snd (fst e))));
    [ subst e | destruct e as [[CRs' st'] nextra'] ].
  - apply (fold_left_writes
             (fun p : list Footprint * State * Z => st_mimage (snd (fst p)))
             _ _)
      with (s := ([] : list Footprint, snd s, nextra)).
    intros [[done st1] n1] cr. cbn [fst snd].
    pose proof (grow_CR_writes interpBit min_sigma thres_h thres_v thres_d
                  bkgd e_per_dn keep cr st1 n1) as H.
    destruct (grow_CR _ _ _ _ _ _ _ _ _ _ _ _) as [[cr' st2] n2].
    exact H.
  - exact Hfold.
Qed.

Lemma iterate_passes_writes
  (pass : list Footprint * State -> Z -> list Footprint * State * Z) :
  (forall s nextra,
      R (st_mimage (snd s)) (st_mimage (snd (fst (pass s nextra))))) ->
  forall n s nextra log,
    R (st_mimage (snd s))
      (st_mimage (snd (fst (fst (iterate_passes pass n s nextra log))))).
Proof.
  intro Hpass. induction n as [ | n IH ]; intros s nextra log; simpl.
  - apply R_refl.
  - specialize (Hpass s nextra).
    destruct (pass s nextra) as [s1 n1]. cbn [fst snd] in Hpass.
    destruct (n1 =? 0).
    + exact Hpass.
    + eapply R_trans; [ exact Hpass | apply IH ].
Qed.

Lemma growth_iterations_writes
  (pass : list Footprint * State -> Z -> list Footprint * State * Z)
  (niteration : Z) (s s' : list Footprint * State) (nextra : Z)
  (log : list Z) :
  (forall s nextra,
      R (st_mimage (snd s)) (st_mimage (snd (fst (pass s nextra))))) ->
  growth_iterations pass niteration s = Ok (s', nextra, log) ->
  R (st_mimage (snd s)) (st_mimage (snd s')).
Proof.
  intros Hpass. unfold growth_iterations. destruct (niteration <? 0).
  - specialize (Hpass s 0). destruct (pass s 0) as [s1 n1].
    destruct (n1 =? 0); [ | discriminate ].
    intro H. injection H as <- _ _. exact Hpass.
  - intro H. injection H as H.
    pose proof (iterate_passes_writes pass Hpass (Z.to_nat niteration) s 0 [])
      as Hit.
    rewrite H in Hit. exact Hit.
Qed.

(** A call that returns, cut at the point where the CRs are marked:
    up to there only pixel values were written; then the CR bit is set
    on the Footprints, and either the recorded values are put back
    ([keep]) or the CRs are removed once more, with [grow], and marked
    again. *)
Lemma findCosmicRays_phases (st : State) (planes : MaskPlanes)
  (psf : Z -> Z -> Q) (bkgd : Q) (policy : Policy) (keep : bool)
  (o : Outcome) :
  findCosmicRays E st planes psf bkgd policy keep = Ok o ->
  exists st3,
    R (st_mimage st) (st_mimage st3) /\
    let m :=
      setMaskFromFootprintList (st_mimage st3) (out_CRs o) (plane_CR planes)
    in
    if keep then R m (st_mimage (out_state o))
    else
      exists badMask st4,
        removeCR E (with_mimage st3 m) (out_CRs o) bkgd (plane_CR planes)
          (plane_SAT planes) badMask true true = Ok st4 /\
        st_mimage (out_state o)
        = setMaskFromFootprintList (st_mimage st4) (out_CRs o)
            (plane_CR planes).
Proof.
  unfold findCosmicRays.
  destruct (negb (Qltb 0 (CR_e_per_dn policy))); [ discriminate | ].
  match goal with
  | |- context [initial_sweep E st ?ms ?h ?v ?d ?bk ?e ?f ?bm] =>
      pose proof (initial_sweep_writes st ms h v d bk e f bm) as Hsweep;
      set (swept := initial_sweep E st ms h v d bk e f bm) in *
  end.
  match goal with
  | |- bind ?c _ = _ -> _ =>
      assert (Hscan : forall st1 ss, c = Ok (st1, ss) ->
                                     st_mimage st1 = st_mimage swept);
      [ | destruct c as [[st1 ss] | ]; [ | discriminate ] ]
  end.
  { intros st1 ss. destruct (st_crpixels swept) as [ | c0 cs ].
    - intro H. injection H as <- _. reflexivity.
    - destruct (st_crpixels (push_CRPixel swept 0 (-1) 0 (-1)))
        as [ | crp rest ].
      + intro H. injection H as <- _. reflexivity.
      + destruct (span_scan crp rest _); [ | discriminate ].
        cbn [bind]. intro H. injection H as <- _. reflexivity. }
  specialize (Hscan st1 ss eq_refl). cbn [bind].
  match goal with
  | |- bind ?c _ = _ -> _ => destruct c as [aliases | ]; [ | discriminate ]
  end. cbn [bind].
  match goal with
  | |- bind ?c _ = _ -> _ => destruct c as [spans | ]; [ | discriminate ]
  end. cbn [bind].
  match goal with
  | |- bind (removeCR E ?s ?c ?bk ?cb ?sb ?bm ?db false) _ = _ -> _ =>
      destruct (removeCR_nogrow_writes s c bk cb sb bm db)
        as [st2 [Hrm HR2]]; rewrite Hrm
  end. cbn [bind].
  cbn [st_mimage with_mimage] in HR2.
  match goal with
  | |- bind ?c _ = _ -> _ =>
      destruct c as [[[[CRs st3] nextra] passes] | ] eqn:Hgrow;
      [ | discriminate ]
  end. cbn [bind].
  apply growth_iterations_writes in Hgrow;
    [ | intros; apply growth_pass_writes ].
  cbn [snd] in Hgrow.
  assert (Hbefore : R (st_mimage st) (st_mimage st3)).
  { eapply R_trans; [ exact Hsweep | ].
    eapply R_trans; [ | exact Hgrow ].
    eapply R_trans; [ | exact HR2 ].
    rewrite <- Hscan. apply reinstate_writes. }
  intro H. exists st3. split; [ exact Hbefore | ]. cbn zeta.
  destruct keep.
  - cbn [st_crpixels with_mimage] in H.
    destruct (st_crpixels st3); [ discriminate | ].
    injection H as H. rewrite <- H. cbn [out_state out_CRs st_mimage].
    apply (fold_left_writes (fun m => m)).
    intros m crp. apply R_set_image.
  - match type of H with
    | bind ?c _ = _ => destruct c as [st4 | ] eqn:Hrm2; [ | discriminate ]
    end. cbn [bind] in H.
    injection H as H. rewrite <- H.
    cbn [out_state out_CRs st_mimage with_mimage].
    eexists. exists st4. split; [ exact Hrm2 | reflexivity ].
Qed.

End ImageWrites.


(** *** The mask a call leaves *)

Lemma setMask_pixels (X0 Y0 c : Z) (l : list (Z * Z)) :
  forall m,
    let m' := fold_left
                (fun m '(x, y) =>
                   let lx := x - X0 in
                   let ly := y - Y0 in
                   set_mask m lx ly (Z.lor (mask_at m lx ly) c)) l m in
    same_frame m m' /\
    (forall x y, image_at m' x y = image_at m x y) /\
    forall x y,
      mask_at m' x y
      = if existsb (on_pixel (x + X0) (y + Y0)) l
        then Z.lor (mask_at m x y) c else mask_at m x y.
Proof.
  induction l as [ | [px py] l IH ]; intro m; cbn zeta.
  - cbn [fold_left existsb]. split; [ apply same_frame_refl | ]. auto.
  - cbn [fold_left existsb].
    destruct (IH (set_mask m (px - X0) (py - Y0)
                    (Z.lor (mask_at m (px - X0) (py - Y0)) c)))
      as [Hf [Hi Hm]].
    cbn zeta in Hf, Hi, Hm. split; [ | split ].
    + eapply same_frame_trans; [ apply same_frame_set_mask | exact Hf ].
    + intros x y. now rewrite Hi.
    + intros x y. rewrite Hm.
      unfold set_mask, plane_set, same_pixel, on_pixel. cbn [mask_at fst snd].
      replace (px =? x + X0) with (x =? px - X0)
        by (apply eq_true_iff_eq; rewrite !Z.eqb_eq; lia).
      replace (py =? y + Y0) with (y =? py - Y0)
        by (apply eq_true_iff_eq; rewrite !Z.eqb_eq; lia).
      destruct ((x =? px - X0) && (y =? py - Y0)) eqn:Hhere; cbn [orb].
      * apply andb_true_iff in Hhere. destruct Hhere as [Hx Hy].
        apply Z.eqb_eq in Hx, Hy. subst x y.
        destruct (existsb _ l); [ | reflexivity ].
        now rewrite <- Z.lor_assoc, Z.lor_diag.
      * reflexivity.
Qed.

Lemma setMaskFromFootprintList_marked (c : Z) (fps : list Footprint) :
  forall mi,
    let mi' := setMaskFromFootprintList mi fps c in
    same_frame mi mi' /\
    (forall x y, image_at mi' x y = image_at mi x y) /\
    forall x y, mask_at mi' x y = marked mi fps c x y.
Proof.
  unfold setMaskFromFootprintList, marked, covers.
  induction fps as [ | fp fps IH ]; intro mi; cbn zeta.
  - cbn [fold_left existsb]. split; [ apply same_frame_refl | ]. auto.
  - cbn [fold_left existsb].
    destruct (setMask_pixels (getX0 mi) (getY0 mi) c (footprint_pixels fp) mi)
      as [Hf1 [Hi1 Hm1]]. cbn zeta in Hf1, Hi1, Hm1.
    fold (setMaskFromFootprint mi fp c) in Hf1, Hi1, Hm1.
    destruct (IH (setMaskFromFootprint mi fp c)) as [Hf [Hi Hm]].
    cbn zeta in Hf, Hi, Hm. split; [ | split ].
    + eapply same_frame_trans; eassumption.
    + intros x y. now rewrite Hi.
    + intros x y. rewrite Hm, Hm1.
      destruct Hf1 as [-> [-> _]].
      destruct (existsb (on_pixel _ _) (footprint_pixels fp)); cbn [orb].
      * destruct (existsb _ fps); [ | reflexivity ].
        now rewrite <- Z.lor_assoc, Z.lor_diag.
      * reflexivity.
Qed.

Lemma marked_same (mi mi' : MaskedImage) (fps : list Footprint) (c b : Z) :
  same_frame mi mi' -> same_bits b mi mi' ->
  forall x y, Z.land (marked mi' fps c x y) b = Z.land (marked mi fps c x y) b.
Proof.
  intros [HX [HY _]] Hb x y. unfold marked. rewrite HX, HY.
  destruct (covers fps _ _); [ | apply Hb ].
  now rewrite !Z.land_lor_distr_l, Hb.
Qed.

Lemma marked_twice (mi : MaskedImage) (fps : list Footprint) (c b : Z)
  (m : Z -> Z -> Z) (x y : Z) :
  Z.land (m x y) b = Z.land (marked mi fps c x y) b ->
  Z.land (if covers fps (x + getX0 mi) (y + getY0 mi)
          then Z.lor (m x y) c else m x y) b
  = Z.land (marked mi fps c x y) b.
Proof.
  intro H. unfold marked in *.
  destruct (covers fps _ _); [ | exact H ].
  rewrite Z.land_lor_distr_l, H, <- Z.land_lor_distr_l.
  now rewrite <- Z.lor_assoc, Z.lor_diag.
Qed.

Lemma foldM_frame {T A : Type} (img : T -> MaskedImage)
  (f : T -> A -> Result T) (l : list A) :
  (forall s a s', f s a = Ok s' -> same_frame (img s) (img s')) ->
  forall s s', foldM f l s = Ok s' -> same_frame (img s) (img s').
Proof.
  intro Hf. induction l as [ | a l IH ]; intros s s'; simpl.
  - intro H. injection H as <-. apply same_frame_refl.
  - destruct (f s a) as [s1 | ] eqn:H1; [ | discriminate ]. cbn [bind].
    intro H. eapply same_frame_trans; [ eapply Hf; exact H1 | now apply IH ].
Qed.

Lemma removeCR_frame (E : Externals) (st st' : State)
  (CRs : list Footprint) (bkgd : Q) (crBit saturBit badMask : Z)
  (debias grow : bool) :
  removeCR E st CRs bkgd crBit saturBit badMask debias grow = Ok st' ->
  same_frame (st_mimage st) (st_mimage st').
Proof.
  unfold removeCR. apply (foldM_frame st_mimage).
  intros s cr s'.
  pose proof (RemoveCR_apply_writes same_frame same_frame_refl
                same_frame_trans same_frame_set_image E bkgd badMask debias
                s cr) as Happ.
  destruct (grow && (getNpix cr <? 100)).
  - destruct (footprintAndMask _ _ _ _) as [sat | ]; [ | discriminate ].
    destruct (getNpix sat >? 0); intro H; injection H as <-.
    + cbn [with_mimage st_mimage].
      apply (setMask_pixels (getX0 (st_mimage s)) (getY0 (st_mimage s))
               saturBit (footprint_pixels sat) (st_mimage s)).
    + exact Happ.
  - intro H. injection H as <-. exact Happ.
Qed.

(** X9: a call that returns leaves the origin, the size and the variance
    of the image as they were, and its mask is the mask it was given with
    the CR bit set on the pixels of the Footprints it returns: exactly so
    with [keep], and up to the bits of the SAT plane without. *)
Theorem findCosmicRays_marks_its_footprints (E : Externals) (st : State)
  (planes : MaskPlanes) (psf : Z -> Z -> Q) (bkgd : Q) (policy : Policy)
  (keep : bool) (o : Outcome) (b : Z) :
  keep = true \/ Z.land (plane_SAT planes) b = 0 ->
  findCosmicRays E st planes psf bkgd policy keep = Ok o ->
  same_frame (st_mimage st) (st_mimage (out_state o)) /\
  forall x y,
    Z.land (mask_at (st_mimage (out_state o)) x y) b
    = Z.land (marked (st_mimage st) (out_CRs o) (plane_CR planes) x y) b.
Proof.
  intros Hb Hrun.
  destruct (findCosmicRays_phases image_only image_only_refl
              image_only_trans image_only_set_image E st planes psf bkgd
              policy keep o Hrun) as [st3 [[Hf3 Hm3] Hend]].
  cbn zeta in Hend.
  destruct (setMaskFromFootprintList_marked (plane_CR planes) (out_CRs o)
              (st_mimage st3)) as [Hfm [_ Hmm]].
  cbn zeta in Hfm, Hmm.
  set (m := setMaskFromFootprintList (st_mimage st3) (out_CRs o)
              (plane_CR planes)) in *.
  assert (Hm : forall x y,
             Z.land (mask_at m x y) b
             = Z.land (marked (st_mimage st) (out_CRs o) (plane_CR planes)
                         x y) b).
  { intros x y. rewrite Hmm. apply marked_same; [ exact Hf3 | ].
    intros x' y'. now rewrite Hm3. }
  destruct keep.
  - destruct Hend as [Hfo Hmo]. split.
    + eapply same_frame_trans; [ exact Hf3 | ].
      eapply same_frame_trans; [ exact Hfm | exact Hfo ].
    + intros x y. rewrite Hmo. apply Hm.
  - destruct Hb as [Hb | Hb]; [ discriminate | ].
    destruct Hend as [badMask [st4 [Hrm Hout]]].
    pose proof (removeCR_frame _ _ _ _ _ _ _ _ _ _ Hrm) as Hf4.
    pose proof (CRFacts.removeCR_same_bits b E _ _ _ _ _ _ _ _ _ Hb Hrm)
      as Hb4.
    cbn [with_mimage st_mimage] in Hf4, Hb4.
    destruct (setMaskFromFootprintList_marked (plane_CR planes) (out_CRs o)
                (st_mimage st4)) as [Hfo [_ Hmo]].
    cbn zeta in Hfo, Hmo. rewrite <- Hout in Hfo, Hmo.
    assert (Hf04 : same_frame (st_mimage st) (st_mimage st4)).
    { eapply same_frame_trans; [ exact Hf3 | ].
      eapply same_frame_trans; [ exact Hfm | exact Hf4 ]. }
    split.
    + eapply same_frame_trans; [ exact Hf04 | exact Hfo ].
    + intros x y. rewrite Hmo. unfold marked at 1.
      destruct Hf04 as [-> [-> _]].
      apply (marked_twice (st_mimage st) (out_CRs o) (plane_CR planes) b
               (mask_at (st_mimage st4))).
      rewrite Hb4. apply Hm.
Qed.


(** S1 without [keep]: the bits of the CR plane. *)
Lemma findCosmicRays_marks_its_footprints_witness :
  same_frame image_S1
    (st_mimage (out_state (outcome_of (run_S1 false) (state_of image_S1)))) /\
  forall x y,
    Z.land
      (mask_at
         (st_mimage (out_state (outcome_of (run_S1 false) (state_of image_S1))))
         x y) (plane_CR planes_ref)
    = Z.land
        (marked image_S1
           (out_CRs (outcome_of (run_S1 false) (state_of image_S1)))
           (plane_CR planes_ref) x y) (plane_CR planes_ref).
Proof.
  apply (findCosmicRays_marks_its_footprints externals_ref
           (state_of image_S1) planes_ref psf_S1 0 (policy_S1 0) false
           (outcome_of (run_S1 false) (state_of image_S1))
           (plane_CR planes_ref)).
  - right. reflexivity.
  - vm_compute. reflexivity.
Defined.

(** *** A call returns *)

Lemma nonneg_then_dummy_snoc (l : list CRPixel) (d : CRPixel) :
  Forall (fun c => 0 <= crp_row c /\ 0 <= crp_col c) l -> crp_row d < 0 ->
  nonneg_then_dummy (l ++ [d]).
Proof.
  intros Hl Hd. induction Hl as [ | c l Hc Hl IH ]; [ exact Hd | ].
  cbn [app].
  assert (Hne : exists a r, l ++ [d] = a :: r)
    by (destruct l; cbn [app]; eauto).
  destruct Hne as [a [r Heq]]. rewrite Heq in IH |- *.
  change (0 <= crp_row c /\ 0 <= crp_col c /\ nonneg_then_dummy (a :: r)).
  tauto.
Qed.

Lemma removeCR_returns (E : Externals) (CRs : list Footprint) (bkgd : Q)
  (crBit saturBit badMask : Z) (debias grow : bool) :
  (forall fp mi bit, exists om, footprintAndMask E fp mi bit = Some om) ->
  forall st,
  exists st', removeCR E st CRs bkgd crBit saturBit badMask debias grow = Ok st'.
Proof.
  intro Hfm. unfold removeCR.
  induction (rev CRs) as [ | cr l IH ]; intro st; cbn [foldM].
  - eexists. reflexivity.
  - destruct (grow && (getNpix cr <? 100)).
    + destruct (Hfm (growFootprint E cr 1) (st_mimage st) saturBit)
        as [om ->].
      destruct (getNpix om >? 0); cbn [bind]; apply IH.
    + cbn [bind]. apply IH.
Qed.

Lemma scan_start_inv : scan_inv scan_start.
Proof.
  unfold scan_inv, scan_start. cbn. repeat split; try lia. constructor.
Qed.





(** *** The comparison of spans, and the aliases *)

(** X11: [IdSpanCompar] is a strict weak order, as [std::sort] asks of
    its comparison: no span is before itself, the order is transitive,
    and so is being unordered, which is having the same id and row. *)
Theorem IdSpanCompar_strict_weak_order :
  (forall a, IdSpanCompar a a = false) /\
  (forall a b c, IdSpanCompar a b = true -> IdSpanCompar b c = true ->
                 IdSpanCompar a c = true) /\
  (forall a b, IdSpanCompar a b = false /\ IdSpanCompar b a = false <->
               isp_id a = isp_id b /\ isp_y a = isp_y b) /\
  (forall a b c, IdSpanCompar a b = false -> IdSpanCompar b a = false ->
                 IdSpanCompar b c = false -> IdSpanCompar c b = false ->
                 IdSpanCompar a c = false /\ IdSpanCompar c a = false).
Proof.
  assert (Hspec : forall a b,
             IdSpanCompar a b = true <->
             isp_id a < isp_id b \/ (isp_id a = isp_id b /\ isp_y a < isp_y b)).
  { intros a b. unfold IdSpanCompar.
    destruct (isp_id a <? isp_id b) eqn:H1;
      [ apply Z.ltb_lt in H1; intuition lia | apply Z.ltb_ge in H1 ].
    destruct (isp_id a >? isp_id b) eqn:H2.
    - apply Z.gtb_lt in H2. intuition (discriminate || lia).
    - rewrite Z.ltb_lt. pose proof (Zgt_cases (isp_id a) (isp_id b)) as H3.
      rewrite H2 in H3. intuition lia. }
  assert (Hneg : forall a b,
             IdSpanCompar a b = false <->
             ~ (isp_id a < isp_id b \/
                (isp_id a = isp_id b /\ isp_y a < isp_y b))).
  { intros a b. rewrite <- Hspec. now destruct (IdSpanCompar a b). }
  split; [ | split; [ | split ] ].
  - intro a. apply Hneg. lia.
  - intros a b c. rewrite !Hspec. lia.
  - intros a b. rewrite !Hneg. lia.
  - intros a b c. rewrite !Hneg. lia.
Qed.

(** X12: [resolve_alias] returns [r] exactly when the chain of aliases
    that starts at [id] ends in [r]; what it returns is an index of the
    table that is its own alias. *)
Theorem resolve_alias_returns_chain_end (aliases : list Z) (id r : Z) :
  (resolve_alias aliases id = Ok r <-> chain_ends aliases id r) /\
  (resolve_alias aliases id = Ok r ->
   vec_at aliases r = Some r /\ 0 <= r < Z.of_nat (length aliases)).
Proof.
  split; [ split | ].
  - apply resolve_alias_fuel_sound.
  - apply resolve_alias_total.
  - intro H. apply resolve_alias_fuel_sound in H.
    pose proof (chain_ends_fixed _ _ _ H) as Hfix.
    split; [ exact Hfix | ]. eapply vec_at_bounds. exact Hfix.
Qed.


(** *** What removeCR touches *)

Lemma RemoveCR_call_pixel (E : Externals) (bkgd : Q) (badMask : Z)
  (debias : bool) (st : State) (x y : Z) :
  forall x' y',
    on_pixel (x' + getX0 (st_mimage st)) (y' + getY0 (st_mimage st)) (x, y)
    = false ->
    image_at (st_mimage (RemoveCR_call E bkgd badMask debias st x y)) x' y'
    = image_at (st_mimage st) x' y'.
Proof.
  intros x' y' Hoff. unfold RemoveCR_call.
  destruct (directional_min _ _ _ _ _ _ _ _ _ _) as [m g].
  match goal with
  | |- context [let '(_, _) := ?e in _] => destruct e as [m' r]
  end.
  cbn [st_mimage set_image image_at]. unfold plane_set, same_pixel.
  unfold on_pixel in Hoff. cbn [fst snd] in Hoff.
  replace (x' =? x - getX0 (st_mimage st))
    with (x =? x' + getX0 (st_mimage st))
    by (apply eq_true_iff_eq; rewrite !Z.eqb_eq; lia).
  replace (y' =? y - getY0 (st_mimage st))
    with (y =? y' + getY0 (st_mimage st))
    by (apply eq_true_iff_eq; rewrite !Z.eqb_eq; lia).
  now rewrite Hoff.
Qed.

Lemma RemoveCR_apply_pixels (E : Externals) (bkgd : Q) (badMask : Z)
  (debias : bool) (l : list (Z * Z)) :
  forall st,
    let st' := fold_left
                 (fun st '(x, y) => RemoveCR_call E bkgd badMask debias st x y)
                 l st in
    image_only (st_mimage st) (st_mimage st') /\
    forall x y,
      existsb (on_pixel (x + getX0 (st_mimage st)) (y + getY0 (st_mimage st)))
        l = false ->
      image_at (st_mimage st') x y = image_at (st_mimage st) x y.
Proof.
  induction l as [ | [px py] l IH ]; intro st; cbn zeta.
  - cbn [fold_left]. split; [ apply image_only_refl | reflexivity ].
  - cbn [fold_left existsb].
    pose proof (RemoveCR_call_writes image_only image_only_set_image E bkgd
                  badMask debias st px py) as Hcall.
    destruct (IH (RemoveCR_call E bkgd badMask debias st px py))
      as [Honly Hout]. cbn zeta in Honly, Hout.
    split; [ eapply image_only_trans; eassumption | ].
    intros x y Hoff. apply orb_false_iff in Hoff. destruct Hoff as [H1 H2].
    destruct Hcall as [[HX [HY _]] _].
    rewrite Hout by (rewrite HX, HY; exact H2).
    now apply RemoveCR_call_pixel.
Qed.

Lemma removeCR_fold_pixels (E : Externals) (bkgd : Q)
  (crBit saturBit badMask : Z) (debias grow : bool) (l : list Footprint) :
  forall st st',
    foldM
      (fun st cr =>
         if grow && (getNpix cr <? 100) then
           let gcr := growFootprint E cr 1 in
           match footprintAndMask E gcr (st_mimage st) saturBit with
           | None => Err OutOfRange
           | Some saturPixels =>
               if getNpix saturPixels >? 0
               then Ok (with_mimage st
                          (setMaskFromFootprint (st_mimage st) saturPixels
                             saturBit))
               else Ok (RemoveCR_apply E bkgd badMask debias st cr)
           end
         else Ok (RemoveCR_apply E bkgd badMask debias st cr))
      l st = Ok st' ->
    same_frame (st_mimage st) (st_mimage st') /\
    (grow = false -> same_mask (st_mimage st) (st_mimage st')) /\
    forall x y,
      covers l (x + getX0 (st_mimage st)) (y + getY0 (st_mimage st)) = false ->
      image_at (st_mimage st') x y = image_at (st_mimage st) x y.
Proof.
  induction l as [ | cr l IH ]; intros st st'; cbn [foldM].
  - intro H. injection H as <-.
    split; [ apply same_frame_refl | ].
    split; [ intros _ x y; reflexivity | intros x y _; reflexivity ].
  - match goal with
    | |- bind ?c _ = _ -> _ =>
        assert (Hstep : forall s1, c = Ok s1 ->
                  same_frame (st_mimage st) (st_mimage s1) /\
                  (grow = false -> same_mask (st_mimage st) (st_mimage s1)) /\
                  forall x y,
                    existsb (on_pixel (x + getX0 (st_mimage st))
                               (y + getY0 (st_mimage st)))
                      (footprint_pixels cr) = false ->
                    image_at (st_mimage s1) x y = image_at (st_mimage st) x y);
        [ | destruct c as [s1 | ]; [ | discriminate ] ]
    end.
    { intro s1.
      destruct (RemoveCR_apply_pixels E bkgd badMask debias
                  (footprint_pixels cr) st) as [[Hf Hm] Hi].
      cbn zeta in Hf, Hm, Hi. fold (RemoveCR_apply E bkgd badMask debias st cr)
        in Hf, Hm, Hi.
      destruct (grow && (getNpix cr <? 100)) eqn:Hg.
      - destruct (footprintAndMask _ _ _ _) as [sat | ]; [ | discriminate ].
        destruct (getNpix sat >? 0); intro H; injection H as <-.
        + cbn [with_mimage st_mimage].
          destruct (setMask_pixels (getX0 (st_mimage st))
                      (getY0 (st_mimage st)) saturBit (footprint_pixels sat)
                      (st_mimage st)) as [Hfs [His _]].
          cbn zeta in Hfs, His.
          split; [ exact Hfs | ]. split.
          * intro Hgrow. subst grow. discriminate.
          * intros x y _. apply His.
        + auto.
      - intro H. injection H as <-. auto. }
    destruct (Hstep s1 eq_refl) as [Hf1 [Hm1 Hi1]]. cbn [bind].
    intro Hrest. destruct (IH s1 st' Hrest) as [Hf2 [Hm2 Hi2]].
    split; [ eapply same_frame_trans; eassumption | ]. split.
    + intros Hg x y. rewrite (Hm2 Hg). now apply Hm1.
    + intros x y Hoff. unfold covers in Hoff. cbn [existsb] in Hoff.
      apply orb_false_iff in Hoff. destruct Hoff as [H1 H2].
      rewrite Hi2.
      * now apply Hi1.
      * destruct Hf1 as [-> [-> _]]. exact H2.
Qed.

Lemma existsb_reversed {A : Type} (f : A -> bool) (l : list A) :
  existsb f (rev l) = existsb f l.
Proof.
  induction l as [ | a l IH ]; [ reflexivity | ].
  cbn [rev existsb]. rewrite existsb_app, IH. cbn [existsb].
  now rewrite orb_false_r, orb_comm.
Qed.

(** X13: [removeCR] writes the image only at pixels of the CRs it is
    handed, and leaves the origin, the size and the variance alone;
    without [grow] it leaves the mask alone as well. *)
Theorem removeCR_touches_its_CRs_only (E : Externals) (st st' : State)
  (CRs : list Footprint) (bkgd : Q) (crBit saturBit badMask : Z)
  (debias grow : bool) :
  removeCR E st CRs bkgd crBit saturBit badMask debias grow = Ok st' ->
  same_frame (st_mimage st) (st_mimage st') /\
  (grow = false -> same_mask (st_mimage st) (st_mimage st')) /\
  forall x y,
    covers CRs (x + getX0 (st_mimage st)) (y + getY0 (st_mimage st)) = false ->
    image_at (st_mimage st') x y = image_at (st_mimage st) x y.
Proof.
  unfold removeCR. intro H.
  destruct (removeCR_fold_pixels E bkgd crBit saturBit badMask debias grow
              (rev CRs) st st' H) as [Hf [Hm Hi]].
  split; [ exact Hf | ]. split; [ exact Hm | ].
  intros x y Hoff. apply Hi. unfold covers in *.
  now rewrite existsb_reversed.
Qed.


Lemma removeCR_touches_its_CRs_only_witness :
  same_frame image_S1
    (st_mimage
       (state_after
          (removeCR externals_ref (state_of image_S1) [[mkSpan 3 3 3]] 0 8 2 7
             true false) (state_of image_S1))) /\
  (false = false ->
   same_mask image_S1
     (st_mimage
        (state_after
           (removeCR externals_ref (state_of image_S1) [[mkSpan 3 3 3]] 0 8 2
              7 true false) (state_of image_S1)))) /\
  forall x y,
    covers [[mkSpan 3 3 3]] (x + getX0 image_S1) (y + getY0 image_S1) = false ->
    image_at
      (st_mimage
         (state_after
            (removeCR externals_ref (state_of image_S1) [[mkSpan 3 3 3]] 0 8 2
               7 true false) (state_of image_S1))) x y
    = image_at image_S1 x y.
Proof.
  apply (removeCR_touches_its_CRs_only externals_ref (state_of image_S1)
           (state_after
              (removeCR externals_ref (state_of image_S1) [[mkSpan 3 3 3]] 0
                 8 2 7 true false) (state_of image_S1))
           [[mkSpan 3 3 3]] 0 8 2 7 true false).
  vm_compute. reflexivity.
Defined.

(** *** The pixels a growth pass adds *)

Lemma getNpix_app (fp fp' : Footprint) :
  getNpix (fp ++ fp') = getNpix fp + getNpix fp'.
Proof.
  unfold getNpix at 1. rewrite fold_left_app, getNpix_from.
  fold (getNpix fp). lia.
Qed.

Lemma getNpix_single_pixels (row lo hi : Z) (fp : Footprint) :
  Forall (single_pixel_in row lo hi) fp -> getNpix fp = Z.of_nat (length fp).
Proof.
  induction 1 as [ | sp fp [_ [Hsp _]] Hfp IH ]; [ reflexivity | ].
  change (sp :: fp) with ([sp] ++ fp). rewrite getNpix_app, IH.
  unfold getNpix. cbn [fold_left app length]. lia.
Qed.


End CRMoreFacts.

Module SpatialMoreFacts.
Import SpatialModelPsf SpatialMore SpatialModelPsfFacts.

(** *** fitKernel *)

Lemma fitKernel_sums_filtered (mImage : Image) (data : MaskedImage) :
  fitKernel_sums mImage data
  = weighted_sums mImage data (filter (has_variance data) (data_pixels data)).
Proof.
  rewrite fitKernel_sums_pixels. unfold weighted_sums.
  apply fold_left_filter.
  intros [[sumMM sumMD] sumDD] [x y].
  unfold fitKernel_step, has_variance. cbn [fst snd].
  destruct (negb (Qeq_bool (variance_at data x y) 0)); reflexivity.
Qed.

Lemma residuals_expand (mImage : Image) (data : MaskedImage) (a : Q)
  (l : list (Z * Z)) :
  forall (MM MD DD s : Q),
    (s == DD - 2 * a * MD + a * a * MM)%Q ->
    let sums :=
      fold_left
        (fun '(sumMM, sumMD, sumDD) '(x, y) =>
           let m := imAt mImage x y in
           let d := image_at data x y in
           let iVar := (1 / variance_at data x y)%Q in
           ((sumMM + m * m * iVar)%Q, (sumMD + m * d * iVar)%Q,
            (sumDD + d * d * iVar)%Q))
        l (MM, MD, DD) in
    (fold_left (fun s xy => (s + residual mImage data a xy)%Q) l s
     == snd sums - 2 * a * snd (fst sums) + a * a * fst (fst sums))%Q.
Proof.
  induction l as [ | [x y] l IH ]; intros MM MD DD s Hs; cbn zeta.
  - cbn [fold_left fst snd]. exact Hs.
  - cbn [fold_left]. apply IH.
    unfold residual. cbn [fst snd]. rewrite Hs. unfold Qdiv. ring.
Qed.

Lemma weighted_MM_nonneg (mImage : Image) (data : MaskedImage)
  (l : list (Z * Z)) :
  (forall x y, 0 <= variance_at data x y)%Q ->
  forall (MM MD DD : Q),
    (0 <= MM)%Q ->
    (0 <= fst (fst
       (fold_left
          (fun '(sumMM, sumMD, sumDD) '(x, y) =>
             let m := imAt mImage x y in
             let d := image_at data x y in
             let iVar := (1 / variance_at data x y)%Q in
             ((sumMM + m * m * iVar)%Q, (sumMD + m * d * iVar)%Q,
              (sumDD + d * d * iVar)%Q))
          l (MM, MD, DD))))%Q.
Proof.
  intro Hvar. induction l as [ | [x y] l IH ]; intros MM MD DD HMM.
  - exact HMM.
  - cbn [fold_left]. apply IH.
    assert (H2 : (0 <= / variance_at data x y)%Q)
      by (apply Qinv_le_0_compat; apply Hvar).
    unfold Qdiv. set (iv := (/ variance_at data x y)%Q) in *.
    set (m := imAt mImage x y). nra.
Qed.

Lemma residuals_nonneg (mImage : Image) (data : MaskedImage) (a : Q)
  (l : list (Z * Z)) :
  (forall x y, 0 <= variance_at data x y)%Q ->
  forall s, (0 <= s)%Q ->
    (0 <= fold_left (fun s xy => (s + residual mImage data a xy)%Q) l s)%Q.
Proof.
  intro Hvar. induction l as [ | xy l IH ]; intros s Hs.
  - exact Hs.
  - cbn [fold_left]. apply IH.
    assert (H2 : (0 <= / variance_at data (fst xy) (snd xy))%Q)
      by (apply Qinv_le_0_compat; apply Hvar).
    unfold residual. cbn zeta. unfold Qdiv.
    set (iv := (/ variance_at data (fst xy) (snd xy))%Q) in *.
    set (r := (image_at data (fst xy) (snd xy)
               - a * imAt mImage (fst xy) (snd xy))%Q).
    nra.
Qed.

Lemma fitKernel_chi2_residuals (mImage : Image) (data : MaskedImage)
  (chi2 amp : Q) :
  fitKernel mImage data = Ok (chi2, amp) ->
  (chi2 == chi2_of mImage data amp)%Q.
Proof.
  unfold fitKernel. destruct (negb (same_dimensions mImage data));
    [ discriminate | ].
  rewrite fitKernel_sums_filtered. unfold weighted_sums, chi2_of.
  pose proof (residuals_expand mImage data amp
                (filter (has_variance data) (data_pixels data)) 0 0 0 0) as H.
  cbn zeta in H.
  destruct (fold_left _ (filter (has_variance data) (data_pixels data))
              (0%Q, 0%Q, 0%Q)) as [[sumMM sumMD] sumDD].
  cbn [fst snd] in H.
  destruct (Qeq_bool sumMM 0); [ discriminate | ].
  intro Hok. injection Hok as Hchi Hamp. rewrite <- Hchi.
  rewrite Hamp. symmetry. apply H. ring.
Qed.







(** *** createKernelFromPsfCandidates *)

Lemma ncomp_of_bounds (nEigenComponents nEigen : Z) :
  0 <= nEigen ->
  0 <= ncomp_of nEigenComponents nEigen <= nEigen /\
  (0 < nEigenComponents <= nEigen ->
   ncomp_of nEigenComponents nEigen = nEigenComponents).
Proof.
  intro H. unfold ncomp_of.
  destruct (nEigenComponents <=? 0) eqn:H1; cbn [orb].
  - apply Z.leb_le in H1. lia.
  - apply Z.leb_gt in H1.
    destruct (nEigen <? nEigenComponents) eqn:H2.
    + apply Z.ltb_lt in H2. lia.
    + apply Z.ltb_ge in H2. lia.
Qed.

Lemma subtract_backgrounds_ok (n : nat) :
  forall b imgs,
    (n <= length imgs)%nat ->
    exists imgs',
      subtract_backgrounds n b imgs = Ok imgs' /\
      length imgs' = length imgs /\
      Forall2 shifted_by_constant (firstn n imgs') (firstn n imgs).
Proof.
  induction n as [ | n IH ]; intros b imgs Hn.
  - exists imgs. cbn. auto.
  - destruct imgs as [ | im rest ]; [ cbn in Hn; lia | ].
    cbn [subtract_backgrounds].
    destruct (background_level b im) as [b' sum].
    destruct (IH b' rest) as [rest' [-> [Hlen Hall]]];
      [ cbn in Hn; lia | ].
    cbn [bind]. eexists. split; [ reflexivity | ]. split.
    + cbn [length]. now rewrite Hlen.
    + cbn [firstn]. constructor; [ now exists sum | exact Hall ].
Qed.

Lemma build_lists_ok (n : nat) (spatialOrder : Z) :
  forall imgs,
    (n <= length imgs)%nat ->
    build_lists n spatialOrder imgs
    = Ok (firstn n imgs,
          repeat (setParameter (PolynomialFunction2 spatialOrder) 0 1) n).
Proof.
  induction n as [ | n IH ]; intros imgs Hn; [ reflexivity | ].
  destruct imgs as [ | im rest ]; [ cbn in Hn; lia | ].
  cbn [build_lists]. rewrite IH by (cbn in Hn; lia). reflexivity.
Qed.

(** X17: given at least as many eigen-images as eigenvalues, the kernel
    is made; it has as many basis images as there are eigenvalues when
    [nEigenComponents] is not positive or exceeds their number, and
    [nEigenComponents] otherwise; each basis image is the eigen-image of
    the same rank with a constant taken off; there is one spatial
    function for each; and all the eigenvalues are returned, not only
    those of the components kept. *)
Theorem createKernel_keeps_leading_components (eigenImages : list Image)
  (eigenValues : list Q) (nEigenComponents spatialOrder : Z) :
  (length eigenValues <= length eigenImages)%nat ->
  exists ks fs,
    createKernelFromPsfCandidates eigenImages eigenValues nEigenComponents
      spatialOrder
    = Ok (LinearCombinationKernel ks fs, eigenValues) /\
    Z.of_nat (length ks)
    = (if (nEigenComponents <=? 0)
          || (Z.of_nat (length eigenValues) <? nEigenComponents)
       then Z.of_nat (length eigenValues) else nEigenComponents) /\
    length fs = length ks /\
    Forall2 shifted_by_constant ks (firstn (length ks) eigenImages).
Proof.
  intro Hlen. unfold createKernelFromPsfCandidates.
  fold (ncomp_of nEigenComponents (Z.of_nat (length eigenValues))).
  destruct (ncomp_of_bounds nEigenComponents (Z.of_nat (length eigenValues)))
    as [Hb _]; [ lia | ].
  set (n := Z.to_nat (ncomp_of nEigenComponents
                        (Z.of_nat (length eigenValues)))).
  assert (Hn : (n <= length eigenImages)%nat) by lia.
  destruct (subtract_backgrounds_ok n 2 eigenImages Hn)
    as [imgs' [-> [Hlen' Hall]]].
  cbn [bind]. rewrite build_lists_ok by lia. cbn [bind fst snd].
  do 2 eexists. split; [ reflexivity | ].
  assert (Hk : length (firstn n imgs') = n)
    by (rewrite length_firstn; lia).
  rewrite Hk. split; [ lia | ]. split; [ apply repeat_length | exact Hall ].
Qed.

Lemma createKernel_keeps_leading_components_witness :
  exists ks fs,
    createKernelFromPsfCandidates [basis_0; basis_1] [2%Q; 1%Q] 1 1
    = Ok (LinearCombinationKernel ks fs, [2%Q; 1%Q]) /\
    Z.of_nat (length ks)
    = (if (1 <=? 0) || (Z.of_nat (length [2%Q; 1%Q]) <? 1)
       then Z.of_nat (length [2%Q; 1%Q]) else 1) /\
    length fs = length ks /\
    Forall2 shifted_by_constant ks (firstn (length ks) [basis_0; basis_1]).
Proof.
  apply (createKernel_keeps_leading_components [basis_0; basis_1]
           [2%Q; 1%Q] 1 1).
  cbn. lia.
Defined.

(** *** The background of a flat eigen-image *)

Lemma border_row_flat (c : Q) (f g : Z -> Q) (l : list Z) :
  (forall j, f j == c)%Q -> (forall j, g j == c)%Q ->
  forall acc : Q * Z,
    (fst acc == c * ZtoQ (snd acc))%Q ->
    let r := fold_left
               (fun '(sum, n) j => ((sum + (f j + g j))%Q, n + 2)) l acc in
    (fst r == c * ZtoQ (snd r))%Q /\
    snd r = snd acc + 2 * Z.of_nat (length l).
Proof.
  intros Hf Hg. induction l as [ | j l IH ]; intros [sum n] Hacc; cbn zeta.
  - cbn [fold_left length]. split; [ exact Hacc | cbn [snd]; lia ].
  - cbn [fold_left].
    destruct (IH ((sum + (f j + g j))%Q, n + 2)) as [H1 H2].
    + cbn [fst snd] in *. rewrite Hacc, Hf, Hg. unfold ZtoQ.
      rewrite inject_Z_plus. ring.
    + cbn zeta in H1, H2. split; [ exact H1 | ].
      rewrite H2. cbn [snd length]. lia.
Qed.

Lemma border_rows_flat (c : Q) (row : Z -> list Z) (f g : Z -> Z -> Q)
  (k : nat) (rows : list Z) :
  (forall i j, f i j == c)%Q -> (forall i j, g i j == c)%Q ->
  (forall i, length (row i) = k) ->
  forall acc : Q * Z,
    (fst acc == c * ZtoQ (snd acc))%Q ->
    let r := fold_left
               (fun acc i =>
                  fold_left
                    (fun '(sum, n) j => ((sum + (f i j + g i j))%Q, n + 2))
                    (row i) acc)
               rows acc in
    (fst r == c * ZtoQ (snd r))%Q /\
    snd r = snd acc + 2 * Z.of_nat (length rows) * Z.of_nat k.
Proof.
  intros Hf Hg Hk. induction rows as [ | i rows IH ]; intros acc Hacc;
    cbn zeta.
  - cbn [fold_left length]. split; [ exact Hacc | lia ].
  - cbn [fold_left].
    destruct (border_row_flat c (f i) (g i) (row i) (Hf i) (Hg i) acc Hacc)
      as [H1 H2]. cbn zeta in H1, H2.
    destruct (IH _ H1) as [H3 H4]. cbn zeta in H3, H4.
    split; [ exact H3 | ]. rewrite H4, H2, Hk. cbn [length]. lia.
Qed.

(** X18: for an eigen-image that is flat, with a border no wider than
    half its height, the level that is taken off is the value of its
    pixels: the image is left at 0 everywhere. *)
Theorem flat_image_has_its_value_as_background (bkg_border : Z) (im : Image)
  (c : Q) :
  flat im c ->
  1 <= clip_border bkg_border im ->
  2 * clip_border bkg_border im <= imHeight im ->
  (snd (background_level bkg_border im) == c)%Q /\
  flat (image_minus im (snd (background_level bkg_border im))) 0.
Proof.
  intros Hflat Hb Hh.
  assert (Hw : clip_border bkg_border im <= imWidth im).
  { unfold clip_border. rewrite !Z.gtb_ltb.
    destruct (Z.ltb_spec (imWidth im) bkg_border);
      match goal with
      | |- context [imHeight im <? ?e] =>
          destruct (Z.ltb_spec (imHeight im) e)
      end; lia. }
  assert (Hlevel : (snd (background_level bkg_border im) == c)%Q).
  { unfold background_level.
    set (b := clip_border bkg_border im) in *.
    unfold border_left_right, border_bottom_top.
    destruct (border_rows_flat c (fun _ => for_range 0 (imWidth im))
                (fun i j => imAt im j i)
                (fun i j => imAt im j (imHeight im - i - 1))
                (Z.to_nat (imWidth im)) (for_range 0 b)
                (fun i j => Hflat j i) (fun i j => Hflat j _)) with
      (acc := (0%Q, 0)) as [H1 H2].
    { intro i. unfold for_range. rewrite Z.sub_0_r.
      clear. generalize 0. induction (Z.to_nat (imWidth im));
        intro lo; cbn; [ reflexivity | now rewrite IHn ]. }
    { cbn [fst snd]. unfold ZtoQ. change (inject_Z 0) with 0%Q. ring. }
    cbn zeta in H1, H2.
    set (acc1 := fold_left _ (for_range 0 b) (0%Q, 0)) in *.
    destruct (border_rows_flat c (fun _ => for_range 0 b)
                (fun i j => imAt im j i)
                (fun i j => imAt im 0 (imWidth im - i - 1))
                (Z.to_nat b) (for_range b (imHeight im - b))
                (fun i j => Hflat j i) (fun i j => Hflat 0 _)) with
      (acc := acc1) as [H3 H4].
    { intro i. unfold for_range. rewrite Z.sub_0_r.
      clear. generalize 0. induction (Z.to_nat b);
        intro lo; cbn; [ reflexivity | now rewrite IHn ]. }
    { exact H1. }
    cbn zeta in H3, H4.
    set (acc2 := fold_left _ (for_range b (imHeight im - b)) acc1) in *.
    assert (Hlen : forall lo n, length (zrange lo n) = n).
    { clear. intros lo n. revert lo.
      induction n; intro lo; cbn; [ reflexivity | now rewrite IHn ]. }
    unfold for_range in H2, H4. rewrite !Hlen in H2, H4.
    cbn [snd] in H2.
    assert (Hn : snd acc2
                 = 2 * (b * imWidth im + b * (imHeight im - 2 * b))).
    { rewrite H4, H2, !Z2Nat.id by lia. ring. }
    rewrite Hn in H3. clear Hn H4.
    destruct acc2 as [sum n]. cbn [fst snd] in *.
    rewrite H3. unfold ZtoQ.
    set (k := inject_Z (2 * (b * imWidth im + b * (imHeight im - 2 * b)))).
    assert (Hk : ~ (k == 0)%Q); [ subst k | field; exact Hk ].
    intro Hz. unfold Qeq, inject_Z in Hz. cbn [Qnum Qden] in Hz.
    rewrite Z.mul_1_r in Hz.
    assert (0 < b * imWidth im) by (apply Z.mul_pos_pos; lia).
    assert (0 <= b * (imHeight im - 2 * b))
      by (apply Z.mul_nonneg_nonneg; lia).
    lia. }
  split; [ exact Hlevel | ].
  intros x y. unfold image_minus. cbn [imAt]. rewrite Hlevel, (Hflat x y).
  ring.
Qed.


Lemma flat_image_has_its_value_as_background_witness :
  (snd (background_level 2 flat_5x5) == 3)%Q /\
  flat (image_minus flat_5x5 (snd (background_level 2 flat_5x5))) 0.
Proof.
  apply (flat_image_has_its_value_as_background 2 flat_5x5 3).
  - intros x y. reflexivity.
  - vm_compute. discriminate.
  - vm_compute. discriminate.
Defined.

(** *** setSpatialParameters *)

Lemma zrange_app (a b : nat) :
  forall lo, zrange lo (a + b) = zrange lo a ++ zrange (lo + Z.of_nat a) b.
Proof.
  induction a as [ | a IH ]; intro lo.
  - cbn [plus zrange app]. f_equal. lia.
  - cbn [plus zrange app]. rewrite IH. do 3 f_equal. lia.
Qed.

Lemma zrange_map_shift {A : Type} (f : Z -> A) (k : nat) :
  forall lo i, map (fun j => f (lo + j)) (zrange i k) = map f (zrange (lo + i) k).
Proof.
  induction k as [ | k IH ]; intros lo i; [ reflexivity | ].
  cbn [zrange map]. rewrite IH. do 3 f_equal. lia.
Qed.

Lemma length_zrange (n : nat) : forall lo, length (zrange lo n) = n.
Proof.
  induction n as [ | n IH ]; intro lo; cbn; [ reflexivity | now rewrite IH ].
Qed.

Lemma chunks_concat (vec : Z -> Q) (m : Z) (n : nat) :
  0 <= m ->
  forall i,
    concat (map (chunk vec m) (zrange i n))
    = map vec (zrange (i * m) (n * Z.to_nat m)).
Proof.
  intro Hm. induction n as [ | n IH ]; intro i; [ reflexivity | ].
  cbn [zrange map concat mult]. rewrite IH, zrange_app, map_app. f_equal.
  - unfold chunk, for_range. rewrite Z.sub_0_r.
    rewrite (zrange_map_shift vec). do 2 f_equal. lia.
  - do 2 f_equal. lia.
Qed.

Lemma nth_over_zrange (d : Q) (l : list Q) :
  forall pre,
    map (fun i => nth (Z.to_nat i) (pre ++ l) d)
      (zrange (Z.of_nat (length pre)) (length l)) = l.
Proof.
  induction l as [ | a l IH ]; intro pre; [ reflexivity | ].
  cbn [length zrange map]. f_equal.
  - rewrite Nat2Z.id, app_nth2, Nat.sub_diag by lia. reflexivity.
  - specialize (IH (pre ++ [a])). rewrite <- app_assoc in IH.
    cbn [app] in IH. rewrite length_app in IH. cbn [length] in IH.
    replace (Z.of_nat (length pre) + 1) with (Z.of_nat (length pre + 1))
      by lia.
    exact IH.
Qed.

(** X19: [setSpatialParameters] takes a vector of as many coefficients
    as the kernel has components times spatial parameters, and any other
    length fails its assertion; the rows it hands to the kernel are the
    vector cut in order into one row for each component, so that they
    give the vector back when put end to end. *)
Theorem setSpatialParameters_cuts_in_rows (kernel : Kernel)
  (coeffs : list Q) :
  0 <= getNKernelParameters kernel ->
  0 <= getNSpatialParameters kernel ->
  if getNKernelParameters kernel * getNSpatialParameters kernel
     =? Z.of_nat (length coeffs)
  then
    exists rows,
      setSpatialParameters kernel coeffs
      = Ok (Kernel_setSpatialParameters kernel rows) /\
      concat rows = coeffs /\
      Z.of_nat (length rows) = getNKernelParameters kernel /\
      Forall (fun row => Z.of_nat (length row) = getNSpatialParameters kernel)
        rows
  else setSpatialParameters kernel coeffs = Err AssertionFailure.
Proof.
  intros Hn Hm. unfold setSpatialParameters, setSpatialParameters_vec.
  destruct (_ =? Z.of_nat (length coeffs)) eqn:Hsize; cbn [negb];
    [ | reflexivity ].
  apply Z.eqb_eq in Hsize. eexists. split; [ reflexivity | ].
  unfold for_range. rewrite Z.sub_0_r. split; [ | split ].
  - rewrite chunks_concat by exact Hm.
    rewrite <- Z2Nat.inj_mul, Z.mul_0_l, Hsize, Nat2Z.id by lia.
    apply (nth_over_zrange 0 coeffs []).
  - rewrite length_map, length_zrange. lia.
  - apply Forall_forall. intros row Hin. apply in_map_iff in Hin.
    destruct Hin as [i [<- _]]. unfold chunk, for_range.
    rewrite length_map, length_zrange. lia.
Qed.

(** Four coefficients for the two components of a kernel with two
    spatial parameters each. *)
Lemma setSpatialParameters_cuts_in_rows_witness :
  exists rows,
    setSpatialParameters
      (LinearCombinationKernel [basis_0; basis_1] [[1; 0]; [1; 0]]%Q)
      [1; 2; 3; 4]%Q
    = Ok (Kernel_setSpatialParameters
            (LinearCombinationKernel [basis_0; basis_1] [[1; 0]; [1; 0]]%Q)
            rows) /\
    concat rows = [1; 2; 3; 4]%Q /\
    Z.of_nat (length rows)
    = getNKernelParameters
        (LinearCombinationKernel [basis_0; basis_1] [[1; 0]; [1; 0]]%Q) /\
    Forall
      (fun row =>
         Z.of_nat (length row)
         = getNSpatialParameters
             (LinearCombinationKernel [basis_0; basis_1] [[1; 0]; [1; 0]]%Q))
      rows.
Proof.
  apply (setSpatialParameters_cuts_in_rows
           (LinearCombinationKernel [basis_0; basis_1] [[1; 0]; [1; 0]]%Q)
           [1; 2; 3; 4]%Q).
  - cbn. lia.
  - cbn. lia.
Defined.


(** *** FillABVisitor *)

Lemma fold_left_keeps {T A : Type} (P : T -> Prop) (f : T -> A -> T)
  (l : list A) :
  (forall s a, P s -> P (f s a)) -> forall s, P s -> P (fold_left f l s).
Proof.
  intro Hf. induction l as [ | a l IH ]; intros s Hs; [ exact Hs | ].
  cbn [fold_left]. apply IH, Hf, Hs.
Qed.

Lemma mat_add_sym_symmetric (A : MatrixXd) (i j : Z) (v : Q) :
  symmetric A -> symmetric (mat_add_sym A i j v).
Proof.
  intros HA i' j'. unfold mat_add_sym.
  destruct (i' =? j) eqn:H1; destruct (j' =? i) eqn:H2;
    destruct (j' =? j) eqn:H3; destruct (i' =? i) eqn:H4;
    cbn [andb]; try reflexivity; try apply HA;
    apply Z.eqb_eq in H1 || apply Z.eqb_neq in H1;
    apply Z.eqb_eq in H2 || apply Z.eqb_neq in H2;
    apply Z.eqb_eq in H3 || apply Z.eqb_neq in H3;
    apply Z.eqb_eq in H4 || apply Z.eqb_neq in H4; lia.
Qed.

(** X20: [FillABVisitor::processCandidate] keeps the matrix [_A]
    symmetric, and leaves the candidate as it was; a candidate whose
    stamp does not fit in its image changes neither [_A] nor [_b]. *)
Theorem FillAB_keeps_A_symmetric (E : Externals) (statics : Statics)
  (kernel : Kernel) (kernelList : list Image) (tau2 : Q)
  (A A' : MatrixXd) (b b' : VectorXd) (c c' : PsfCandidate) :
  FillAB_processCandidate E statics kernel kernelList tau2 (A, b) c
  = Ok ((A', b'), c') ->
  symmetric A ->
  symmetric A' /\ c' = c /\
  (getImage statics c = Err LengthErrorException -> A' = A /\ b' = b).
Proof.
  unfold FillAB_processCandidate. intros Hrun HA.
  destruct (getImage statics c) as [data | e].
  - set (e := fold_left _ _ (_, _, 0)) in Hrun.
    assert (Hsym : symmetric (fst (fst e)));
      [ subst e | destruct e as [[A1 b1] i1] ].
    + apply (fold_left_keeps
               (fun s : MatrixXd * VectorXd * Z => symmetric (fst (fst s))));
        [ | exact HA ].
      intros [[A1 b1] i1] ic H1. cbn [fst] in H1.
      apply (fold_left_keeps
               (fun s : MatrixXd * VectorXd * Z => symmetric (fst (fst s))));
        [ | exact H1 ].
      intros [[A2 b2] i2] is_ H2. cbn [fst] in H2.
      set (e := fold_left _ _ (_, i2)).
      assert (H3 : symmetric (fst e)); [ subst e | destruct e as [A3 j3] ].
      * apply (fold_left_keeps
                 (fun s : MatrixXd * Z => symmetric (fst s))); [ | exact H2 ].
        intros [A3 j3] jc H3. cbn [fst] in H3.
        apply (fold_left_keeps
                 (fun s : MatrixXd * Z => symmetric (fst s)));
          [ | exact H3 ].
        intros [A4 j4] js H4. cbn [fst] in *.
        now apply mat_add_sym_symmetric.
      * exact H3.
    + injection Hrun as <- _ <-. cbn [fst] in Hsym.
      split; [ exact Hsym | ]. split; [ reflexivity | discriminate ].
  - destruct e; try discriminate.
    injection Hrun as <- <- <-.
    split; [ exact HA | ]. split; [ reflexivity | ]. auto.
Qed.


Lemma FillAB_keeps_A_symmetric_witness :
  symmetric (fst (fst (filled fill_star star))) /\
  snd (filled fill_star star) = star /\
  (getImage statics_3 star = Err LengthErrorException ->
   fst (fst (filled fill_star star)) = (fun _ _ => 0%Q) /\
   snd (fst (filled fill_star star)) = (fun _ => 0%Q)).
Proof.
  apply (FillAB_keeps_A_symmetric externals_ref statics_3 kernel_2
           [basis_0; basis_1] 0 (fun _ _ => 0%Q)
           (fst (fst (filled fill_star star))) (fun _ => 0%Q)
           (snd (fst (filled fill_star star))) star
           (snd (filled fill_star star))).
  - vm_compute. reflexivity.
  - intros i j. reflexivity.
Defined.

(** *** PsfCandidate::getImage *)

(** X21: the stamp that [getImage] cuts has the static width and height
    (15 where they are 0), lies inside the image of the candidate, has
    the pixel of the centre of the source at its index (width/2,
    height/2), and holds, pixel by pixel, what the image holds at the
    same position of the parent frame. *)
Theorem getImage_cuts_around_the_centre (statics : Statics)
  (c : PsfCandidate) (stamp : MaskedImage) :
  getImage statics c = Ok stamp ->
  0 <= static_width statics -> 0 <= static_height statics ->
  let parent := parentImage c in
  getWidth stamp = stamp_width statics /\
  getHeight stamp = stamp_height statics /\
  getX0 stamp + getWidth stamp / 2 = positionToIndex (getXCenter c) /\
  getY0 stamp + getHeight stamp / 2 = positionToIndex (getYCenter c) /\
  getX0 parent <= getX0 stamp /\
  getX0 stamp + getWidth stamp <= getX0 parent + getWidth parent /\
  getY0 parent <= getY0 stamp /\
  getY0 stamp + getHeight stamp <= getY0 parent + getHeight parent /\
  forall X Y,
    image_at stamp (X - getX0 stamp) (Y - getY0 stamp)
    = image_at parent (X - getX0 parent) (Y - getY0 parent) /\
    variance_at stamp (X - getX0 stamp) (Y - getY0 stamp)
    = variance_at parent (X - getX0 parent) (Y - getY0 parent) /\
    mask_at stamp (X - getX0 stamp) (Y - getY0 stamp)
    = mask_at parent (X - getX0 parent) (Y - getY0 parent).
Proof.
  unfold getImage, stamp_width, stamp_height. intros Hrun Hw Hh. cbn zeta.
  set (width := if static_width statics =? 0 then 15
                else static_width statics) in *.
  set (height := if static_height statics =? 0 then 15
                 else static_height statics) in *.
  assert (Hwidth : 0 <= width)
    by (subst width; destruct (static_width statics =? 0); lia).
  assert (Hheight : 0 <= height)
    by (subst height; destruct (static_height statics =? 0); lia).
  destruct (_ && _) eqn:Hin; [ | discriminate ].
  apply andb_true_iff in Hin. destruct Hin as [Hin H4].
  apply andb_true_iff in Hin. destruct Hin as [Hin H3].
  apply andb_true_iff in Hin. destruct Hin as [H1 H2].
  apply Z.leb_le in H1, H2, H3, H4.
  injection Hrun as <-.
  cbn [getWidth getHeight getX0 getY0 image_at variance_at mask_at].
  assert (Hqw : Z.quot width 2 = width / 2)
    by (apply Z.quot_div_nonneg; lia).
  assert (Hqh : Z.quot height 2 = height / 2)
    by (apply Z.quot_div_nonneg; lia).
  rewrite Hqw, Hqh in *.
  repeat split; try lia; f_equal; lia.
Qed.

Lemma getImage_cuts_around_the_centre_witness :
  getWidth (stamp_of (getImage statics_3 star) (parentImage star))
  = stamp_width statics_3 /\
  getHeight (stamp_of (getImage statics_3 star) (parentImage star))
  = stamp_height statics_3 /\
  getX0 (stamp_of (getImage statics_3 star) (parentImage star))
  + getWidth (stamp_of (getImage statics_3 star) (parentImage star)) / 2
  = positionToIndex (getXCenter star) /\
  getY0 (stamp_of (getImage statics_3 star) (parentImage star))
  + getHeight (stamp_of (getImage statics_3 star) (parentImage star)) / 2
  = positionToIndex (getYCenter star) /\
  getX0 (parentImage star)
  <= getX0 (stamp_of (getImage statics_3 star) (parentImage star)) /\
  getX0 (stamp_of (getImage statics_3 star) (parentImage star))
  + getWidth (stamp_of (getImage statics_3 star) (parentImage star))
  <= getX0 (parentImage star) + getWidth (parentImage star) /\
  getY0 (parentImage star)
  <= getY0 (stamp_of (getImage statics_3 star) (parentImage star)) /\
  getY0 (stamp_of (getImage statics_3 star) (parentImage star))
  + getHeight (stamp_of (getImage statics_3 star) (parentImage star))
  <= getY0 (parentImage star) + getHeight (parentImage star) /\
  forall X Y,
    image_at (stamp_of (getImage statics_3 star) (parentImage star))
      (X - getX0 (stamp_of (getImage statics_3 star) (parentImage star)))
      (Y - getY0 (stamp_of (getImage statics_3 star) (parentImage star)))
    = image_at (parentImage star) (X - getX0 (parentImage star))
        (Y - getY0 (parentImage star)) /\
    variance_at (stamp_of (getImage statics_3 star) (parentImage star))
      (X - getX0 (stamp_of (getImage statics_3 star) (parentImage star)))
      (Y - getY0 (stamp_of (getImage statics_3 star) (parentImage star)))
    = variance_at (parentImage star) (X - getX0 (parentImage star))
        (Y - getY0 (parentImage star)) /\
    mask_at (stamp_of (getImage statics_3 star) (parentImage star))
      (X - getX0 (stamp_of (getImage statics_3 star) (parentImage star)))
      (Y - getY0 (stamp_of (getImage statics_3 star) (parentImage star)))
    = mask_at (parentImage star) (X - getX0 (parentImage star))
        (Y - getY0 (parentImage star)).
Proof.
  apply (getImage_cuts_around_the_centre statics_3 star
           (stamp_of (getImage statics_3 star) (parentImage star))).
  - vm_compute. reflexivity.
  - cbn. lia.
  - cbn. lia.
Defined.


(** *** A star that is a multiple of the model *)

Lemma multiple_sums (mImage : Image) (data : MaskedImage) (a : Q)
  (l : list (Z * Z)) :
  (forall xy, In xy l ->
              (image_at data (fst xy) (snd xy)
               == a * imAt mImage (fst xy) (snd xy))%Q) ->
  forall (MM MD DD : Q),
    (MD == a * MM)%Q -> (DD == a * a * MM)%Q ->
    let sums :=
      fold_left
        (fun '(sumMM, sumMD, sumDD) '(x, y) =>
           let m := imAt mImage x y in
           let d := image_at data x y in
           let iVar := (1 / variance_at data x y)%Q in
           ((sumMM + m * m * iVar)%Q, (sumMD + m * d * iVar)%Q,
            (sumDD + d * d * iVar)%Q))
        l (MM, MD, DD) in
    (snd (fst sums) == a * fst (fst sums))%Q /\
    (snd sums == a * a * fst (fst sums))%Q.
Proof.
  induction l as [ | [x y] l IH ]; intros Hl MM MD DD HMD HDD; cbn zeta.
  - cbn [fold_left fst snd]. auto.
  - cbn [fold_left]. apply IH.
    + intros xy Hin. apply Hl. now right.
    + rewrite HMD, (Hl (x, y) (or_introl eq_refl)). cbn [fst snd]. ring.
    + rewrite HDD, (Hl (x, y) (or_introl eq_refl)). cbn [fst snd]. ring.
Qed.

Lemma fitKernel_exact (mImage : Image) (data : MaskedImage)
  (a chi2 amp : Q) :
  fitKernel mImage data = Ok (chi2, amp) ->
  multiple_of_model mImage data a ->
  (amp == a)%Q /\ (chi2 == 0)%Q.
Proof.
  unfold fitKernel. intros Hfit Hmul.
  destruct (negb (same_dimensions mImage data)); [ discriminate | ].
  rewrite fitKernel_sums_filtered in Hfit. unfold weighted_sums in Hfit.
  destruct (multiple_sums mImage data a
              (filter (has_variance data) (data_pixels data)))
    with (MM := 0%Q) (MD := 0%Q) (DD := 0%Q) as [HMD HDD];
    [ | ring | ring | ].
  { intros xy Hin. apply filter_In in Hin. now apply Hmul. }
  cbn zeta in HMD, HDD.
  destruct (fold_left _ (filter (has_variance data) (data_pixels data))
              (0%Q, 0%Q, 0%Q)) as [[sumMM sumMD] sumDD].
  cbn [fst snd] in HMD, HDD.
  destruct (Qeq_bool sumMM 0) eqn:Hz; [ discriminate | ].
  apply Qeq_bool_neq in Hz. injection Hfit as Hchi Hamp.
  assert (Ha : (amp == a)%Q).
  { rewrite <- Hamp, HMD. field. exact Hz. }
  split; [ exact Ha | ].
  rewrite <- Hchi, Hamp, Ha, HMD, HDD. ring.
Qed.




(** *** subtractPsf *)

Lemma in_zrange (n : nat) :
  forall lo z, In z (zrange lo n) -> lo <= z < lo + Z.of_nat n.
Proof.
  induction n as [ | n IH ]; intros lo z; cbn [zrange In]; [ tauto | ].
  intros [<- | Hin]; [ lia | ]. apply IH in Hin. lia.
Qed.

Lemma in_data_pixels (data : MaskedImage) (x y : Z) :
  In (x, y) (data_pixels data) ->
  0 <= x < getWidth data /\ 0 <= y < getHeight data.
Proof.
  unfold data_pixels, for_range. intro Hin. apply in_flat_map in Hin.
  destruct Hin as [y' [Hy Hin]]. apply in_map_iff in Hin.
  destruct Hin as [x' [Heq Hx]]. injection Heq as <- <-.
  apply in_zrange in Hx, Hy. lia.
Qed.



End SpatialMoreFacts.

Module PSFFacts.
Import SpatialModelPsf PSF.

(** *** The registry *)

(** X24: a factory that was declared under a name is the one [lookup]
    returns for that name; the other names are looked up as before; and
    the name cannot be declared again: [declare] then throws
    [InvalidParameterException]. *)
Theorem declare_then_lookup {Factory : Type} (reg reg' : @Registry Factory)
  (name : String.string) (f : Factory) :
  declare reg name (Some f) = Value reg' ->
  lookup reg' name = Value f /\
  (forall other, other <> name -> lookup reg' other = lookup reg other) /\
  (forall g, declare reg' name (Some g) = Throw InvalidParameterException).
Proof.
  unfold declare, lookup, _registry.
  destruct (reg name) eqn:Hreg; [ discriminate | ].
  intro H. injection H as <-. unfold registry_set.
  rewrite String.eqb_refl. split; [ reflexivity | ]. split.
  - intros other Hother. apply String.eqb_neq in Hother.
    rewrite Hother. destruct (reg other); reflexivity.
  - intro g. reflexivity.
Qed.

Lemma declare_then_lookup_witness :
  lookup (registry_set (@empty_registry Z) DGPSF 7) DGPSF = Value 7 /\
  (forall other, other <> DGPSF ->
     lookup (registry_set (@empty_registry Z) DGPSF 7) other
     = lookup empty_registry other) /\
  (forall g,
     declare (registry_set (@empty_registry Z) DGPSF 7) DGPSF (Some g)
     = Throw InvalidParameterException).
Proof.
  apply (declare_then_lookup (@empty_registry Z)
           (registry_set (@empty_registry Z) DGPSF 7) DGPSF 7).
  reflexivity.
Defined.

(** X25: [_registry] with a null factory never changes the registry;
    [lookup] throws [NotFoundException] exactly for the names that were
    not declared; [declare] with a factory goes through exactly for
    those names and throws [InvalidParameterException] for the others;
    and [declare] with a null factory registers nothing: it goes
    through only for a name that is declared already. *)
Theorem registry_declares_each_name_once {Factory : Type}
  (reg : @Registry Factory) (name : String.string) (f : Factory) :
  lookup (@empty_registry Factory) name = Throw NotFoundException /\
  (forall reg' g, _registry reg name None = Value (reg', g) -> reg' = reg) /\
  (lookup reg name = Throw NotFoundException <->
   exists reg', declare reg name (Some f) = Value reg') /\
  ((exists g, lookup reg name = Value g) <->
   declare reg name (Some f) = Throw InvalidParameterException) /\
  (forall reg', declare reg name None = Value reg' ->
                reg' = reg /\ exists g, lookup reg name = Value g).
Proof.
  unfold declare, lookup, _registry, empty_registry.
  destruct (reg name) as [el | ] eqn:Hreg.
  - split; [ reflexivity | ]. split.
    { intros reg' g H. now injection H as <- _. }
    split; [ split; [ discriminate | intros [reg' H]; discriminate ] | ].
    split; [ split; [ reflexivity | eauto ] | ].
    intros reg' H. injection H as <-. eauto.
  - split; [ reflexivity | ]. split; [ discriminate | ].
    split; [ split; eauto | ].
    split; [ split; [ intros [g H]; discriminate | discriminate ] | ].
    discriminate.
Qed.


(** *** PsfAttributes *)

Lemma fold_left_related {T U A : Type} (R : T -> U -> Prop)
  (f : T -> A -> T) (g : U -> A -> U) (l : list A) :
  (forall s u a, R s u -> R (f s a) (g u a)) ->
  forall s u, R s u -> R (fold_left f l s) (fold_left g l u).
Proof.
  intro Hfg. induction l as [ | a l IH ]; intros s u Hsu; [ exact Hsu | ].
  cbn [fold_left]. apply IH, Hfg, Hsu.
Qed.

Lemma area_sums_scaled (psfImage : Image) (c : Q) :
  (fst (area_sums (image_scale psfImage c))
   == c * fst (area_sums psfImage))%Q /\
  (snd (area_sums (image_scale psfImage c))
   == c * c * snd (area_sums psfImage))%Q.
Proof.
  unfold area_sums. cbn [image_scale imWidth imHeight imAt].
  apply (fold_left_related
           (fun s u : Q * Q =>
              (fst s == c * fst u)%Q /\ (snd s == c * c * snd u)%Q)).
  - intros s u iY Hsu.
    apply (fold_left_related
             (fun s u : Q * Q =>
                (fst s == c * fst u)%Q /\ (snd s == c * c * snd u)%Q));
      [ | exact Hsu ].
    intros [s1 s2] [u1 u2] iX [H1 H2]. cbn [fst snd] in *.
    rewrite H1, H2. split; ring.
  - cbn [fst snd]. split; ring.
Qed.



Lemma count_rows (xs ys : list Z) :
  forall n : Z,
    fold_left (fun n (_ : Z) => fold_left (fun n (_ : Z) => n + 1) xs n) ys n
    = n + Z.of_nat (length ys) * Z.of_nat (length xs).
Proof.
  assert (Hrow : forall n, fold_left (fun n (_ : Z) => n + 1) xs n
                           = n + Z.of_nat (length xs)).
  { induction xs as [ | x xs IH ]; intro n; cbn [fold_left length];
      [ lia | rewrite IH; lia ]. }
  induction ys as [ | y ys IH ]; intro n; cbn [fold_left length];
    [ lia | rewrite IH, Hrow; lia ].
Qed.



(** X28: on an image with no negative pixel, [computeSecondMoment]
    throws only when the sum of the pixels is 0, and what it returns
    otherwise is not negative. *)
Theorem second_moment_of_nonnegative_image (psfImage : Image) :
  (forall x y, 0 <= imAt psfImage x y)%Q ->
  match computeSecondMoment psfImage with
  | Value m => (0 <= m)%Q /\ (0 < snd (moment_sums psfImage))%Q
  | Throw e =>
      e = DomainErrorException /\ (snd (moment_sums psfImage) == 0)%Q
  end.
Proof.
  intro Hpos. unfold computeSecondMoment.
  assert (Hsums : (0 <= fst (moment_sums psfImage))%Q /\
                  (0 <= snd (moment_sums psfImage))%Q).
  { unfold moment_sums. cbn zeta.
    apply (SpatialMoreFacts.fold_left_keeps
             (fun s : Q * Q => (0 <= fst s)%Q /\ (0 <= snd s)%Q)).
    - intros s iY Hs.
      apply (SpatialMoreFacts.fold_left_keeps
               (fun s : Q * Q => (0 <= fst s)%Q /\ (0 <= snd s)%Q));
        [ | exact Hs ].
      intros [s1 s2] iX [H1 H2]. cbn [fst snd] in *.
      pose proof (Hpos iX iY) as Hv.
      set (v := imAt psfImage iX iY) in *.
      set (x := (ZtoQ iX - ZtoQ (Z.quot (imWidth psfImage) 2))%Q).
      set (y := (ZtoQ iY - ZtoQ (Z.quot (imHeight psfImage) 2))%Q).
      assert (Hr : (0 <= x * x + y * y)%Q) by nra.
      split; [ | lra ].
      assert (Hm : (0 <= v * (x * x + y * y))%Q)
        by (apply Qmult_le_0_compat; assumption).
      set (m := (v * (x * x + y * y))%Q) in *. lra.
    - cbn [fst snd]. split; apply Qle_refl. }
  destruct (moment_sums psfImage) as [sum norm].
  destruct Hsums as [Hsum Hnorm]. cbn [fst snd] in *.
  assert (Hlt : Qltb sum 0 = false).
  { unfold Qltb. apply negb_false_iff. now apply Qle_bool_iff. }
  rewrite Hlt. cbn [orb].
  destruct (Qle_bool norm 0) eqn:Hle.
  - apply Qle_bool_iff in Hle. split; [ reflexivity | ].
    now apply Qle_antisym.
  - assert (Hn : (0 < norm)%Q).
    { apply Qnot_le_lt. intro H. apply Qle_bool_iff in H. congruence. }
    split; [ | exact Hn ].
    unfold Qdiv. apply Qmult_le_0_compat; [ exact Hsum | ].
    apply Qinv_le_0_compat. now apply Qlt_le_weak.
Qed.

Lemma second_moment_of_nonnegative_image_witness :
  (0 <= moment_of (computeSecondMoment psf_3x3))%Q /\
  (0 < snd (moment_sums psf_3x3))%Q.
Proof.
  apply (second_moment_of_nonnegative_image psf_3x3).
  intros x y. unfold psf_3x3, image_of. cbn [imAt fold_left].
  unfold plane_set.
  destruct (same_pixel 2 1 x y); [ discriminate | ].
  destruct (same_pixel 1 1 x y); discriminate.
Defined.

End PSFFacts.

Module dgPSFFacts.
Import PSF dgPSF.

(** X29: the constructor throws [DomainErrorException] exactly when
    [sigma1] is 0, or [sigma2] is 0 and [b] is not; a [dgPSF] that is
    made holds no width that is 0 ([sigma2] is 1 where it was given as 0
    with [b] 0), reports the width as its height where the height was
    given as 0, and has a kernel, of the width and height as they were
    given, exactly when the width is positive. *)
Theorem new_dgPSF_refuses_zero_widths (width height : Z)
  (sigma1 sigma2 b : Q) :
  match new_dgPSF width height sigma1 sigma2 b with
  | Throw e =>
      e = DomainErrorException /\
      ((sigma1 == 0)%Q \/ ((sigma2 == 0)%Q /\ ~ (b == 0)%Q))
  | Value p =>
      ~ (sigma1 == 0)%Q /\ (~ (sigma2 == 0)%Q \/ (b == 0)%Q) /\
      ~ (_sigma1 p == 0)%Q /\ ~ (_sigma2 p == 0)%Q /\
      ((sigma2 == 0)%Q -> _sigma2 p = 1%Q) /\
      (~ (sigma2 == 0)%Q -> _sigma2 p = sigma2) /\
      _sigma1 p = sigma1 /\ _b p = b /\
      _width p = width /\
      _height p = (if height =? 0 then width else height) /\
      _kernel p = (if width >? 0 then Some (width, height) else None)
  end.
Proof.
  assert (Hspec : forall q, if Qeq_bool q 0 then (q == 0)%Q
                            else ~ (q == 0)%Q).
  { intro q. destruct (Qeq_bool q 0) eqn:Hq;
      [ now apply Qeq_bool_iff | now apply Qeq_bool_neq ]. }
  unfold new_dgPSF.
  pose proof (Hspec sigma1) as H1. pose proof (Hspec sigma2) as H2.
  pose proof (Hspec b) as Hb.
  destruct (Qeq_bool sigma1 0); cbn [orb]; [ auto | ].
  destruct (Qeq_bool b 0); destruct (Qeq_bool sigma2 0) eqn:E2;
    cbn [andb]; cbv beta iota zeta; try rewrite E2;
    try change (Qeq_bool 1 0) with false; cbv beta iota;
    cbn [_sigma1 _sigma2 _b _width _height _kernel];
    repeat split; auto; try tauto; discriminate.
Qed.

(** *** doGetValue *)

Lemma radius_flip_x (dx dy : Q) :
  (- dx * - dx + dy * dy)%Q = (dx * dx + dy * dy)%Q.
Proof.
  unfold Qplus, Qmult, Qopp. cbn [Qnum Qden]. now rewrite Z.mul_opp_opp.
Qed.

Lemma radius_flip_y (dx dy : Q) :
  (dx * dx + - dy * - dy)%Q = (dx * dx + dy * dy)%Q.
Proof.
  unfold Qplus, Qmult, Qopp. cbn [Qnum Qden]. now rewrite Z.mul_opp_opp.
Qed.

Lemma radius_swap (dx dy : Q) :
  (dy * dy + dx * dx)%Q = (dx * dx + dy * dy)%Q.
Proof.
  unfold Qplus, Qmult. cbn [Qnum Qden]. f_equal; [ ring | ].
  apply Pos.mul_comm.
Qed.

(** X30: the value of a [dgPSF] is the same at (dx, dy), (-dx, dy),
    (dx, -dy) and (dy, dx), whatever [exp] is; and with an [exp] that is
    1 at 0 and a [b] other than -1, the value at the centre is 1. *)
Theorem doGetValue_is_symmetric_and_one_at_centre (exp : Q -> Q)
  (psf : dgPSF) (dx dy : Q) :
  (forall q, q == 0 -> exp q == 1)%Q ->
  ~ (1 + _b psf == 0)%Q ->
  (doGetValue exp psf 0 0 == 1)%Q /\
  doGetValue exp psf (- dx) dy = doGetValue exp psf dx dy /\
  doGetValue exp psf dx (- dy) = doGetValue exp psf dx dy /\
  doGetValue exp psf dy dx = doGetValue exp psf dx dy.
Proof.
  intros Hexp Hb. split; [ | split; [ | split ] ].
  - unfold doGetValue. cbn zeta.
    assert (H1 : (exp (- (0 * 0 + 0 * 0) / (2 * _sigma1 psf * _sigma1 psf))
                  == 1)%Q) by (apply Hexp; unfold Qdiv; ring).
    assert (H2 : (exp (- (0 * 0 + 0 * 0) / (2 * _sigma2 psf * _sigma2 psf))
                  == 1)%Q) by (apply Hexp; unfold Qdiv; ring).
    destruct (Qeq_bool (_b psf) 0); [ exact H1 | ].
    rewrite H1, H2. field. exact Hb.
  - unfold doGetValue. cbn zeta. now rewrite radius_flip_x.
  - unfold doGetValue. cbn zeta. now rewrite radius_flip_y.
  - unfold doGetValue. cbn zeta. now rewrite radius_swap.
Qed.

Lemma doGetValue_is_symmetric_and_one_at_centre_witness :
  (doGetValue exp_near_0 (built (new_dgPSF 15 15 1 2 (1 # 10))) 0 0 == 1)%Q /\
  doGetValue exp_near_0 (built (new_dgPSF 15 15 1 2 (1 # 10))) (- (3)) 1
  = doGetValue exp_near_0 (built (new_dgPSF 15 15 1 2 (1 # 10))) 3 1 /\
  doGetValue exp_near_0 (built (new_dgPSF 15 15 1 2 (1 # 10))) 3 (- (1))
  = doGetValue exp_near_0 (built (new_dgPSF 15 15 1 2 (1 # 10))) 3 1 /\
  doGetValue exp_near_0 (built (new_dgPSF 15 15 1 2 (1 # 10))) 1 3
  = doGetValue exp_near_0 (built (new_dgPSF 15 15 1 2 (1 # 10))) 3 1.
Proof.
  apply (doGetValue_is_symmetric_and_one_at_centre exp_near_0
           (built (new_dgPSF 15 15 1 2 (1 # 10))) 3 1).
  - intros q Hq. unfold exp_near_0. rewrite Hq. reflexivity.
  - cbn. discriminate.
Defined.

End dgPSFFacts.
